(** * Channel import (kolibri/content/utils/channel_import.py)

    A shallow embedding of the channel import machinery: the tree id
    allocator, the row and table mappers, the batched table import, the
    transactional driver and the schema version dispatch, with the
    properties of the specification stated over them. *)

From stdpp Require Import gmap strings list sorting.
From Stdlib Require Import ZArith Lia.

Local Open Scope Z_scope.

(** ** Tree id allocation: [find_hole_in_list] *)

(** [ids[-1]]: the last element, IndexError ([None]) on the empty list. *)
Definition index_neg1 (ids : list Z) : option Z := last ids.

(** The nested function [find_hole_in_list] of [find_unique_tree_id].
    [ids[i]] on a list raises IndexError out of range: [None] here.
    Python slices [ids[:middle]] and [ids[middle:]] are [take] and [drop];
    [int(last/2 + 1)] is [last / 2 + 1] on the naturals.  The recursion
    is on a sub-list that is strictly shorter, so the length of the
    list is enough fuel. *)
Fixpoint find_hole_in_list (fuel : nat) (ids : list Z) : option Z :=
  match fuel with
  | O => None
  | S fuel' =>
    let last := (length ids - 1)%nat in
    let middle := (last / 2 + 1)%nat in
    ids_middle ← ids !! middle;
    ids_0 ← ids !! 0%nat;
    if negb (ids_middle - ids_0 =? Z.of_nat middle) then
      if (middle =? 1)%nat then Some (ids_0 + 1)
      else find_hole_in_list fuel' (take middle ids)
    else
      ids_last ← ids !! last;
      if negb (ids_last - ids_middle =? Z.of_nat last - Z.of_nat middle) then
        if (Z.of_nat last - Z.of_nat middle =? 1) then Some (ids_middle + 1)
        else find_hole_in_list fuel' (drop middle ids)
      else
        (* ids[-1] + 1 *)
        ids_m1 ← index_neg1 ids;
        Some (ids_m1 + 1)
  end.

(** The body of [find_unique_tree_id] after [tree_ids] has been
    fetched. *)
Definition find_unique_tree_id_from (tree_ids : list Z) : option Z :=
  match tree_ids with
  | [] => Some 1
  | [x] => if x =? 1 then Some 2 else Some 1
  | _ => find_hole_in_list (length tree_ids) tree_ids
  end.


(** ** Python values, exceptions and results *)

(** Python values: [None], integers (booleans are the integers 0 and 1,
    as Python compares them), strings, and any other object (a record, a
    function, a generator), of which only the type's name is kept. *)
Inductive value :=
  | VNone
  | VInt (n : Z)
  | VStr (s : string)
  | VObject (type_name : string).

Global Instance value_eq_dec : EqDecision value.
Proof. solve_decision. Defined.

Global Instance value_countable : Countable value.
Proof.
  refine (inj_countable'
    (λ v, match v with
          | VNone => inl ()
          | VInt n => inr (inl n)
          | VStr s => inr (inr (inl s))
          | VObject t => inr (inr (inr t))
          end)
    (λ x, match x with
          | inl _ => VNone
          | inr (inl n) => VInt n
          | inr (inr (inl s)) => VStr s
          | inr (inr (inr t)) => VObject t
          end) _).
  by intros [].
Defined.

(** Python truthiness of a value: [None], [0] and the empty string are
    false. *)
Definition truthy (v : value) : bool :=
  match v with
  | VNone => false
  | VInt n => negb (n =? 0)
  | VStr s => negb (String.eqb s "")
  | VObject _ => true
  end.

(** [type(v).__name__] *)
Definition type_name_of (v : value) : string :=
  match v with
  | VNone => "NoneType"
  | VInt _ => "int"
  | VStr _ => "str"
  | VObject t => t
  end.

(** A row of a table, and a record object with one attribute per
    column: attribute name to value.  [hasattr(record, a)] is
    [is_Some (record !! a)]; a NULL column is an attribute whose value is
    [VNone]. *)
Abbreviation Row := (gmap string value).

(** [getattr(record, column, None)] *)
Definition getattr_default (record : Row) (column : string) : value :=
  default VNone (record !! column).

Inductive exn :=
  | SQLAlchemyError (msg : string)
  | ClassNotFoundError
  | AttributeError (msg : string)
  | TypeError (msg : string)
  | ValueError
  | KeyError
  | IndexError
  | UnboundLocalError
  | FutureSchemaError (version : value)
  | InvalidSchemaVersionError (msg : string) (version : value).

Global Instance exn_eq_dec : EqDecision exn.
Proof. solve_decision. Defined.

Inductive Result (A : Type) :=
  | Ok (a : A)
  | Raise (e : exn).
Arguments Ok {A} a.
Arguments Raise {A} e.

Global Instance Result_eq_dec {A} `{EqDecision A} : EqDecision (Result A).
Proof. solve_decision. Defined.

(** ** The stores *)

(** The content app's models; the ones generated for many-to-many fields
    and the ones this module does not name are [OtherModel]. *)
Inductive Model :=
  | ContentNode
  | ContentTag
  | File
  | Language
  | LocalFile
  | ChannelMetadata
  | License
  | OtherModel (name : string).

Global Instance Model_eq_dec : EqDecision Model.
Proof. solve_decision. Defined.

(** [merge_models] *)
Definition merge_models : list Model := [ContentTag; LocalFile; Language].

(** What [column_not_auto_integer_pk] reads of an SQLAlchemy column. *)
Inductive Autoincrement := AutoincAuto | AutoincTrue | AutoincFalse | AutoincIgnoreFk.
Inductive PythonType := PyInt | PyStr | PyBool | PyFloat.

Record Column := {
  autoincrement : Autoincrement;
  primary_key : bool;
  python_type : PythonType;
}.

Definition column_not_auto_integer_pk (column : Column) : bool :=
  negb (match autoincrement column with AutoincAuto => true | _ => false end
        && primary_key column
        && match python_type column with PyInt => true | _ => false end).

(** A database: the rows of every table, in insertion order. *)
Abbreviation DB := (list (Model * Row)).

Definition table (db : DB) (m : Model) : list Row :=
  (filter (λ mr, mr.1 = m) db).*2.

(** The read-only source: the tables the snapshot has, with their rows.
    [source.get_class(model)] raises ClassNotFoundError for a table the
    snapshot does not have. *)
Abbreviation Source := (list (Model * list Row)).

Fixpoint source_lookup (src : Source) (m : Model) : option (list Row) :=
  match src with
  | [] => None
  | (m', rows) :: src' => if decide (m' = m) then Some rows else source_lookup src' m
  end.

Definition source_get_class (src : Source) (m : Model) : Result Model :=
  match source_lookup src m with
  | Some _ => Ok m
  | None => Raise ClassNotFoundError
  end.

(** [source.session.query(SourceRecord).all()] *)
Definition source_query_all (src : Source) (SourceRecord : Model) : list Row :=
  default [] (source_lookup src SourceRecord).

(** [source.session.query(SourceRecord).get(pk)] *)
Definition source_query_get (src : Source) (SourceRecord : Model) (pk : value) : option Row :=
  head (filter (λ r : Row, r !! "id" = Some pk) (source_query_all src SourceRecord)).

(** Calls received by the destination session. *)
Inductive Call :=
  | CMerge (m : Model) (data : Row)
  | CBulkInsert (m : Model) (rows : list Row)
  | CFlush
  | CCommit
  | CRollback.

Global Instance Call_eq_dec : EqDecision Call.
Proof. solve_decision. Defined.

(** The state the import runs in.
    - [committed] is the destination database as committed;
      [working] is what the destination session sees inside its
      transaction; [calls] logs the calls the session received.
    - [licenses] is the class attribute [NoVersionChannelImport.licenses]:
      one dict object, created when the class is, that every instance
      reaches through [self.licenses].
    - [license_queries] logs the ids looked up in the source License
      table.
    - [commit_error] is what the store answers to a commit: [None] when
      it accepts the transaction, the SQLAlchemyError it raises
      otherwise (a deferred constraint, a lock, a full disk). *)
Record World := {
  committed : DB;
  working : DB;
  calls : list Call;
  licenses : gmap value (option Row);
  license_queries : list value;
  commit_error : option string;
}.

(** Computations that read and change the world and may raise; the world
    as changed so far survives an exception. *)
Definition M (A : Type) : Type := World → Result A * World.

Definition ret {A} (a : A) : M A := λ w, (Ok a, w).
Definition raise {A} (e : exn) : M A := λ w, (Raise e, w).
Definition bind {A B} (c : M A) (k : A → M B) : M B :=
  λ w, match c w with
       | (Ok a, w') => k a w'
       | (Raise e, w') => (Raise e, w')
       end.
Definition lift {A} (r : Result A) : M A := λ w, (r, w).

(** [try: body except E as e: handler(e)], for the exceptions [handles]
    selects. *)
Definition try_except {A} (body : M A) (handles : exn → bool) (handler : exn → M A) : M A :=
  λ w, match body w with
       | (Raise e, w') => if handles e then handler e w' else (Raise e, w')
       | r => r
       end.

Definition gets {A} (f : World → A) : M A := λ w, (Ok (f w), w).
Definition modify (f : World → World) : M () := λ w, (Ok (), f w).

Global Instance M_ret : MRet M := @ret.
Global Instance M_bind : MBind M := λ A B k c, bind c k.

Definition set_working (db : DB) (w : World) : World :=
  {| committed := committed w; working := db; calls := calls w;
     licenses := licenses w; license_queries := license_queries w;
     commit_error := commit_error w |}.

Definition set_committed (db : DB) (w : World) : World :=
  {| committed := db; working := working w; calls := calls w;
     licenses := licenses w; license_queries := license_queries w;
     commit_error := commit_error w |}.

Definition log_call (c : Call) (w : World) : World :=
  {| committed := committed w; working := working w; calls := calls w ++ [c];
     licenses := licenses w; license_queries := license_queries w;
     commit_error := commit_error w |}.

Definition set_license (license_id : value) (license : option Row) (w : World) : World :=
  {| committed := committed w; working := working w; calls := calls w;
     licenses := <[license_id := license]> (licenses w);
     license_queries := license_queries w; commit_error := commit_error w |}.

Definition log_license_query (license_id : value) (w : World) : World :=
  {| committed := committed w; working := working w; calls := calls w;
     licenses := licenses w;
     license_queries := license_queries w ++ [license_id];
     commit_error := commit_error w |}.

(** *** The destination session

    The SQLAlchemy session of the destination, as the import uses it: a
    row is identified by the values of its table's primary key columns; a
    row that does not supply them (an auto-incrementing key) gets its
    identity from the store and never collides. *)

Definition pk_columns (cols : list (string * Column)) : list string :=
  (filter (λ nc, primary_key nc.2 = true) cols).*1.

Definition identity (cols : list (string * Column)) (row : Row) : option (list value) :=
  match pk_columns cols with
  | [] => None
  | pks => mapM (λ c, row !! c) pks
  end.

(** A row of table [m] whose identity is [k]. *)
Definition has_identity (cols : list (string * Column)) (m : Model) (k : list value)
    (mr : Model * Row) : Prop :=
  mr.1 = m ∧ identity cols mr.2 = Some k.

Global Instance has_identity_dec cols m k mr : Decision (has_identity cols m k mr).
Proof. unfold has_identity. apply _. Defined.

Definition same_identity (cols : list (string * Column)) (k : list value)
    (m : Model) (mr : Model * Row) : bool :=
  bool_decide (has_identity cols m k mr).

(** INSERT of one row: an IntegrityError, which is an SQLAlchemyError,
    when the table has a row of that identity.  The other constraints a
    destination table may have (uniqueness, NOT NULL, foreign keys) are
    in the schema of the content app, not in this module, and are not
    modelled: a property that needs an insert to succeed has the
    success as a hypothesis. *)
Definition insert_row (cols : list (string * Column)) (m : Model) (row : Row)
    (db : DB) : Result DB :=
  match identity cols row with
  | Some k =>
    if existsb (same_identity cols k m) db
    then Raise (SQLAlchemyError "IntegrityError")
    else Ok (db ++ [(m, row)])
  | None => Ok (db ++ [(m, row)])
  end.

Fixpoint insert_rows (cols : list (string * Column)) (m : Model) (rows : list Row)
    (db : DB) : Result DB :=
  match rows with
  | [] => Ok db
  | row :: rest =>
    match insert_row cols m row db with
    | Ok db' => insert_rows cols m rest db'
    | Raise e => Raise e
    end
  end.

(** [session.bulk_insert_mappings(DestinationRecord, rows)] *)
Definition bulk_insert_mappings (cols : list (string * Column)) (m : Model)
    (rows : list Row) : M () :=
  λ w, let w1 := log_call (CBulkInsert m rows) w in
       match insert_rows cols m rows (working w1) with
       | Ok db => (Ok (), set_working db w1)
       | Raise e => (Raise e, w1)
       end.

(** Upsert by identity: the attributes given replace those of the row
    of that identity, which keeps the others; a new row otherwise. *)
Fixpoint upsert (cols : list (string * Column)) (k : list value) (m : Model)
    (data : Row) (db : DB) : DB :=
  match db with
  | [] => [(m, data)]
  | mr :: db' =>
    if same_identity cols k m mr then (m, data ∪ mr.2) :: db'
    else mr :: upsert cols k m data db'
  end.

Definition merge_row (cols : list (string * Column)) (m : Model) (data : Row)
    (db : DB) : DB :=
  match identity cols data with
  | Some k => upsert cols k m data db
  | None => db ++ [(m, data)]
  end.

(** [session.merge(DestinationRecord( **data ))] *)
Definition session_merge (cols : list (string * Column)) (m : Model) (data : Row) : M () :=
  λ w, let w1 := log_call (CMerge m data) w in
       (Ok (), set_working (merge_row cols m data (working w1)) w1).

(** [session.flush()]: the pending writes are already in [working]. *)
Definition session_flush : M () := λ w, (Ok (), log_call CFlush w).

(** [session.commit()]: what the session sees becomes the committed
    database, unless the store refuses the transaction. *)
Definition session_commit : M () :=
  λ w, let w1 := log_call CCommit w in
       match commit_error w1 with
       | None => (Ok (), set_committed (working w1) w1)
       | Some msg => (Raise (SQLAlchemyError msg), w1)
       end.

(** [session.rollback()] *)
Definition session_rollback : M () :=
  λ w, let w1 := log_call CRollback w in (Ok (), set_working (committed w1) w1).

(** A fresh session on the destination, as [Bridge(app_name=...)] opens
    it: it sees the committed database. *)
Definition open_session : M () := λ w, (Ok (), set_working (committed w) w).

(** ** The import classes *)

Inductive ImportClass := ChannelImport | NoVersionChannelImport.

Global Instance ImportClass_eq_dec : EqDecision ImportClass.
Proof. solve_decision. Defined.

(** An instance of an import class.  [dest_columns model] is
    [destination.get_class(model).__table__.columns.items()]. *)
Record ImportManager := {
  import_class : ImportClass;
  channel_id : value;
  channel_version : value;
  source : Source;
  dest_columns : Model → list (string * Column);
  content_models : list Model;
  tree_id : Z;
}.

(** One entry of a [schema_mapping]. *)
Record Mapping := {
  per_row : option (gmap string string);
  per_table : option string;
}.

(** The sequence a table mapper hands to the [for] loop of
    [table_import]: a list, or a generator, which yields its rows one at
    a time and may raise instead of yielding the next. *)
Inductive RowStream :=
  | SNil
  | SCons (record : Row) (rest : RowStream)
  | SRaise (e : exn).

Fixpoint stream_of_list (rows : list Row) : RowStream :=
  match rows with
  | [] => SNil
  | r :: rows' => SCons r (stream_of_list rows')
  end.

(** The rows a stream yields before it ends or raises. *)
Fixpoint stream_rows (s : RowStream) : list Row :=
  match s with
  | SCons r s' => r :: stream_rows s'
  | _ => []
  end.

Fixpoint stream_error (s : RowStream) : option exn :=
  match s with
  | SNil => None
  | SCons _ s' => stream_error s'
  | SRaise e => Some e
  end.

(** [int(x)] on the values a schema version can be: an integer, or a
    string of decimal digits with an optional sign (ValueError
    otherwise); TypeError on [None] and on another object. *)
Definition digit_of (c : Ascii.ascii) : option Z :=
  let n := Z.of_nat (Ascii.nat_of_ascii c) in
  if (48 <=? n) && (n <=? 57) then Some (n - 48) else None.

Fixpoint parse_digits (s : string) (acc : Z) : option Z :=
  match s with
  | EmptyString => Some acc
  | String c s' => d ← digit_of c; parse_digits s' (10 * acc + d)
  end.

Definition parse_int (s : string) : option Z :=
  match s with
  | EmptyString => None
  | String c (String _ _ as s') =>
    if Ascii.eqb c (Ascii.ascii_of_nat 45) then Z.opp <$> parse_digits s' 0
    else if Ascii.eqb c (Ascii.ascii_of_nat 43) then parse_digits s' 0
    else parse_digits s 0
  | _ => parse_digits s 0
  end.

Definition py_int (v : value) : Result Z :=
  match v with
  | VInt n => Ok n
  | VStr s => match parse_int s with Some n => Ok n | None => Raise ValueError end
  | VNone | VObject _ => Raise (TypeError "int() argument must be a string or a number")
  end.

(** [record.name]: AttributeError without that attribute. *)
Definition getattr_strict (record : Row) (name : string) : M value :=
  match record !! name with
  | Some v => mret v
  | None => raise (AttributeError name)
  end.

Definition is_SQLAlchemyError (e : exn) : bool :=
  match e with SQLAlchemyError _ => true | _ => false end.
Definition is_ClassNotFoundError (e : exn) : bool :=
  match e with ClassNotFoundError => true | _ => false end.
Definition is_KeyError (e : exn) : bool :=
  match e with KeyError => true | _ => false end.
Definition is_ValueError (e : exn) : bool :=
  match e with ValueError => true | _ => false end.

Section ChannelImport.

(** The schema version constants of [kolibri.content.models]. *)
Variables V020BETA1 V040BETA3 NO_VERSION VERSION_1 VERSION_2 : string.
Variable CONTENT_SCHEMA_VERSION : string.

(** [ChannelImport.schema_mapping] and [NoVersionChannelImport.schema_mapping].
    [File._meta.get_field('local_file').attname] is the foreign key's
    column, [local_file_id];
    [ChannelMetadata._meta.get_field('min_schema_version').attname] is
    [min_schema_version]. *)
Definition schema_mapping (c : ImportClass) (model : Model) : option Mapping :=
  match c, model with
  | ChannelImport, ContentNode =>
    Some {| per_row := Some {[ "tree_id" := "get_tree_id" ]}; per_table := None |}
  | ChannelImport, _ => None
  | NoVersionChannelImport, ContentNode =>
    Some {| per_row := Some (list_to_map [
              ("channel_id", "infer_channel_id_from_source");
              ("tree_id", "get_tree_id");
              ("available", "get_none");
              ("license_name", "get_license_name");
              ("license_description", "get_license_description") ]);
            per_table := None |}
  | NoVersionChannelImport, File =>
    Some {| per_row := Some (list_to_map [
              ("local_file_id", "checksum");
              ("available", "get_none") ]);
            per_table := None |}
  | NoVersionChannelImport, LocalFile =>
    Some {| per_row := Some (list_to_map [
              ("id", "checksum");
              ("extension", "extension");
              ("file_size", "file_size");
              ("available", "get_none") ]);
            per_table := Some "generate_local_file_from_file" |}
  | NoVersionChannelImport, ChannelMetadata =>
    Some {| per_row := Some (list_to_map [
              ("min_schema_version", "set_version_to_no_version");
              ("root_id", "root_pk") ]);
            per_table := None |}
  | NoVersionChannelImport, _ => None
  end.

(** [schema_mapping.get(model, {})] followed by [.get('per_row')] and
    [.get('per_table')]. *)
Definition mapping_per_row (c : ImportClass) (model : Model) : option (gmap string string) :=
  match schema_mapping c model with Some mp => per_row mp | None => None end.
Definition mapping_per_table (c : ImportClass) (model : Model) : option string :=
  match schema_mapping c model with Some mp => per_table mp | None => None end.

Definition get_tree_id (self : ImportManager) (source_object : Row) : M value :=
  mret (VInt (tree_id self)).

Definition row_tree_id (row : Row) : option Z :=
  match row !! "tree_id" with
  | Some (VInt n) => Some n
  | _ => None
  end.

(** [sorted(... query(ContentNodeRecord.tree_id).distinct().all())] on
    the destination session. *)
Definition get_all_destination_tree_ids : M (list Z) :=
  gets (λ w, merge_sort Z.le (remove_dups (omap row_tree_id (table (working w) ContentNode)))).

Definition find_unique_tree_id : M Z :=
  tree_ids ← get_all_destination_tree_ids;
  match find_unique_tree_id_from tree_ids with
  | Some r => mret r
  | None => raise IndexError
  end.

(** [__init__]: the two bridges are opened and the tree id is allocated;
    [NoVersionChannelImport] inherits it. *)
Definition ChannelImport_init (c : ImportClass) (channel_id channel_version : value)
    (source : Source) (dest_columns : Model → list (string * Column))
    (content_models : list Model) : M ImportManager :=
  open_session;;
  tree_id ← find_unique_tree_id;
  mret {| import_class := c; channel_id := channel_id;
          channel_version := channel_version; source := source;
          dest_columns := dest_columns; content_models := content_models;
          tree_id := tree_id |}.

(** *** The procedures of [NoVersionChannelImport] *)

Definition get_none (self : ImportManager) (source_object : Row) : M value :=
  mret VNone.

Definition infer_channel_id_from_source (self : ImportManager) (source_object : Row) : M value :=
  mret (channel_id self).

Definition set_version_to_no_version (self : ImportManager) (source_object : Row) : M value :=
  mret (VStr NO_VERSION).

(** [self.licenses] is the dict of the class: [licenses] of the world. *)
Definition get_license (self : ImportManager) (SourceRecord : Row) : M (option Row) :=
  license_id ← getattr_strict SourceRecord "license_id";
  if negb (truthy license_id) then mret None
  else
    cached ← gets (λ w, licenses w !! license_id);
    match cached with
    | None =>
      LicenseRecord ← lift (source_get_class (source self) License);
      let license := source_query_get (source self) LicenseRecord license_id in
      modify (log_license_query license_id);;
      modify (set_license license_id license)
    | Some _ => mret ()
    end;;
    cached ← gets (λ w, licenses w !! license_id);
    match cached with
    | Some license => mret license
    | None => raise KeyError
    end.

Definition get_license_name (self : ImportManager) (SourceRecord : Row) : M value :=
  license ← get_license self SourceRecord;
  match license with
  | None => mret VNone
  | Some l => getattr_strict l "license_name"
  end.

Definition get_license_description (self : ImportManager) (SourceRecord : Row) : M value :=
  license ← get_license self SourceRecord;
  match license with
  | None => mret VNone
  | Some l => getattr_strict l "license_description"
  end.

Fixpoint assoc {A} (name : string) (l : list (string * A)) : option A :=
  match l with
  | [] => None
  | (n, a) :: l' => if String.eqb n name then Some a else assoc name l'
  end.

(** *** The attributes of an import object

    [hasattr(self, name)] and [getattr(self, name)(record)], for every
    attribute this module gives the object: the attributes [__init__]
    sets, the class attributes and the methods, each with what calling
    it with a record does.
    - A data attribute is not callable: TypeError.
    - A method that takes no argument besides [self], or more than one,
      raises TypeError when it is handed the record.
    - [generate_row_mapper(record)] and
      [generate_local_file_from_file(record)] return a function and a
      generator, without running anything; [get_license(record)] returns
      the license record, or [None].
    - [generate_table_mapper(record)] reaches [hasattr(self, record)],
      a TypeError; [base_table_mapper(record)] asks the source session to
      query an instance, which SQLAlchemy refuses.
    The attributes Python gives every object, whose names begin and end
    with two underscores ([__init__] among them), are not in the table:
    a rule names a column or a procedure. *)
Definition not_callable (type_name : string) (record : Row) : M value :=
  raise (TypeError ("'" +:+ type_name +:+ "' object is not callable")).

Definition takes_no_record (msg : string) (record : Row) : M value :=
  raise (TypeError msg).

Definition returns_object (type_name : string) (record : Row) : M value :=
  mret (VObject type_name).

Definition ChannelImport_attributes (self : ImportManager) : list (string * (Row → M value)) :=
  [ ("channel_id", not_callable (type_name_of (channel_id self)));
    ("channel_version", not_callable (type_name_of (channel_version self)));
    ("source", not_callable "Bridge");
    ("destination", not_callable "Bridge");
    ("content_models", not_callable "list");
    ("tree_id", not_callable "int");
    ("schema_mapping", not_callable "dict");
    ("get_tree_id", get_tree_id self);
    ("get_all_destination_tree_ids",
     takes_no_record
       "get_all_destination_tree_ids() takes 1 positional argument but 2 were given");
    ("find_unique_tree_id",
     takes_no_record "find_unique_tree_id() takes 1 positional argument but 2 were given");
    ("generate_row_mapper", returns_object "function");
    ("base_table_mapper", λ _, raise (SQLAlchemyError "InvalidRequestError"));
    ("generate_table_mapper",
     takes_no_record "hasattr(): attribute name must be string");
    ("table_import",
     takes_no_record "table_import() missing 3 required positional arguments");
    ("import_channel_data",
     takes_no_record "import_channel_data() takes 1 positional argument but 2 were given");
    ("end", takes_no_record "end() takes 1 positional argument but 2 were given") ].

Definition NoVersionChannelImport_attributes (self : ImportManager)
    : list (string * (Row → M value)) :=
  [ ("licenses", not_callable "dict");
    ("get_none", get_none self);
    ("infer_channel_id_from_source", infer_channel_id_from_source self);
    ("generate_local_file_from_file", returns_object "generator");
    ("set_version_to_no_version", set_version_to_no_version self);
    ("get_license",
     λ record,
       license ← get_license self record;
       mret (match license with
             | Some _ => VObject "License"
             | None => VNone
             end));
    ("get_license_name", get_license_name self);
    ("get_license_description", get_license_description self) ].

(** The attributes of an instance: those of its class and those the
    class inherits. *)
Definition attributes (self : ImportManager) : list (string * (Row → M value)) :=
  match import_class self with
  | ChannelImport => ChannelImport_attributes self
  | NoVersionChannelImport =>
    NoVersionChannelImport_attributes self ++ ChannelImport_attributes self
  end.

(** [getattr(self, col_map)] for a column rule, [None] when
    [hasattr(self, col_map)] is false. *)
Definition getattr_self (self : ImportManager) (name : string) : option (Row → M value) :=
  assoc name (attributes self).

Definition generate_row_mapper (self : ImportManager)
    (mappings : option (gmap string string)) : Row → string → M value :=
  let mappings := default ∅ mappings in
  λ record column,
    match mappings !! column with
    | Some col_map =>
      match record !! col_map with
      | Some v => mret v
      | None =>
        match getattr_self self col_map with
        | Some method => method record
        | None =>
          raise (AttributeError
                   "Column mapping specified but no valid column name or method found")
        end
      end
    | None => mret (getattr_default record column)
    end.

(** *** Table mappers *)

(** [SourceRecord] is the source's class of the model, or [None]. *)
Definition base_table_mapper (self : ImportManager) (SourceRecord : option Model) : RowStream :=
  match SourceRecord with
  | Some cls => stream_of_list (source_query_all (source self) cls)
  | None => SNil
  end.

(** The loop of [generate_local_file_from_file] over the File records,
    with the set [checksum_record] of the checksums seen. *)
Fixpoint local_file_records (records : list Row) (checksum_record : gset value) : RowStream :=
  match records with
  | [] => SNil
  | record :: rest =>
    match record !! "checksum" with
    | None => SRaise (AttributeError "checksum")
    | Some checksum =>
      if decide (checksum ∉ checksum_record)
      then SCons record (local_file_records rest ({[checksum]} ∪ checksum_record))
      else local_file_records rest checksum_record
    end
  end.

(** The generator: its argument is ignored, the rows come from the
    source's File table. *)
Definition generate_local_file_from_file (self : ImportManager)
    (SourceRecord : option Model) : RowStream :=
  match source_get_class (source self) File with
  | Raise e => SRaise e
  | Ok SourceRecord => local_file_records (source_query_all (source self) SourceRecord) ∅
  end.

(** [getattr(self, table_map)] for a table rule: the table procedures
    of the class, which are the only names the schema mappings use.  A
    table rule that names another attribute of the object (the code would
    call it with the source class and iterate over what it returns) is
    not modelled. *)
Definition getattr_self_table (self : ImportManager) (name : string)
    : option (option Model → RowStream) :=
  match import_class self with
  | ChannelImport => assoc name [("base_table_mapper", base_table_mapper self)]
  | NoVersionChannelImport =>
    assoc name [
      ("base_table_mapper", base_table_mapper self);
      ("generate_local_file_from_file", generate_local_file_from_file self) ]
  end.

Definition generate_table_mapper (self : ImportManager) (table_map : option string)
    : M (option Model → RowStream) :=
  match table_map with
  | None => mret (base_table_mapper self)
  | Some table_map =>
    match getattr_self_table self table_map with
    | Some method => mret method
    | None => raise (AttributeError "Table mapping specified but no valid method found")
    end
  end.

(** *** [table_import] *)

(** The dict comprehension
    [{str(column): row_mapper(record, column) for column in columns
      if row_mapper(record, column) is not None}]:
    the mapper is called for the condition and again for the value. *)
Fixpoint map_row (row_mapper : Row → string → M value) (record : Row)
    (columns : list string) (data : Row) : M Row :=
  match columns with
  | [] => mret data
  | column :: rest =>
    v ← row_mapper record column;
    if decide (v = VNone) then map_row row_mapper record rest data
    else
      v' ← row_mapper record column;
      map_row row_mapper record rest (<[column := v']> data)
  end.

(** The [for record in table_mapper(SourceRecord)] loop, on the pair of
    its variables [data_to_insert] and [unflushed_rows]. *)
Fixpoint table_import_rows (cols : list (string * Column)) (model : Model) (merge : bool)
    (row_mapper : Row → string → M value) (columns : list string)
    (records : RowStream) (data_to_insert : list Row) (unflushed_rows : Z)
    : M (list Row * Z) :=
  match records with
  | SNil => mret (data_to_insert, unflushed_rows)
  | SRaise e => raise e
  | SCons record rest =>
    data ← map_row row_mapper record columns ∅;
    data_to_insert ←
      (if merge then session_merge cols model data;; mret data_to_insert
       else mret (data_to_insert ++ [data]));
    let unflushed_rows := unflushed_rows + 1 in
    if unflushed_rows =? 10000 then
      data_to_insert ←
        (if negb merge then bulk_insert_mappings cols model data_to_insert;; mret []
         else mret data_to_insert);
      session_flush;;
      table_import_rows cols model merge row_mapper columns rest data_to_insert 0
    else
      table_import_rows cols model merge row_mapper columns rest data_to_insert unflushed_rows
  end.

Definition dest_writable_columns (cols : list (string * Column)) : list string :=
  (filter (λ nc, column_not_auto_integer_pk nc.2 = true) cols).*1.

Definition table_import (self : ImportManager) (model : Model)
    (row_mapper : Row → string → M value)
    (table_mapper : option Model → RowStream) (unflushed_rows : Z) : M Z :=
  let dest_table := dest_columns self model in
  SourceRecord ← try_except (cls ← lift (source_get_class (source self) model); mret (Some cls))
                   is_ClassNotFoundError (λ _, mret None);
  let columns := dest_writable_columns dest_table in
  let merge := bool_decide (model ∈ merge_models) in
  '(data_to_insert, unflushed_rows) ←
    table_import_rows dest_table model merge row_mapper columns
      (table_mapper SourceRecord) [] unflushed_rows;
  if negb merge && negb (bool_decide (data_to_insert = [])) then
    bulk_insert_mappings dest_table model data_to_insert;;
    mret unflushed_rows
  else mret unflushed_rows.

(** *** [import_channel_data] *)

(** The [for model in self.content_models] loop. *)
Fixpoint import_models (self : ImportManager) (models : list Model) (unflushed_rows : Z) : M Z :=
  match models with
  | [] => mret unflushed_rows
  | model :: rest =>
    let row_mapper := generate_row_mapper self (mapping_per_row (import_class self) model) in
    table_mapper ← generate_table_mapper self (mapping_per_table (import_class self) model);
    unflushed_rows ← table_import self model row_mapper table_mapper unflushed_rows;
    import_models self rest unflushed_rows
  end.

(** The [try] block. *)
Definition import_channel_data_try (self : ImportManager) : M () :=
  import_models self (content_models self) 0;;
  session_commit.

Definition import_channel_data (self : ImportManager) : M () :=
  try_except (import_channel_data_try self)
    is_SQLAlchemyError
    (λ e, session_rollback;; raise e).

(** *** [initialize_import_manager] *)

(** The dict [mappings], built in the order of its literal. *)
Definition mappings : gmap string ImportClass :=
  <[VERSION_2 := ChannelImport]>
  (<[VERSION_1 := ChannelImport]>
  (<[NO_VERSION := NoVersionChannelImport]>
  (<[V040BETA3 := NoVersionChannelImport]>
  (<[V020BETA1 := NoVersionChannelImport]> ∅)))).

(** [mappings.get(min_version)]: [None] for a missing key, no
    exception. *)
Definition mappings_get (min_version : value) : option ImportClass :=
  match min_version with
  | VStr s => mappings !! s
  | _ => None
  end.

(** [channel_metadata] is what [read_channel_metadata_from_db_file]
    returned.  The default of the outer [getattr] is evaluated first.
    When the handler of KeyError ends without raising, [ImportClass] is
    unbound at the [return]. *)
Definition initialize_import_manager (channel_metadata : Row) (channel_id : value)
    (source : Source) (dest_columns : Model → list (string * Column))
    (content_models : list Model) : M ImportManager :=
  inferred ← getattr_strict channel_metadata "inferred_schema_version";
  let min_version := default inferred (channel_metadata !! "min_schema_version") in
  ImportClass ←
    try_except (mret (mappings_get min_version))
      is_KeyError
      (λ _,
        try_except
          (version_number ← lift (py_int min_version);
           current ← lift (py_int (VStr CONTENT_SCHEMA_VERSION));
           if version_number >? current then
             raise (FutureSchemaError min_version)
           else
             current ← lift (py_int (VStr CONTENT_SCHEMA_VERSION));
             if version_number <? current then
               raise (InvalidSchemaVersionError
                        "Tried to import unsupported schema version" min_version)
             else raise UnboundLocalError)
          is_ValueError
          (λ _, raise (InvalidSchemaVersionError
                         "Tried to import invalid schema version" min_version)));
  version ← getattr_strict channel_metadata "version";
  match ImportClass with
  | Some cls => ChannelImport_init cls channel_id version source dest_columns content_models
  | None => raise (TypeError "'NoneType' object is not callable")
  end.

End ChannelImport.

(** ** Reading the call log *)

(** The sizes of the bulk inserts among the calls [cs]. *)
Definition bulk_sizes (cs : list Call) : list nat :=
  omap (λ c, match c with CBulkInsert _ rows => Some (length rows) | _ => None end) cs.

(** The rows bulk-inserted by the calls [cs], in order. *)
Definition bulk_rows (cs : list Call) : list Row :=
  cs ≫= (λ c, match c with CBulkInsert _ rows => rows | _ => [] end).

(** The rows merged by the calls [cs], in order. *)
Definition merged_rows (cs : list Call) : list Row :=
  cs ≫= (λ c, match c with CMerge _ data => [data] | _ => [] end).

(** The rows the destination received through [cs], merged or inserted. *)
Definition rows_received (cs : list Call) : list Row :=
  cs ≫= (λ c, match c with
               | CMerge _ data => [data]
               | CBulkInsert _ rows => rows
               | _ => []
               end).

Definition is_bulk_or_flush (model : Model) (c : Call) : Prop :=
  c = CFlush ∨ ∃ rows, c = CBulkInsert model rows.

Definition is_merge_or_flush (model : Model) (c : Call) : Prop :=
  c = CFlush ∨ ∃ data, c = CMerge model data.

(** The calls that write rows or flush them; the other two end the
    transaction. *)
Definition is_write_call (c : Call) : Prop :=
  match c with
  | CMerge _ _ | CBulkInsert _ _ | CFlush => True
  | CCommit | CRollback => False
  end.

(** The session has received calls that write, and no other. *)
Definition writes_only : relation World :=
  λ w w', ∃ cs, calls w' = calls w ++ cs ∧ Forall is_write_call cs.

(** A call of the destination session about the model [model]. *)
Definition is_call_of (model : Model) (c : Call) : Prop :=
  is_merge_or_flush model c ∨ is_bulk_or_flush model c.

(** The computation raises no exception outside [P]. *)
Definition raises_only {A} (P : exn → Prop) (c : M A) : Prop :=
  ∀ w e w', c w = (Raise e, w') → P e.

(** Every run of the computation [c], whatever it returns or raises,
    takes a world to one that is [R]-related to it. *)
Definition respects {A} (R : relation World) (c : M A) : Prop :=
  ∀ w, R w (c w).2.

(** The part [f] of the world is the same in both worlds. *)
Definition same {X} (f : World → X) : relation World :=
  λ w w', f w' = f w.

(** The property [P] of the world is kept. *)
Definition keeps (P : World → Prop) : relation World :=
  λ w w', P w → P w'.

(** A computation leaves the part [f] of the world as it finds it. *)
Definition preserves {X A} (f : World → X) (c : M A) : Prop :=
  respects (same f) c.

(** The license cache and the queries of the License table: no id has
    been queried twice, and every id that has been queried is cached. *)
Definition license_cache_inv (w : World) : Prop :=
  NoDup (license_queries w) ∧
  ∀ license_id, license_id ∈ license_queries w → is_Some (licenses w !! license_id).

(** What a computation may do with the license cache and the License
    table: the licenses that were cached stay as they are, and the ids it
    queries are pairwise distinct, were not cached before and are cached
    afterwards. *)
Definition license_lookups : relation World := λ w w',
  (∀ license_id license, licenses w !! license_id = Some license →
                         licenses w' !! license_id = Some license) ∧
  ∃ queried, license_queries w' = license_queries w ++ queried ∧ NoDup queried ∧
    ∀ license_id, license_id ∈ queried →
      licenses w !! license_id = None ∧ is_Some (licenses w' !! license_id).

(** The field [field] of a cached license; [None] when the source has
    no license of the id. *)
Definition license_field (license : option Row) (field : string) : value :=
  match license with
  | Some l => getattr_default l field
  | None => VNone
  end.

(** How many rows of table [m] have the identity [k]. *)
Definition identity_count (cols : list (string * Column)) (m : Model) (k : list value)
    (db : DB) : nat :=
  length (filter (has_identity cols m k) db).

(** The class of the source for a model, as [table_import] computes it:
    [None] when the source does not have the table. *)
Definition source_record (src : Source) (model : Model) : option Model :=
  match source_lookup src model with
  | Some _ => Some model
  | None => None
  end.

(** The stream [import_channel_data] reads for a model: what the
    table mapper of the model's rule makes of the source ([None] when the
    rule names no table procedure). *)
Definition model_stream (self : ImportManager) (model : Model) : option RowStream :=
  match mapping_per_table (import_class self) model with
  | None => Some (base_table_mapper self (source_record (source self) model))
  | Some table_map =>
    match getattr_self_table self table_map with
    | Some method => Some (method (source_record (source self) model))
    | None => None
    end
  end.

(** The number of rows the streams of the models yield. *)
Definition total_rows (self : ImportManager) (models : list Model) : nat :=
  sum_list ((λ model, length (stream_rows (default SNil (model_stream self model)))) <$> models).

(** ** Predicates of the specification *)

(** A strictly ascending list of ids. *)
Definition ascending (ids : list Z) : Prop :=
  ∀ (i j : nat) x y, ids !! i = Some x → ids !! j = Some y → (i < j)%nat → x < y.

(** What [find_hole_in_list] computes: with [k] the last index of the
    longest run of consecutive integers that starts the list, the
    result is the integer right after that run. *)
Definition first_hole_after_head (ids : list Z) (r : Z) : Prop :=
  ∃ (k : nat) h, ids !! 0%nat = Some h ∧ (k < length ids)%nat ∧
    (∀ i : nat, (i ≤ k)%nat → ids !! i = Some (h + Z.of_nat i)) ∧
    r = h + Z.of_nat k + 1 ∧
    (∀ x, ids !! S k = Some x → r < x).

(** The least positive integer absent from a list. *)
Definition least_unused (ids : list Z) (r : Z) : Prop :=
  0 < r ∧ (r ∉ ids) ∧ (∀ z, 0 < z ∧ z < r → z ∈ ids).

(** The mappers change neither the destination nor its call log. *)
Definition mapper_keeps_store (row_mapper : Row → string → M value) : Prop :=
  ∀ record column,
    preserves calls (row_mapper record column) ∧
    preserves working (row_mapper record column) ∧
    preserves committed (row_mapper record column).

(** The computed procedures of an import class: its methods that take
    the source row and return the value of a column. *)
Definition row_procedures (NO_VERSION : string) (self : ImportManager)
    : list (string * (Row → M value)) :=
  match import_class self with
  | ChannelImport => [("get_tree_id", get_tree_id self)]
  | NoVersionChannelImport =>
    [("get_tree_id", get_tree_id self);
     ("get_none", get_none self);
     ("infer_channel_id_from_source", infer_channel_id_from_source self);
     ("set_version_to_no_version", set_version_to_no_version NO_VERSION self);
     ("get_license_name", get_license_name self);
     ("get_license_description", get_license_description self)]
  end.

(** The attributes of an import object that hold data. *)
Definition data_attributes (c : ImportClass) : list string :=
  ["channel_id"; "channel_version"; "source"; "destination"; "content_models";
   "tree_id"; "schema_mapping"]
  ++ match c with ChannelImport => [] | NoVersionChannelImport => ["licenses"] end.

(** Its methods that are no computed procedure. *)
Definition other_methods (c : ImportClass) : list string :=
  ["get_all_destination_tree_ids"; "find_unique_tree_id"; "generate_row_mapper";
   "base_table_mapper"; "generate_table_mapper"; "table_import"; "import_channel_data";
   "end"]
  ++ match c with
     | ChannelImport => []
     | NoVersionChannelImport => ["generate_local_file_from_file"; "get_license"]
     end.

(** The error of a rule that names nothing. *)
Definition InvalidMappingConfiguration : exn :=
  AttributeError "Column mapping specified but no valid column name or method found".


(** A surrogate key: an auto-incrementing integer primary key. *)
Definition auto_integer_pk (col : Column) : Prop :=
  autoincrement col = AutoincAuto ∧ primary_key col = true ∧ python_type col = PyInt.


(** The calls that apply a batch of rows of an entity type: one merge
    per row for a merge-designated type, one bulk insert of the whole
    batch otherwise (none for no row). *)
Definition write_calls (model : Model) (merge : bool) (batch : list Row) : list Call :=
  if merge then CMerge model <$> batch
  else match batch with
       | [] => []
       | _ => [CBulkInsert model batch]
       end.

(** Flush batching of the rows [datas] of one entity type, with the
    counter at [u] when the type begins: the rows are cut into batches,
    the first of which ends when the counter reaches 10,000 and the
    others after 10,000 rows each; every batch is applied and followed by
    a flush; the rows that remain when the stream ends are applied
    without a flush, and their number is the counter [u'] that is handed
    on (added to [u] when no batch was completed). *)
Definition flushed_in_batches (model : Model) (merge : bool) (u : Z) (datas : list Row)
    (cs : list Call) (u' : Z) : Prop :=
  ∃ (full : list (list Row)) (rest : list Row),
    datas = concat full ++ rest ∧
    match full with
    | [] => u' = u + Z.of_nat (length rest)
    | first :: others =>
      Z.of_nat (length first) = 10000 - u ∧
      Forall (λ batch, Z.of_nat (length batch) = 10000) others ∧
      u' = Z.of_nat (length rest)
    end ∧
    u' < 10000 ∧
    cs = concat ((λ batch, write_calls model merge batch ++ [CFlush]) <$> full)
         ++ write_calls model merge rest.


(** The rows [table_import] makes of the source rows of an entity type:
    the rows of the type's stream, mapped one by one, in order. *)
Definition mapped_rows (NO_VERSION : string) (self : ImportManager) (model : Model)
    (datas : list Row) : Prop :=
  Forall2 (λ record data, ∃ w1 w2,
      map_row (generate_row_mapper NO_VERSION self (mapping_per_row (import_class self) model))
        record (dest_writable_columns (dest_columns self model)) ∅ w1 = (Ok data, w2))
    (stream_rows (default SNil (model_stream self model))) datas.

(** Flush batching of a whole import: the calls are one block per entity
    type, each the batches of the mapped rows of its type, and the
    counter an entity type is handed is the one the type before it
    left. *)
Fixpoint imported_in_batches (NO_VERSION : string) (self : ImportManager)
    (models : list Model) (u : Z) (blocks : list (list Call)) (u' : Z) : Prop :=
  match models, blocks with
  | [], [] => u' = u
  | model :: models, cs :: blocks =>
    ∃ datas u1,
      mapped_rows NO_VERSION self model datas ∧
      flushed_in_batches model (bool_decide (model ∈ merge_models)) u datas cs u1 ∧
      imported_in_batches NO_VERSION self models u1 blocks u'
  | _, _ => False
  end.

(** ** Example data *)

Module Examples.

Definition column (pk : bool) (t : PythonType) : Column :=
  {| autoincrement := AutoincAuto; primary_key := pk; python_type := t |}.

(** A destination schema: string keys on the content models, an
    auto-incrementing integer key on the many-to-many tables. *)
Definition dest_schema (m : Model) : list (string * Column) :=
  match m with
  | ContentNode =>
    [("id", column true PyStr); ("title", column false PyStr);
     ("tree_id", column false PyInt); ("license_name", column false PyStr)]
  | Language => [("id", column true PyStr); ("lang_name", column false PyStr)]
  | File =>
    [("id", column true PyStr); ("local_file_id", column false PyStr);
     ("available", column false PyBool)]
  | LocalFile =>
    [("id", column true PyStr); ("extension", column false PyStr);
     ("file_size", column false PyInt); ("available", column false PyBool)]
  | OtherModel _ =>
    [("id", column true PyInt); ("contentnode_id", column false PyStr);
     ("contenttag_id", column false PyStr)]
  | _ => [("id", column true PyStr)]
  end.

Definition row (l : list (string * value)) : Row := list_to_map l.

Definition empty_world : World :=
  {| committed := []; working := []; calls := []; licenses := ∅; license_queries := [];
     commit_error := None |}.

Definition world_of (db : DB) : World :=
  {| committed := db; working := db; calls := []; licenses := ∅; license_queries := [];
     commit_error := None |}.

Definition manager (c : ImportClass) (src : Source) (models : list Model) (t : Z)
    : ImportManager :=
  {| import_class := c; channel_id := VStr "c1"; channel_version := VInt 1;
     source := src; dest_columns := dest_schema; content_models := models;
     tree_id := t |}.

(** A current-schema snapshot: a language, two nodes (one without a
    title), two files. *)
Definition snapshot : Source :=
  [(Language, [row [("id", VStr "en"); ("lang_name", VStr "English")]]);
   (ContentNode,
    [row [("id", VStr "n1"); ("title", VStr "A"); ("tree_id", VInt 1)];
     row [("id", VStr "n2"); ("title", VNone); ("tree_id", VInt 1)]]);
   (File,
    [row [("id", VStr "f1"); ("local_file_id", VStr "abc"); ("available", VInt 0)];
     row [("id", VStr "f2"); ("local_file_id", VStr "abc"); ("available", VInt 0)]])].

(** A destination that already has the node [n1], in tree 1. *)
Definition db_with_n1 : DB :=
  [(Language, row [("id", VStr "en"); ("lang_name", VStr "Anglais")]);
   (ContentNode, row [("id", VStr "n1"); ("title", VStr "Old"); ("tree_id", VInt 1)])].

(** An old snapshot whose File table has no [checksum] column. *)
Definition snapshot_without_checksum : Source :=
  [(Language, [row [("id", VStr "en"); ("lang_name", VStr "English")]]);
   (File, [row [("id", VStr "f1"); ("extension", VStr "mp4")]])].

(** Two old snapshots that number their licenses differently. *)
Definition old_snapshot_a : Source :=
  [(ContentNode, [row [("id", VStr "a1"); ("title", VStr "A"); ("license_id", VInt 1)]]);
   (License, [row [("id", VInt 1); ("license_name", VStr "CC BY")]])].

Definition old_snapshot_b : Source :=
  [(ContentNode, [row [("id", VStr "b1"); ("title", VStr "B"); ("license_id", VInt 1)]]);
   (License, [row [("id", VInt 1); ("license_name", VStr "All Rights Reserved")]])].

(** An old snapshot with three File rows, two of one checksum. *)
Definition file_rows : list Row :=
  [row [("id", VStr "f1"); ("checksum", VStr "abc"); ("extension", VStr "mp4")];
   row [("id", VStr "f2"); ("checksum", VStr "def"); ("extension", VStr "pdf")];
   row [("id", VStr "f3"); ("checksum", VStr "abc"); ("extension", VStr "mp4")]].

Definition old_snapshot_files : Source := [(File, file_rows)].

(** A table of 10,001 rows of a many-to-many model. *)
Definition tag_rows : list Row :=
  replicate (Z.to_nat 10001) (row [("contentnode_id", VStr "n1"); ("contenttag_id", VStr "t1")]).

Definition many_tags : Source := [(OtherModel "content_contentnode_tags", tag_rows)].

(** One import after [__init__], from the world [w]. *)
Definition run_import (NO_VERSION : string) (c : ImportClass) (src : Source)
    (models : list Model) : M () :=
  self ← ChannelImport_init c (VStr "c1") (VInt 1) src dest_schema models;
  import_channel_data NO_VERSION self.

End Examples.

(** * Properties *)

(** ** The tree id allocator *)

Example tree_id_nil : find_unique_tree_id_from [] = Some 1.
Proof. reflexivity. Qed.
Example tree_id_1 : find_unique_tree_id_from [1] = Some 2.
Proof. reflexivity. Qed.
Example tree_id_2 : find_unique_tree_id_from [2] = Some 1.
Proof. reflexivity. Qed.
Example tree_id_123 : find_unique_tree_id_from [1; 2; 3] = Some 4.
Proof. reflexivity. Qed.
Example tree_id_124 : find_unique_tree_id_from [1; 2; 4] = Some 3.
Proof. reflexivity. Qed.
Example tree_id_134 : find_unique_tree_id_from [1; 3; 4] = Some 2.
Proof. reflexivity. Qed.
Example tree_id_12356 : find_unique_tree_id_from [1; 2; 3; 5; 6] = Some 4.
Proof. reflexivity. Qed.
Example tree_id_23 : find_unique_tree_id_from [2; 3] = Some 4.
Proof. reflexivity. Qed.

(** *** Strictly ascending lists *)

Lemma StronglySorted_ascending ids : StronglySorted Z.lt ids → ascending ids.
Proof.
  induction 1 as [|a l Hs IH Hall]; intros i j x y Hi Hj Hlt.
  - by rewrite lookup_nil in Hi.
  - destruct j as [|j]; [lia|]. simpl in Hj.
    destruct i as [|i]; simpl in Hi.
    + injection Hi as <-. rewrite Forall_forall in Hall.
      apply Hall. by eapply list_elem_of_lookup_2.
    + eapply IH; eauto. lia.
Qed.

Lemma ascending_take n ids : ascending ids → ascending (take n ids).
Proof.
  intros Ha i j x y Hi Hj Hlt.
  apply lookup_take_Some in Hi as [Hi _]. apply lookup_take_Some in Hj as [Hj _].
  eauto.
Qed.

Lemma ascending_drop n ids : ascending ids → ascending (drop n ids).
Proof.
  intros Ha i j x y Hi Hj Hlt. rewrite lookup_drop in Hi, Hj.
  eapply Ha; eauto. lia.
Qed.

(** In an ascending list of integers the values grow at least as fast
    as the indices. *)
Lemma ascending_gap ids (d i : nat) x y :
  ascending ids → ids !! i = Some x → ids !! (i + d)%nat = Some y →
  Z.of_nat d ≤ y - x.
Proof.
  intros Ha. revert y. induction d as [|d IH]; intros y Hi Hj.
  - replace (i + 0)%nat with i in Hj by lia. simplify_eq. lia.
  - destruct (lookup_lt_is_Some_2 ids (i + d)) as [z Hz].
    { apply lookup_lt_Some in Hj. lia. }
    specialize (IH z Hi Hz).
    assert (z < y) by (eapply (Ha (i + d)%nat (i + S d)%nat); eauto; lia).
    lia.
Qed.

(** "No hole" between two positions: the values in between are
    consecutive. *)
Lemma ascending_no_hole ids (i j m : nat) x y :
  ascending ids → ids !! i = Some x → ids !! j = Some y → (i ≤ m ≤ j)%nat →
  y - x = Z.of_nat j - Z.of_nat i →
  ids !! m = Some (x + (Z.of_nat m - Z.of_nat i)).
Proof.
  intros Ha Hi Hj Hm Hgap.
  destruct (lookup_lt_is_Some_2 ids m) as [z Hz].
  { apply lookup_lt_Some in Hj. lia. }
  assert (Z.of_nat (m - i) ≤ z - x).
  { eapply (ascending_gap ids (m - i) i); eauto. by replace (i + (m - i))%nat with m by lia. }
  assert (Z.of_nat (j - m) ≤ y - z).
  { eapply (ascending_gap ids (j - m) m); eauto. by replace (m + (j - m))%nat with j by lia. }
  rewrite Hz. f_equal. lia.
Qed.

Lemma find_hole_in_list_spec fuel ids :
  ascending ids → (2 ≤ length ids ≤ fuel)%nat →
  ∃ r, find_hole_in_list fuel ids = Some r ∧ first_hole_after_head ids r.
Proof.
  revert ids. induction fuel as [|fuel IH]; intros ids Ha [Hlen Hfuel]; [lia|].
  cbn [find_hole_in_list].
  set (last := (length ids - 1)%nat).
  set (middle := (last / 2 + 1)%nat).
  assert (Hmid : (1 ≤ middle ≤ last)%nat).
  { subst middle. assert (1 ≤ last)%nat by (subst last; lia).
    pose proof (Nat.div_lt last 2). pose proof (Nat.Div0.div_le_upper_bound last 2 last).
    split; [lia|]. destruct (decide (last = 1%nat)) as [->|]; [reflexivity|].
    assert (last / 2 < last)%nat by (apply Nat.div_lt; lia). lia. }
  destruct (lookup_lt_is_Some_2 ids middle) as [xm Hxm]; [subst last; lia|].
  destruct (lookup_lt_is_Some_2 ids 0) as [h Hh]; [lia|].
  destruct (lookup_lt_is_Some_2 ids last) as [xl Hxl]; [subst last; lia|].
  rewrite Hxm, Hh. cbn [mbind option_bind].
  pose proof (ascending_gap ids middle 0 h xm Ha Hh Hxm) as Hgm.
  destruct (Z.eqb_spec (xm - h) (Z.of_nat middle)) as [Heq|Hne]; cbn [negb].
  - (* the lower half has no hole *)
    rewrite Hxl. cbn [mbind option_bind].
    assert (Hlow : ∀ i : nat, (i ≤ middle)%nat → ids !! i = Some (h + Z.of_nat i)).
    { intros i Hi.
      rewrite (ascending_no_hole ids 0 middle i h xm Ha Hh Hxm) by lia.
      f_equal. lia. }
    assert (Hgl : Z.of_nat (last - middle) ≤ xl - xm).
    { eapply (ascending_gap ids (last - middle) middle); eauto.
      by replace (middle + (last - middle))%nat with last by lia. }
    destruct (Z.eqb_spec (xl - xm) (Z.of_nat last - Z.of_nat middle)) as [Heq2|Hne2];
      cbn [negb].
    + (* no hole at all: ids[-1] + 1 *)
      unfold index_neg1. rewrite last_lookup.
      replace (Nat.pred (length ids)) with last by (subst last; lia).
      rewrite Hxl. cbn [mbind option_bind]. eexists; split; [done|].
      exists last, h. split_and!; [done|subst last; lia| |..].
      * intros i Hi. destruct (decide (i ≤ middle)%nat) as [|Hgt]; [by apply Hlow|].
        rewrite (ascending_no_hole ids middle last i xm xl Ha Hxm Hxl) by lia.
        f_equal. lia.
      * lia.
      * intros x Hx. apply lookup_lt_Some in Hx. subst last. lia.
    + destruct (Z.eqb_spec (Z.of_nat last - Z.of_nat middle) 1) as [H1|Hn1].
      * (* the upper half is two ids *)
        eexists; split; [done|]. exists middle, h. split_and!; [done|lia|done|lia|].
        intros x Hx. replace (S middle) with last in Hx by lia. simplify_eq. lia.
      * (* recurse into ids[middle:] *)
        assert (last ≠ middle) as Hlm.
        { intros E. rewrite E, Hxm in Hxl. injection Hxl as <-. lia. }
        destruct (IH (drop middle ids)) as (r & Hr & k & h' & Hh' & Hk & Hrun & -> & Hnext).
        { by apply ascending_drop. }
        { rewrite length_drop. subst last. lia. }
        rewrite Hr. eexists; split; [done|].
        rewrite lookup_drop, Nat.add_0_r, Hxm in Hh'. injection Hh' as <-.
        rewrite length_drop in Hk.
        exists (middle + k)%nat, h. split_and!; [done|lia| |lia|].
        -- intros i Hi. destruct (decide (i ≤ middle)%nat) as [|Hgt]; [by apply Hlow|].
           specialize (Hrun (i - middle)%nat). rewrite lookup_drop in Hrun.
           replace (middle + (i - middle))%nat with i in Hrun by lia.
           rewrite Hrun by lia. f_equal. lia.
        -- intros x Hx. apply Hnext. rewrite lookup_drop.
           by replace (middle + S k)%nat with (S (middle + k)) by lia.
  - (* the lower half has a hole *)
    destruct (Nat.eqb_spec middle 1) as [H1|Hn1].
    + eexists; split; [done|]. exists 0%nat, h. split_and!; [done|lia| |lia|].
      * intros i Hi. replace i with 0%nat by lia. rewrite Hh. f_equal. lia.
      * intros x Hx. rewrite H1 in Hxm, Hne, Hgm. rewrite Hxm in Hx.
        injection Hx as <-. lia.
    + destruct (IH (take middle ids)) as (r & Hr & k & h' & Hh' & Hk & Hrun & -> & Hnext).
      { by apply ascending_take. }
      { rewrite length_take. lia. }
      rewrite Hr. eexists; split; [done|].
      apply lookup_take_Some in Hh' as [Hh' _]. rewrite Hh in Hh'. injection Hh' as <-.
      rewrite length_take in Hk.
      exists k, h. split_and!; [done|lia| |done|].
      * intros i Hi. specialize (Hrun i Hi). by apply lookup_take_Some in Hrun as [? _].
      * intros x Hx. destruct (decide (S k < middle)%nat) as [Hlt|Hge].
        -- apply Hnext. by rewrite lookup_take_lt.
        -- assert (S k = middle) as Hk' by lia.
           rewrite Hk', Hxm in Hx. injection Hx as <-.
           specialize (Hrun k (Nat.le_refl _)).
           apply lookup_take_Some in Hrun as [Hrun _].
           assert (h + Z.of_nat k < xm)
             by (eapply (Ha k middle); eauto; lia).
           lia.
Qed.

Lemma first_hole_after_head_unused ids r :
  ascending ids → first_hole_after_head ids r →
  ∃ h, ids !! 0%nat = Some h ∧ h < r ∧ (r ∉ ids) ∧ (∀ z, h ≤ z ∧ z < r → z ∈ ids).
Proof.
  intros Ha (k & h & Hh & Hk & Hrun & -> & Hnext).
  exists h. split_and!; [done|lia| |].
  - intros [j Hj]%list_elem_of_lookup_1.
    destruct (decide (j ≤ k)%nat) as [Hle|Hgt].
    + rewrite (Hrun j Hle) in Hj. injection Hj as Hj. lia.
    + destruct (lookup_lt_is_Some_2 ids (S k)) as [x Hx].
      { apply lookup_lt_Some in Hj. lia. }
      specialize (Hnext x Hx).
      destruct (decide (j = S k)) as [->|Hne].
      * rewrite Hx in Hj. injection Hj as ->. lia.
      * assert (x < h + Z.of_nat k + 1) by (eapply (Ha (S k) j); eauto; lia). lia.
  - intros z Hz. apply (list_elem_of_lookup_2 _ (Z.to_nat (z - h))).
    rewrite Hrun by lia. f_equal. lia.
Qed.

Lemma find_unique_tree_id_from_unused ids :
  StronglySorted Z.lt ids → Forall (λ x, 0 < x) ids →
  ∃ r, find_unique_tree_id_from ids = Some r ∧ 0 < r ∧ r ∉ ids.
Proof.
  intros Hs Hpos. destruct ids as [|a [|b ids]].
  - exists 1. split_and!; [done|lia|]. apply not_elem_of_nil.
  - cbn. destruct (Z.eqb_spec a 1) as [->|Hne].
    + exists 2. split_and!; [done|lia|]. intros E%list_elem_of_singleton; lia.
    + exists 1. split_and!; [done|lia|]. intros E%list_elem_of_singleton; lia.
  - assert (ascending (a :: b :: ids)) as Ha by by apply StronglySorted_ascending.
    destruct (find_hole_in_list_spec (length (a :: b :: ids)) (a :: b :: ids) Ha)
      as (r & Hr & Hhole); [cbn; lia|].
    destruct (first_hole_after_head_unused _ _ Ha Hhole) as (h & Hh & Hlt & Hnot & _).
    exists r. split_and!; [done| |done].
    cbn in Hh. injection Hh as <-. apply Forall_cons in Hpos as [? _]. lia.
Qed.

(** X7. When the ids start at 1, or there is at most one id, the result
    is the least positive integer that is unused. *)
Lemma find_unique_tree_id_from_least ids :
  StronglySorted Z.lt ids → Forall (λ x, 0 < x) ids →
  (length ids ≤ 1)%nat ∨ ids !! 0%nat = Some 1 →
  ∃ r, find_unique_tree_id_from ids = Some r ∧ least_unused ids r.
Proof.
  intros Hs Hpos Hcase. destruct ids as [|a [|b ids]].
  - exists 1. split; [done|]. split_and!; [lia|apply not_elem_of_nil|lia].
  - cbn. destruct (Z.eqb_spec a 1) as [->|Hne].
    + exists 2. split; [done|]. split_and!; [lia| |].
      * intros E%list_elem_of_singleton; lia.
      * intros z Hz. apply list_elem_of_singleton. lia.
    + exists 1. split; [done|]. split_and!; [lia| |lia].
      intros E%list_elem_of_singleton; lia.
  - destruct Hcase as [Hlen|Hhead]; [cbn in Hlen; lia|].
    cbn in Hhead. injection Hhead as ->.
    assert (ascending (1 :: b :: ids)) as Ha by by apply StronglySorted_ascending.
    destruct (find_hole_in_list_spec (length (1 :: b :: ids)) (1 :: b :: ids) Ha)
      as (r & Hr & Hhole); [cbn; lia|].
    destruct (first_hole_after_head_unused _ _ Ha Hhole) as (h & Hh & Hlt & Hnot & Hall).
    cbn in Hh. injection Hh as <-.
    exists r. split; [done|]. split_and!; [lia|done|].
    intros z Hz. apply Hall. lia.
Qed.

(** With two ids or more that do not start at 1, the hole before the
    first id is not looked at: the result is above the first id. *)
Lemma find_unique_tree_id_from_above_head a b ids :
  StronglySorted Z.lt (a :: b :: ids) →
  ∃ r, find_unique_tree_id_from (a :: b :: ids) = Some r ∧ a < r.
Proof.
  intros Hs.
  assert (ascending (a :: b :: ids)) as Ha by by apply StronglySorted_ascending.
  destruct (find_hole_in_list_spec (length (a :: b :: ids)) (a :: b :: ids) Ha)
    as (r & Hr & Hhole); [cbn; lia|].
  destruct (first_hole_after_head_unused _ _ Ha Hhole) as (h & Hh & Hlt & _).
  cbn in Hh. injection Hh as <-. by exists r.
Qed.

Lemma StronglySorted_le_NoDup_lt (l : list Z) :
  StronglySorted Z.le l → NoDup l → StronglySorted Z.lt l.
Proof.
  induction 1 as [|a l Hs IH Hall]; intros Hnd; [constructor|].
  apply NoDup_cons in Hnd as [Hnot Hnd].
  constructor; [by apply IH|].
  rewrite Forall_forall in Hall |- *. intros x Hx.
  specialize (Hall x Hx). assert (a ≠ x) by (by intros ->). lia.
Qed.

(** ** Reasoning about computations *)

(** Decides a closed proposition by evaluation. *)
Ltac vm_decide := apply (bool_decide_unpack _); vm_compute; exact I.

Lemma bind_unfold {A B} (c : M A) (k : A → M B) w :
  (c ≫= k) w = match c w with
               | (Ok a, w') => k a w'
               | (Raise e, w') => (Raise e, w')
               end.
Proof. reflexivity. Qed.

Lemma bind_inv {A B} (c : M A) (k : A → M B) w r w' :
  (c ≫= k) w = (r, w') →
  (∃ a w1, c w = (Ok a, w1) ∧ k a w1 = (r, w')) ∨
  (∃ e, c w = (Raise e, w') ∧ r = Raise e).
Proof.
  rewrite bind_unfold. destruct (c w) as [[a|e] w1]; intros H.
  - left. eauto.
  - right. injection H as <- <-. eauto.
Qed.

Lemma bind_inv_ok {A B} (c : M A) (k : A → M B) w b w' :
  (c ≫= k) w = (Ok b, w') →
  ∃ a w1, c w = (Ok a, w1) ∧ k a w1 = (Ok b, w').
Proof.
  intros [H|(e & _ & He)]%bind_inv; [done|discriminate].
Qed.

Global Instance same_preorder {X} (f : World → X) : PreOrder (same f).
Proof. split; [by intros w|]. intros w1 w2 w3 H1 H2. unfold same in *. congruence. Qed.

Global Instance keeps_preorder (P : World → Prop) : PreOrder (keeps P).
Proof.
  split; [intros w H; exact H|]. intros w1 w2 w3 H1 H2 H. apply H2, H1, H.
Qed.

Section Respects.
Context (R : relation World) (HR : PreOrder R).

Lemma respects_ret {A} (a : A) : respects R (mret a).
Proof. by intros w. Qed.

Lemma respects_raise {A} e : respects R (raise e : M A).
Proof. by intros w. Qed.

Lemma respects_lift {A} (r : Result A) : respects R (lift r).
Proof. by intros w. Qed.

Lemma respects_gets {A} (g : World → A) : respects R (gets g).
Proof. by intros w. Qed.

Lemma respects_bind {A B} (c : M A) (k : A → M B) :
  respects R c → (∀ a, respects R (k a)) → respects R (c ≫= k).
Proof.
  intros Hc Hk w. rewrite bind_unfold. specialize (Hc w).
  destruct (c w) as [[a|e] w1]; cbn in *; [|done].
  etrans; [exact Hc|apply Hk].
Qed.

Lemma respects_try_except {A} (body : M A) handles handler :
  respects R body → (∀ e, respects R (handler e)) →
  respects R (try_except body handles handler).
Proof.
  intros Hb Hh w. unfold try_except. specialize (Hb w).
  destruct (body w) as [[a|e] w1]; cbn in *; [done|].
  destruct (handles e); [|done]. etrans; [exact Hb|apply Hh].
Qed.

Lemma respects_modify (g : World → World) :
  (∀ w, R w (g w)) → respects R (modify g).
Proof. intros Hg w. apply Hg. Qed.

Lemma respects_getattr_strict record name : respects R (getattr_strict record name).
Proof. intros w. unfold getattr_strict. by destruct (record !! name). Qed.

End Respects.

Create HintDb respects.
#[export] Hint Resolve respects_ret respects_raise respects_lift respects_gets
  respects_getattr_strict : respects.
#[export] Hint Extern 0 (PreOrder _) => apply _ : respects.

(** Splits a goal [respects R c] along the structure of [c]. *)
Ltac respects_step :=
  match goal with
  | |- preserves _ _ => unfold preserves
  | |- respects _ (mbind _ _) => apply respects_bind; [apply _| |intros ?]
  | |- respects _ (try_except _ _ _) => apply respects_try_except; [apply _| |intros ?]
  | |- respects _ (match ?x with _ => _ end) => destruct x
  | |- respects _ (if ?b then _ else _) => destruct b
  | |- respects _ _ => solve [auto with respects]
  end.
Ltac respects_tac := repeat respects_step.

Lemma assoc_Some_elem {A} name (l : list (string * A)) a :
  assoc name l = Some a → (name, a) ∈ l.
Proof.
  induction l as [|[n b] l IH]; cbn; [done|].
  destruct (String.eqb_spec n name) as [->|Hne].
  - intros [= ->]. left.
  - intros H. right. by apply IH.
Qed.

(** ** What the row procedures and the mappers respect *)

Section Mappers.
Variable NO_VERSION : string.
Context (R : relation World) (HR : PreOrder R).
Hypothesis R_get_license : ∀ self record, respects R (get_license self record).

Lemma respects_getattr_self self name method record :
  getattr_self NO_VERSION self name = Some method → respects R (method record).
Proof.
  unfold getattr_self. intros Hm%assoc_Some_elem.
  assert ((name, method) ∈ NoVersionChannelImport_attributes NO_VERSION self
                           ++ ChannelImport_attributes self) as Hin.
  { unfold attributes in Hm. destruct (import_class self); [|done].
    apply elem_of_app. by right. }
  clear Hm. unfold NoVersionChannelImport_attributes, ChannelImport_attributes in Hin.
  cbn [app] in Hin.
  repeat (apply elem_of_cons in Hin as [[= _ ->]|Hin]);
    [..|by apply elem_of_nil in Hin];
    unfold get_tree_id, get_none, infer_channel_id_from_source,
      set_version_to_no_version, get_license_name, get_license_description,
      not_callable, takes_no_record, returns_object;
    respects_tac; apply R_get_license.
Qed.

Lemma respects_row_mapper self mappings record column :
  respects R (generate_row_mapper NO_VERSION self mappings record column).
Proof.
  unfold generate_row_mapper.
  destruct (default ∅ mappings !! column) as [col_map|]; [|auto with respects].
  destruct (record !! col_map); [auto with respects|].
  destruct (getattr_self NO_VERSION self col_map) eqn:Hm; [|auto with respects].
  by eapply respects_getattr_self.
Qed.

Lemma respects_map_row row_mapper record columns data :
  (∀ record column, respects R (row_mapper record column)) →
  respects R (map_row row_mapper record columns data).
Proof.
  intros Hrm. revert data. induction columns as [|column rest IH]; intros data; cbn.
  - auto with respects.
  - apply respects_bind; [apply _|apply Hrm|]. intros v.
    destruct (decide (v = VNone)); [apply IH|].
    apply respects_bind; [apply _|apply Hrm|]. intros v'. apply IH.
Qed.

End Mappers.

(** [get_license] changes the cache and the log of queries only. *)
Lemma preserves_get_license {X} (f : World → X) self record :
  (∀ license_id w, f (log_license_query license_id w) = f w) →
  (∀ license_id license w, f (set_license license_id license w) = f w) →
  preserves f (get_license self record).
Proof.
  intros Hlog Hset. unfold get_license. respects_tac.
  - apply respects_modify. intros ?. apply Hlog.
  - apply respects_modify. intros ?. apply Hset.
Qed.

Lemma preserves_row_mapper {X} (f : World → X) NO_VERSION self mappings record column :
  (∀ license_id w, f (log_license_query license_id w) = f w) →
  (∀ license_id license w, f (set_license license_id license w) = f w) →
  preserves f (generate_row_mapper NO_VERSION self mappings record column).
Proof.
  intros Hlog Hset. apply respects_row_mapper; [apply _|].
  intros self' record'. by apply preserves_get_license.
Qed.

Lemma row_mapper_keeps_store NO_VERSION self mappings :
  mapper_keeps_store (generate_row_mapper NO_VERSION self mappings).
Proof.
  intros record column. split_and!; by apply preserves_row_mapper.
Qed.

Lemma map_row_keeps_store row_mapper record columns data w :
  mapper_keeps_store row_mapper →
  let w' := (map_row row_mapper record columns data w).2 in
  calls w' = calls w ∧ working w' = working w ∧ committed w' = committed w.
Proof.
  intros Hrm. cbn.
  split_and!; apply (respects_map_row (same _)); try apply _; intros r c; apply Hrm.
Qed.

(** ** The calls of the destination session *)

Lemma session_merge_spec cols m data w :
  ∃ w', session_merge cols m data w = (Ok (), w') ∧
    calls w' = calls w ++ [CMerge m data] ∧ committed w' = committed w ∧
    working w' = merge_row cols m data (working w) ∧
    licenses w' = licenses w ∧ license_queries w' = license_queries w.
Proof.
  unfold session_merge. eexists; split_and!; done.
Qed.

Lemma bulk_insert_mappings_spec cols m rows w r w' :
  bulk_insert_mappings cols m rows w = (r, w') →
  calls w' = calls w ++ [CBulkInsert m rows] ∧ committed w' = committed w ∧
  licenses w' = licenses w ∧ license_queries w' = license_queries w.
Proof.
  unfold bulk_insert_mappings.
  destruct (insert_rows cols m rows _); intros [= <- <-]; done.
Qed.

Lemma session_flush_spec w :
  session_flush w = (Ok (), log_call CFlush w).
Proof. reflexivity. Qed.

Lemma insert_rows_ok cols m rows db db' :
  insert_rows cols m rows db = Ok db' → db' = db ++ ((m,.) <$> rows).
Proof.
  revert db. induction rows as [|row rest IH]; intros db; cbn.
  - intros [= <-]. by rewrite app_nil_r.
  - unfold insert_row.
    destruct (identity cols row) as [k|]; [destruct (existsb _ db); [done|]|];
      intros ->%IH; by rewrite <- app_assoc.
Qed.

Lemma bulk_insert_mappings_ok cols m rows w w' :
  bulk_insert_mappings cols m rows w = (Ok (), w') →
  working w' = working w ++ ((m,.) <$> rows).
Proof.
  unfold bulk_insert_mappings.
  destruct (insert_rows cols m rows _) eqn:Hins; intros [= <-]; cbn.
  by apply insert_rows_ok in Hins.
Qed.

Lemma bulk_rows_bulk m rows cs : bulk_rows (CBulkInsert m rows :: cs) = rows ++ bulk_rows cs.
Proof. reflexivity. Qed.
Lemma bulk_rows_flush cs : bulk_rows (CFlush :: cs) = bulk_rows cs.
Proof. reflexivity. Qed.
Lemma bulk_rows_merge m data cs : bulk_rows (CMerge m data :: cs) = bulk_rows cs.
Proof. reflexivity. Qed.
Lemma bulk_sizes_bulk m rows cs :
  bulk_sizes (CBulkInsert m rows :: cs) = length rows :: bulk_sizes cs.
Proof. reflexivity. Qed.
Lemma bulk_sizes_flush cs : bulk_sizes (CFlush :: cs) = bulk_sizes cs.
Proof. reflexivity. Qed.
Lemma bulk_sizes_merge m data cs : bulk_sizes (CMerge m data :: cs) = bulk_sizes cs.
Proof. reflexivity. Qed.
Lemma merged_rows_merge m data cs : merged_rows (CMerge m data :: cs) = data :: merged_rows cs.
Proof. reflexivity. Qed.
Lemma merged_rows_flush cs : merged_rows (CFlush :: cs) = merged_rows cs.
Proof. reflexivity. Qed.

(** ** The loop of [table_import] *)

Lemma Z_mod_wrap (u n : Z) :
  u + 1 = 10000 → (0 + n) `mod` 10000 = (u + (1 + n)) `mod` 10000.
Proof.
  intros Hu. replace (u + (1 + n)) with (n + 1 * 10000) by lia.
  by rewrite Z.mod_add.
Qed.

Lemma table_import_rows_ok cols model (merge : bool) rm columns s :
  mapper_keeps_store rm →
  ∀ buf u w buf' u' w',
  table_import_rows cols model merge rm columns s buf u w = (Ok (buf', u'), w') →
  0 ≤ u < 10000 →
  (if merge then buf = [] else Z.of_nat (length buf) ≤ u) →
  ∃ cs datas,
    calls w' = calls w ++ cs ∧
    stream_error s = None ∧
    Forall2 (λ record data, ∃ w1 w2, map_row rm record columns ∅ w1 = (Ok data, w2))
      (stream_rows s) datas ∧
    0 ≤ u' < 10000 ∧
    u' = (u + Z.of_nat (length (stream_rows s))) `mod` 10000 ∧
    (if merge then
       buf' = [] ∧ Forall (is_merge_or_flush model) cs ∧ merged_rows cs = datas ∧
       bulk_sizes cs = []
     else
       Forall (is_bulk_or_flush model) cs ∧ bulk_rows cs ++ buf' = buf ++ datas ∧
       Forall (λ n, 1 ≤ Z.of_nat n ≤ 10000) (bulk_sizes cs) ∧
       Z.of_nat (length buf') ≤ u' ∧
       working w' = working w ++ ((model,.) <$> bulk_rows cs)).
Proof.
  intros Hrm. induction s as [|record rest IH|e]; intros buf u w buf' u' w' Hrun Hu Hbuf.
  - cbn in Hrun. injection Hrun as <- <- <-. exists [], [].
    cbn. rewrite Z.add_0_r, Z.mod_small by lia.
    split_and!; try done; try lia; [by rewrite app_nil_r|].
    destruct merge; [done|]. by rewrite !app_nil_r.
  - cbn [table_import_rows] in Hrun.
    apply bind_inv_ok in Hrun as (data & w1 & Hmr & Hrun).
    pose proof (map_row_keeps_store rm record columns ∅ w Hrm) as Hk.
    rewrite Hmr in Hk. cbn in Hk. destruct Hk as (Hc1 & Hw1 & _).
    cbn [stream_rows stream_error length].
    destruct merge.
    + (* merged at once *)
      subst buf.
      apply bind_inv_ok in Hrun as (buf1 & w2 & Hmerge & Hrun).
      apply bind_inv_ok in Hmerge as ([] & w2' & Hmerge & [= <- <-]).
      destruct (session_merge_spec cols model data w1) as (w2'' & Hm & Hc2 & _).
      rewrite Hm in Hmerge. injection Hmerge as <-.
      destruct (Z.eqb_spec (u + 1) 10000) as [Hth|Hth].
      * apply bind_inv_ok in Hrun as (buf2 & w3 & [= <- <-] & Hrun).
        apply bind_inv_ok in Hrun as ([] & w4 & [= <-] & Hrun).
        apply IH in Hrun as (cs & datas & Hcs & Herr & Hd & Hu' & Hmod & Hb & Hall & Hmg & Hbs);
          [|lia|done].
        exists (CMerge model data :: CFlush :: cs), (data :: datas).
        split_and!; try done; try lia.
        -- rewrite Hcs. cbn. rewrite Hc2, Hc1, <- !app_assoc. done.
        -- constructor; [eauto|done].
        -- rewrite Hmod, Nat2Z.inj_succ, <- Z.add_1_l. by apply Z_mod_wrap.
        -- apply Forall_cons_2; [right; eauto|apply Forall_cons_2; [by left|done]].
        -- by rewrite merged_rows_merge, merged_rows_flush, Hmg.
      * apply IH in Hrun as (cs & datas & Hcs & Herr & Hd & Hu' & Hmod & Hb & Hall & Hmg & Hbs);
          [|lia|done].
        exists (CMerge model data :: cs), (data :: datas).
        split_and!; try done; try lia.
        -- rewrite Hcs, Hc2, Hc1, <- !app_assoc. done.
        -- constructor; [eauto|done].
        -- rewrite Hmod. f_equal. lia.
        -- constructor; [right; eauto|done].
        -- by rewrite merged_rows_merge, Hmg.
    + (* buffered *)
      apply bind_inv_ok in Hrun as (buf1 & w2 & [= <- <-] & Hrun).
      destruct (Z.eqb_spec (u + 1) 10000) as [Hth|Hth].
      * apply bind_inv_ok in Hrun as (buf2 & w3 & Hbulk & Hrun).
        apply bind_inv_ok in Hbulk as ([] & w3' & Hbulk & [= <- <-]).
        apply bind_inv_ok in Hrun as ([] & w4 & [= <-] & Hrun).
        pose proof (bulk_insert_mappings_spec _ _ _ _ _ _ Hbulk) as (Hc3 & _).
        pose proof (bulk_insert_mappings_ok _ _ _ _ _ Hbulk) as Hw3.
        apply IH in Hrun as (cs & datas & Hcs & Herr & Hd & Hu' & Hmod & Hall & Hrows & Hsz & Hb & Hwk);
          [|lia|cbn; lia].
        exists (CBulkInsert model (buf ++ [data]) :: CFlush :: cs), (data :: datas).
        split_and!; try done; try lia.
        -- rewrite Hcs. cbn. rewrite Hc3, Hc1, <- !app_assoc. done.
        -- constructor; [eauto|done].
        -- rewrite Hmod, Nat2Z.inj_succ, <- Z.add_1_l. by apply Z_mod_wrap.
        -- apply Forall_cons_2; [right; eauto|apply Forall_cons_2; [by left|done]].
        -- rewrite bulk_rows_bulk, bulk_rows_flush, <- !app_assoc, Hrows. done.
        -- rewrite bulk_sizes_bulk, bulk_sizes_flush.
           constructor; [|done]. rewrite length_app. cbn [length]. lia.
        -- rewrite Hwk, bulk_rows_bulk, bulk_rows_flush.
           change (working (log_call CFlush w3')) with (working w3').
           rewrite Hw3, Hw1, !fmap_app, <- !app_assoc. done.
      * apply IH in Hrun as (cs & datas & Hcs & Herr & Hd & Hu' & Hmod & Hall & Hrows & Hsz & Hb & Hwk);
          [|lia|rewrite length_app; cbn; lia].
        exists cs, (data :: datas).
        split_and!; try done; try lia.
        -- by rewrite Hcs, Hc1.
        -- constructor; [eauto|done].
        -- rewrite Hmod. f_equal. lia.
        -- rewrite Hrows, <- app_assoc. done.
        -- by rewrite Hwk, Hw1.
  - cbn in Hrun. discriminate.
Qed.

(** ** [table_import] *)

Lemma table_import_source_record self model w :
  try_except (cls ← lift (source_get_class (source self) model); mret (Some cls))
    is_ClassNotFoundError (λ _, mret None) w
  = (Ok (source_record (source self) model), w).
Proof.
  unfold try_except, source_record, source_get_class. rewrite bind_unfold. unfold lift.
  by destruct (source_lookup (source self) model).
Qed.

Lemma bulk_rows_app cs1 cs2 : bulk_rows (cs1 ++ cs2) = bulk_rows cs1 ++ bulk_rows cs2.
Proof. unfold bulk_rows. apply bind_app. Qed.

Lemma bulk_sizes_app cs1 cs2 : bulk_sizes (cs1 ++ cs2) = bulk_sizes cs1 ++ bulk_sizes cs2.
Proof. unfold bulk_sizes. apply omap_app. Qed.

(** A successful [table_import], for a mapper that leaves the store
    alone: the rows of the stream are mapped one by one, in order, and
    reach the destination as merges or as bulk inserts. *)
Lemma table_import_ok self model rm tm u w u' w' :
  mapper_keeps_store rm →
  table_import self model rm tm u w = (Ok u', w') →
  0 ≤ u < 10000 →
  let s := tm (source_record (source self) model) in
  let columns := dest_writable_columns (dest_columns self model) in
  ∃ cs datas,
    calls w' = calls w ++ cs ∧
    stream_error s = None ∧
    Forall2 (λ record data, ∃ w1 w2, map_row rm record columns ∅ w1 = (Ok data, w2))
      (stream_rows s) datas ∧
    0 ≤ u' < 10000 ∧
    u' = (u + Z.of_nat (length (stream_rows s))) `mod` 10000 ∧
    (if bool_decide (model ∈ merge_models) then
       Forall (is_merge_or_flush model) cs ∧ merged_rows cs = datas ∧ bulk_sizes cs = []
     else
       Forall (is_bulk_or_flush model) cs ∧ bulk_rows cs = datas ∧
       Forall (λ n, 1 ≤ Z.of_nat n ≤ 10000) (bulk_sizes cs) ∧
       working w' = working w ++ ((model,.) <$> datas)).
Proof.
  intros Hrm Hrun Hu s columns. unfold table_import in Hrun. cbv zeta in Hrun.
  apply bind_inv_ok in Hrun as (sr & w0 & Hsr & Hrun).
  rewrite table_import_source_record in Hsr. injection Hsr as <- <-.
  apply bind_inv_ok in Hrun. destruct Hrun as ([buf1 u1] & w1 & Hloop & Hrun).
  apply table_import_rows_ok in Hloop as (cs & datas & Hcs & Herr & Hd & Hu1 & Hmod & Hrest);
    [|done|done|destruct (bool_decide _); [done|cbn; lia]].
  fold s in Herr, Hd, Hmod.
  destruct (bool_decide (model ∈ merge_models)); cbn [negb andb] in Hrun.
  - destruct Hrest as (-> & Hall & Hmg & Hbs). injection Hrun as <- <-.
    exists cs, datas. split_and!; try done; lia.
  - destruct Hrest as (Hall & Hrows & Hsz & Hb & Hwk). rewrite app_nil_l in Hrows.
    destruct buf1 as [|d buf1].
    + cbn in Hrun. injection Hrun as <- <-. rewrite app_nil_r in Hrows.
      exists cs, datas. split_and!; try done; try lia. by rewrite Hwk, Hrows.
    + cbn [bool_decide negb] in Hrun.
      rewrite bool_decide_eq_false_2 in Hrun by done. cbn [negb] in Hrun.
      apply bind_inv_ok in Hrun as ([] & w2 & Hbulk & [= <- <-]).
      pose proof (bulk_insert_mappings_spec _ _ _ _ _ _ Hbulk) as (Hc2 & _).
      pose proof (bulk_insert_mappings_ok _ _ _ _ _ Hbulk) as Hw2.
      exists (cs ++ [CBulkInsert model (d :: buf1)]), datas.
      split_and!; try done; try lia.
      * by rewrite Hc2, Hcs, <- app_assoc.
      * apply Forall_app; split; [done|]. constructor; [right; eauto|done].
      * rewrite bulk_rows_app, bulk_rows_bulk.
        change (bulk_rows []) with (@nil Row). by rewrite app_nil_r.
      * rewrite bulk_sizes_app, bulk_sizes_bulk. apply Forall_app; split; [done|].
        constructor; [|done]. cbn [length] in *. lia.
      * rewrite Hw2, Hwk, <- Hrows, fmap_app, <- app_assoc. done.
Qed.

Lemma bulk_rows_length cs : length (bulk_rows cs) = sum_list (bulk_sizes cs).
Proof.
  induction cs as [|c cs IH]; [done|].
  destruct c; try exact IH.
  rewrite bulk_rows_bulk, bulk_sizes_bulk, length_app. simpl. by rewrite IH.
Qed.

Lemma sum_list_bounded (l : list nat) :
  Forall (λ n, 1 ≤ Z.of_nat n ≤ 10000) l →
  Z.of_nat (sum_list l) ≤ 10000 * Z.of_nat (length l).
Proof.
  induction 1 as [|n l Hn _ IH]; simpl; lia.
Qed.

(** ** Mapping a row with a mapper that only computes *)

Lemma map_row_pure rm record (g : string → value) columns :
  (∀ column w, rm record column w = (Ok (g column), w)) →
  ∀ data w, ∃ data',
    map_row rm record columns data w = (Ok data', w) ∧
    ∀ column, data' !! column =
      if decide (column ∈ columns ∧ g column ≠ VNone) then Some (g column)
      else data !! column.
Proof.
  intros Hrm. induction columns as [|c rest IH]; intros data w.
  - exists data. split; [done|]. intros column.
    case_decide as H; [|done]. destruct H as [[]%elem_of_nil _].
  - cbn [map_row]. rewrite bind_unfold, Hrm.
    destruct (decide (g c = VNone)) as [Hc|Hc].
    + destruct (IH data w) as (data' & Hrun & Hlook). exists data'. split; [done|].
      intros column. rewrite Hlook.
      destruct (decide (column ∈ rest ∧ g column ≠ VNone)) as [[H1 H2]|H1],
        (decide (column ∈ c :: rest ∧ g column ≠ VNone)) as [[H3 H4]|H3]; try done.
      * exfalso. apply H3. split; [by right|done].
      * exfalso. apply elem_of_cons in H3 as [->|H3]; [done|]. by apply H1.
    + rewrite bind_unfold, Hrm.
      destruct (IH (<[c := g c]> data) w) as (data' & Hrun & Hlook).
      exists data'. split; [done|].
      intros column. rewrite Hlook.
      destruct (decide (column ∈ rest ∧ g column ≠ VNone)) as [[H1 H2]|H1],
        (decide (column ∈ c :: rest ∧ g column ≠ VNone)) as [[H3 H4]|H3]; try done.
      * exfalso. apply H3. split; [by right|done].
      * apply elem_of_cons in H3 as [->|H3]; [|exfalso; by apply H1].
        by rewrite lookup_insert_eq.
      * destruct (decide (column = c)) as [->|Hne].
        -- exfalso. apply H3. split; [by left|done].
        -- by rewrite lookup_insert_ne.
Qed.

Lemma stream_rows_of_list rows : stream_rows (stream_of_list rows) = rows.
Proof. induction rows as [|r rows IH]; cbn; by rewrite ?IH. Qed.

Lemma stream_error_of_list rows : stream_error (stream_of_list rows) = None.
Proof. by induction rows. Qed.

Lemma base_table_mapper_rows self model records :
  source_lookup (source self) model = Some records →
  stream_rows (base_table_mapper self (source_record (source self) model)) = records.
Proof.
  intros Hs. unfold source_record, base_table_mapper, source_query_all.
  rewrite Hs. cbn. by rewrite Hs, stream_rows_of_list.
Qed.

Lemma rows_received_merged model cs :
  Forall (is_merge_or_flush model) cs → rows_received cs = merged_rows cs.
Proof.
  induction 1 as [|c cs [->|[data ->]] _ IH]; [done|exact IH|].
  rewrite merged_rows_merge, <- IH. done.
Qed.

Lemma rows_received_bulk model cs :
  Forall (is_bulk_or_flush model) cs → rows_received cs = bulk_rows cs.
Proof.
  induction 1 as [|c cs [->|[rows ->]] _ IH]; [done|exact IH|].
  rewrite bulk_rows_bulk, <- IH. done.
Qed.

(** The row mapper of [ChannelImport] for a model without an entry in
    the schema mapping, and for ContentNode. *)
Lemma ChannelImport_mapper_unmapped NO_VERSION self model record column w :
  schema_mapping (import_class self) model = None →
  generate_row_mapper NO_VERSION self (mapping_per_row (import_class self) model)
    record column w
  = (Ok (getattr_default record column), w).
Proof.
  intros Hm. unfold mapping_per_row, generate_row_mapper. rewrite Hm. cbn.
  by rewrite lookup_empty.
Qed.

Lemma ChannelImport_mapper_ContentNode NO_VERSION self record column w :
  import_class self = ChannelImport →
  generate_row_mapper NO_VERSION self (mapping_per_row (import_class self) ContentNode)
    record column w
  = (Ok (if decide (column = "tree_id")
         then default (VInt (tree_id self)) (record !! "get_tree_id")
         else getattr_default record column), w).
Proof.
  intros Hc. unfold mapping_per_row, generate_row_mapper. rewrite Hc. cbn.
  destruct (decide (column = "tree_id")) as [->|Hne].
  - rewrite lookup_singleton_eq.
    destruct (record !! "get_tree_id"); [done|].
    unfold getattr_self, attributes. rewrite Hc. reflexivity.
  - by rewrite lookup_singleton_ne.
Qed.

Lemma not_writable_auto_integer_pk (cols : list (string * Column)) column col :
  NoDup cols.*1 → (column, col) ∈ cols → column_not_auto_integer_pk col = false →
  column ∉ dest_writable_columns cols.
Proof.
  intros Hnd Hin Hpk. unfold dest_writable_columns.
  intros ([c' col'] & [= <-] & [Hw Hin']%list_elem_of_filter)%list_elem_of_fmap.
  cbn in Hw.
  assert (col' = col) as ->; [|congruence].
  apply list_elem_of_lookup_1 in Hin as [i Hi]. apply list_elem_of_lookup_1 in Hin' as [j Hj].
  assert (i = j) as ->.
  { eapply NoDup_lookup; [exact Hnd| |]; rewrite list_lookup_fmap.
    - by rewrite Hi. - by rewrite Hj. }
  congruence.
Qed.

Lemma ChannelImport_mapper NO_VERSION self model record column w :
  import_class self = ChannelImport →
  generate_row_mapper NO_VERSION self (mapping_per_row (import_class self) model)
    record column w
  = (Ok (if decide (model = ContentNode ∧ column = "tree_id")
         then default (VInt (tree_id self)) (record !! "get_tree_id")
         else getattr_default record column), w).
Proof.
  intros Hc. destruct (decide (model = ContentNode)) as [->|Hne].
  - rewrite ChannelImport_mapper_ContentNode by done.
    destruct (decide (column = "tree_id")) as [->|Hne].
    + by rewrite decide_True.
    + rewrite decide_False; [done|]. by intros [_ ?].
  - rewrite ChannelImport_mapper_unmapped.
    + by rewrite decide_False by (by intros [? _]).
    + rewrite Hc. by destruct model.
Qed.

(** X5. The counter of processed rows is one for the whole import: after
    the models [models], merge-designated or not, it is the number of
    their rows added to what it was, modulo 10,000. *)
Lemma import_models_shared_counter NO_VERSION self models u w u' w' :
  import_models NO_VERSION self models u w = (Ok u', w') →
  0 ≤ u < 10000 →
  0 ≤ u' < 10000 ∧ u' = (u + Z.of_nat (total_rows self models)) `mod` 10000.
Proof.
  revert u w. induction models as [|model rest IH]; intros u w Hrun Hu.
  - cbn in Hrun. injection Hrun as <- <-. unfold total_rows. cbn.
    rewrite Z.add_0_r, Z.mod_small by lia. done.
  - cbn [import_models] in Hrun. cbv zeta in Hrun.
    apply bind_inv_ok in Hrun as (tm & w1 & Htm & Hrun).
    apply bind_inv_ok in Hrun as (u1 & w2 & Hti & Hrun).
    apply table_import_ok in Hti as (cs & datas & _ & _ & _ & Hu1 & Hmod & _);
      [|apply row_mapper_keeps_store|done].
    apply IH in Hrun as [Hu' ->]; [|done]. split; [done|].
    assert (model_stream self model = Some (tm (source_record (source self) model))) as Hms.
    { unfold model_stream, generate_table_mapper in *.
      destruct (mapping_per_table _ _) as [table_map|]; [|by injection Htm as <- _].
      destruct (getattr_self_table self table_map); [by injection Htm as <- _|done]. }
    unfold total_rows. rewrite fmap_cons, Hms. cbn [default sum_list sum_list_with].
    fold (total_rows self rest). rewrite Hmod, Nat2Z.inj_add, Zplus_mod_idemp_l.
    unfold id. f_equal. lia.
Qed.

(** ** Imports that cannot fail *)

Lemma identity_None_not_supplied cols (data : Row) pk :
  pk ∈ pk_columns cols → data !! pk = None → identity cols data = None.
Proof.
  intros Hpk Hdata. unfold identity.
  destruct (pk_columns cols) as [|c pks] eqn:Hcols; [done|].
  apply mapM_None. apply Exists_exists. eauto.
Qed.

Lemma insert_rows_no_identity cols m rows db :
  Forall (λ r, identity cols r = None) rows →
  ∃ db', insert_rows cols m rows db = Ok db'.
Proof.
  intros Hall. revert db. induction Hall as [|row rest Hrow _ IH]; intros db; cbn.
  - eauto.
  - unfold insert_row. rewrite Hrow. apply IH.
Qed.

Lemma bulk_insert_mappings_no_identity cols m rows w :
  Forall (λ r, identity cols r = None) rows →
  ∃ w', bulk_insert_mappings cols m rows w = (Ok (), w').
Proof.
  intros Hall. unfold bulk_insert_mappings.
  destruct (insert_rows_no_identity cols m rows (working (log_call (CBulkInsert m rows) w)) Hall)
    as [db' ->]. eauto.
Qed.

(** The loop over the rows of a table, for a mapper that cannot raise
    and rows that leave their identity to the store. *)
Lemma table_import_rows_succeeds cols model merge rm columns rows :
  (∀ record w, ∃ data w', map_row rm record columns ∅ w = (Ok data, w') ∧
     identity cols data = None) →
  ∀ buf u w, Forall (λ r, identity cols r = None) buf →
  ∃ buf' u' w',
    table_import_rows cols model merge rm columns (stream_of_list rows) buf u w
    = (Ok (buf', u'), w') ∧
    Forall (λ r, identity cols r = None) buf'.
Proof.
  intros Hrm. induction rows as [|record rest IH]; intros buf u w Hbuf.
  - cbn. eauto.
  - cbn [stream_of_list table_import_rows]. rewrite bind_unfold.
    destruct (Hrm record w) as (data & w1 & -> & Hid).
    destruct merge.
    + rewrite !bind_unfold.
      destruct (session_merge_spec cols model data w1) as (w2 & -> & _).
      cbn [mret M_ret ret]. destruct (u + 1 =? 10000).
      * rewrite bind_unfold. cbn [mret M_ret ret negb].
        rewrite bind_unfold, session_flush_spec. apply IH, Hbuf.
      * apply IH, Hbuf.
    + rewrite bind_unfold. cbn [mret M_ret ret].
      assert (Forall (λ r, identity cols r = None) (buf ++ [data])) as Hbuf'.
      { apply Forall_app. split; [done|]. by constructor. }
      destruct (u + 1 =? 10000); [|by apply IH].
      rewrite bind_unfold. cbn [negb]. rewrite bind_unfold.
      destruct (bulk_insert_mappings_no_identity cols model (buf ++ [data]) w1 Hbuf')
        as [w2 ->].
      cbn [mret M_ret ret]. rewrite bind_unfold, session_flush_spec. by apply IH.
Qed.

(** A table whose key the store assigns, imported with the class of the
    current schema, is imported whatever its rows. *)
Lemma table_import_succeeds NO_VERSION self model records u w :
  import_class self = ChannelImport →
  source_lookup (source self) model = Some records →
  (∃ pk, pk ∈ pk_columns (dest_columns self model) ∧
         pk ∉ dest_writable_columns (dest_columns self model)) →
  ∃ u' w',
    table_import self model
      (generate_row_mapper NO_VERSION self (mapping_per_row (import_class self) model))
      (base_table_mapper self) u w = (Ok u', w').
Proof.
  intros Hc Hsrc (pk & Hpk & Hnw). unfold table_import. cbv zeta.
  rewrite bind_unfold, table_import_source_record.
  assert (base_table_mapper self (source_record (source self) model) = stream_of_list records)
    as ->.
  { unfold source_record, base_table_mapper, source_query_all. by rewrite Hsrc; cbn; rewrite Hsrc. }
  rewrite bind_unfold.
  destruct (table_import_rows_succeeds (dest_columns self model) model
              (bool_decide (model ∈ merge_models))
              (generate_row_mapper NO_VERSION self (mapping_per_row (import_class self) model))
              (dest_writable_columns (dest_columns self model)) records)
    with (buf := @nil Row) (u := u) (w := w) as (buf' & u' & w' & -> & Hbuf'); [|done|].
  { intros record w0.
    destruct (map_row_pure _ record _ (dest_writable_columns (dest_columns self model))
                (λ column w, ChannelImport_mapper NO_VERSION self model record column w Hc)
                ∅ w0) as (data & Hmap & Hlook).
    exists data, w0. split; [done|].
    eapply identity_None_not_supplied; [exact Hpk|].
    rewrite Hlook. by rewrite decide_False by (by intros [? _]). }
  destruct (negb _ && negb _); [|eauto].
  rewrite bind_unfold.
  destruct (bulk_insert_mappings_no_identity (dest_columns self model) model buf' w' Hbuf')
    as [w2 ->]. cbn. eauto.
Qed.

(** More than 10,000 rows of such a table, when it is not
    merge-designated: the import succeeds and the destination receives
    at least two bulk inserts, none of more than 10,000 rows, of as many
    rows together as the table has. *)
Lemma many_rows_bulk_inserted NO_VERSION self model records u w :
  import_class self = ChannelImport →
  model ∉ merge_models →
  source_lookup (source self) model = Some records →
  (∃ pk, pk ∈ pk_columns (dest_columns self model) ∧
         pk ∉ dest_writable_columns (dest_columns self model)) →
  0 ≤ u < 10000 →
  10000 < Z.of_nat (length records) →
  ∃ u' w' cs,
    table_import self model
      (generate_row_mapper NO_VERSION self (mapping_per_row (import_class self) model))
      (base_table_mapper self) u w = (Ok u', w') ∧
    calls w' = calls w ++ cs ∧
    Forall (λ n, 1 ≤ Z.of_nat n ≤ 10000) (bulk_sizes cs) ∧
    sum_list (bulk_sizes cs) = length records ∧
    (2 ≤ length (bulk_sizes cs))%nat.
Proof.
  intros Hc Hnm Hsrc Hpk Hu Hmany.
  destruct (table_import_succeeds NO_VERSION self model records u w Hc Hsrc Hpk)
    as (u' & w' & Hrun).
  exists u', w'.
  pose proof Hrun as Hok.
  apply table_import_ok in Hok
    as (cs & datas & Hcs & _ & Hd & _ & _ & Hrest);
    [|apply row_mapper_keeps_store|done].
  rewrite bool_decide_eq_false_2 in Hrest by done.
  destruct Hrest as (_ & Hrows & Hsz & _).
  rewrite (base_table_mapper_rows _ _ _ Hsrc) in Hd.
  assert (sum_list (bulk_sizes cs) = length records) as Hsum.
  { rewrite <- bulk_rows_length, Hrows. symmetry. by eapply Forall2_length. }
  exists cs. split_and!; try done.
  pose proof (sum_list_bounded _ Hsz) as Hb. rewrite Hsum in Hb. lia.
Qed.

(** ** Merge-designated models *)

Lemma identity_union cols (data old : Row) k :
  identity cols data = Some k → identity cols (data ∪ old) = Some k.
Proof.
  unfold identity. destruct (pk_columns cols) as [|c pks]; [done|].
  generalize (c :: pks). intros l. revert k.
  induction l as [|c' l IH]; intros k; [done|].
  cbn. destruct (data !! c') as [v|] eqn:Hv; [|done]. cbn.
  rewrite (lookup_union_Some_l _ _ _ _ Hv). cbn.
  destruct (mapM (λ c, data !! c) l) as [vs|] eqn:Hm; [|done]. cbn.
  intros [= <-]. by rewrite (IH vs).
Qed.

Lemma merged_rows_app cs1 cs2 : merged_rows (cs1 ++ cs2) = merged_rows cs1 ++ merged_rows cs2.
Proof. unfold merged_rows. apply bind_app. Qed.

(** An upsert adds a row of identity [k] when there is none, and
    otherwise changes no count. *)
Lemma upsert_identity_count cols k m data db k' :
  identity cols data = Some k →
  identity_count cols m k' (upsert cols k m data db) =
    if decide (k' = k) then Nat.max 1 (identity_count cols m k' db)
    else identity_count cols m k' db.
Proof.
  intros Hid. unfold identity_count. induction db as [|mr db IH].
  - cbn [upsert]. rewrite filter_cons, filter_nil. cbn.
    destruct (decide (k' = k)) as [->|Hne].
    + by rewrite decide_True.
    + rewrite decide_False; [done|]. intros [_ H]. cbn in H. congruence.
  - cbn [upsert]. unfold same_identity. case_bool_decide as Hsame.
    + destruct Hsame as [Hm Hk]. rewrite !filter_cons.
      destruct (decide (k' = k)) as [->|Hne].
      * rewrite !decide_True; [cbn; lia|done|].
        split; [done|]. cbn. by apply identity_union.
      * rewrite !decide_False; [done| |].
        -- intros [_ H]. congruence.
        -- intros [_ H]. cbn in H. rewrite (identity_union _ _ _ _ Hid) in H. congruence.
    + rewrite !filter_cons. destruct (decide (has_identity cols m k' mr)) as [Hh|Hh].
      * cbn [length]. rewrite IH. destruct (decide (k' = k)) as [->|Hne]; [done|done].
      * rewrite IH. done.
Qed.

Lemma merge_row_identity_count cols m data db k :
  let n := identity_count cols m k db in
  let n' := identity_count cols m k (merge_row cols m data db) in
  (n ≤ n' ≤ Nat.max 1 n)%nat.
Proof.
  cbn. unfold merge_row. destruct (identity cols data) as [k0|] eqn:Hid.
  - rewrite (upsert_identity_count _ _ _ _ _ _ Hid). case_decide; lia.
  - unfold identity_count. rewrite filter_app, length_app, filter_cons, filter_nil.
    rewrite decide_False; [cbn; lia|]. intros [_ H]. cbn in H. congruence.
Qed.

(** The merged row is in the table afterwards, with the values given. *)
Lemma merge_row_updates cols m data db :
  ∃ row, (m, row) ∈ merge_row cols m data db ∧ data ⊆ row.
Proof.
  unfold merge_row. destruct (identity cols data) as [k|].
  - induction db as [|mr db (row & Hin & Hsub)]; cbn [upsert].
    + exists data. split; [left|done].
    + destruct (same_identity cols k m mr).
      * exists (data ∪ mr.2). split; [left|apply map_union_subseteq_l].
      * exists row. split; [by right|done].
  - exists data. split; [|done]. apply elem_of_app. right. left.
Qed.

Lemma merge_rows_identity_count cols m datas db k :
  let n := identity_count cols m k db in
  let n' := identity_count cols m k (foldl (λ db data, merge_row cols m data db) db datas) in
  (n ≤ n' ≤ Nat.max 1 n)%nat.
Proof.
  cbn. revert db. induction datas as [|data datas IH]; intros db; cbn [foldl]; [lia|].
  specialize (IH (merge_row cols m data db)).
  pose proof (merge_row_identity_count cols m data db k). cbn in *. lia.
Qed.

(** The loop on a merge-designated model, whatever its outcome. *)
Lemma table_import_rows_merge cols model rm columns s :
  mapper_keeps_store rm →
  ∀ buf u w r w',
  table_import_rows cols model true rm columns s buf u w = (r, w') →
  ∃ cs, calls w' = calls w ++ cs ∧
    Forall (is_merge_or_flush model) cs ∧
    working w' = foldl (λ db data, merge_row cols model data db) (working w) (merged_rows cs).
Proof.
  intros Hrm. induction s as [|record rest IH|e]; intros buf u w r w' Hrun.
  - cbn in Hrun. injection Hrun as <- <-. exists []. by rewrite app_nil_r.
  - cbn [table_import_rows] in Hrun.
    pose proof (map_row_keeps_store rm record columns ∅ w Hrm) as Hk.
    apply bind_inv in Hrun as [(data & w1 & Hmr & Hrun)|(e & Hmr & ->)];
      rewrite Hmr in Hk; cbn in Hk; destruct Hk as (Hc1 & Hw1 & _);
      [|exists []; by rewrite app_nil_r].
    apply bind_inv in Hrun as [(buf1 & w2 & Hmerge & Hrun)|(e & Hmerge & ->)].
    2:{ apply bind_inv in Hmerge as [(? & ? & _ & [=])|(? & [=] & _)]. }
    apply bind_inv_ok in Hmerge as ([] & w2' & Hmerge & [= <- <-]).
    destruct (session_merge_spec cols model data w1) as (w2'' & Hm & Hc2 & _ & Hw2 & _).
    rewrite Hm in Hmerge. injection Hmerge as <-.
    destruct (u + 1 =? 10000).
    + apply bind_inv in Hrun as [(buf2 & w3 & [= <- <-] & Hrun)|(? & [=] & _)].
      apply bind_inv in Hrun as [([] & w4 & [= <-] & Hrun)|(? & [=] & _)].
      apply IH in Hrun as (cs & Hcs & Hall & Hwk).
      exists (CMerge model data :: CFlush :: cs). split_and!.
      * rewrite Hcs. cbn. rewrite Hc2, Hc1, <- !app_assoc. done.
      * apply Forall_cons_2; [right; eauto|apply Forall_cons_2; [by left|done]].
      * rewrite Hwk, merged_rows_merge, merged_rows_flush. cbn [foldl].
        change (working (log_call CFlush w2'')) with (working w2'').
        by rewrite Hw2, Hw1.
    + apply IH in Hrun as (cs & Hcs & Hall & Hwk).
      exists (CMerge model data :: cs). split_and!.
      * rewrite Hcs, Hc2, Hc1, <- !app_assoc. done.
      * apply Forall_cons_2; [right; eauto|done].
      * rewrite Hwk, merged_rows_merge. cbn [foldl]. by rewrite Hw2, Hw1.
  - cbn in Hrun. injection Hrun as <- <-. exists []. by rewrite app_nil_r.
Qed.

Lemma table_import_merge self model rm tm u w r w' :
  mapper_keeps_store rm →
  model ∈ merge_models →
  table_import self model rm tm u w = (r, w') →
  ∃ cs, calls w' = calls w ++ cs ∧
    Forall (is_merge_or_flush model) cs ∧
    working w' = foldl (λ db data, merge_row (dest_columns self model) model data db)
                   (working w) (merged_rows cs).
Proof.
  intros Hrm Hm Hrun. unfold table_import in Hrun. cbv zeta in Hrun.
  rewrite bind_unfold, table_import_source_record in Hrun.
  rewrite bool_decide_eq_true_2 in Hrun by done.
  apply bind_inv in Hrun as [([buf1 u1] & w1 & Hloop & Hrun)|(e & Hloop & ->)].
  - cbn in Hrun. injection Hrun as <- <-. by eapply table_import_rows_merge.
  - by eapply table_import_rows_merge.
Qed.

Lemma bulk_rows_merged model cs :
  Forall (is_merge_or_flush model) cs → bulk_rows cs = [] ∧ bulk_sizes cs = [].
Proof.
  induction 1 as [|c cs [->|[data ->]] _ IH]; [done|exact IH|exact IH].
Qed.

(** C6. Whatever the outcome of importing a merge-designated model, the
    destination session receives merges of that model (and flushes)
    only, never a bulk insert, and its state is the one before with the
    merged rows upserted one after the other; when the import of the
    table succeeds there is one merge per row of the stream.  An upsert
    never makes a second row of an identity: the number of rows of any
    identity [k] does not decrease and does not pass [max 1] of what it
    was, so an identity present once stays present once; and the row
    merged last is in the table with the values given. *)
Theorem merge_models_upserted NO_VERSION self model tm u w r w' :
  model ∈ merge_models →
  table_import self model
    (generate_row_mapper NO_VERSION self (mapping_per_row (import_class self) model))
    tm u w = (r, w') →
  let cols := dest_columns self model in
  ∃ cs, calls w' = calls w ++ cs ∧
    Forall (is_merge_or_flush model) cs ∧
    bulk_rows cs = [] ∧
    working w' = foldl (λ db data, merge_row cols model data db) (working w) (merged_rows cs) ∧
    (∀ u', r = Ok u' → 0 ≤ u < 10000 →
       length (merged_rows cs) =
       length (stream_rows (tm (source_record (source self) model)))) ∧
    (∀ k, (identity_count cols model k (working w) ≤ identity_count cols model k (working w')
           ≤ Nat.max 1 (identity_count cols model k (working w)))%nat) ∧
    (∀ data, last (merged_rows cs) = Some data →
       ∃ row, (model, row) ∈ working w' ∧ data ⊆ row).
Proof.
  intros Hm Hrun cols.
  destruct (table_import_merge _ _ _ _ _ _ _ _ (row_mapper_keeps_store _ _ _) Hm Hrun)
    as (cs & Hcs & Hall & Hwk).
  exists cs. split_and!; [done|done|by eapply bulk_rows_merged|done|..].
  - intros u' -> Hu.
    apply table_import_ok in Hrun
      as (cs' & datas & Hcs' & _ & Hd & _ & _ & Hrest);
      [|apply row_mapper_keeps_store|done].
    rewrite bool_decide_eq_true_2 in Hrest by done.
    destruct Hrest as (_ & Hmg & _).
    rewrite Hcs in Hcs'. apply app_inv_head in Hcs' as <-.
    rewrite Hmg. symmetry. by eapply Forall2_length.
  - intros k. rewrite Hwk. apply merge_rows_identity_count.
  - intros data Hlast. rewrite Hwk.
    apply last_Some in Hlast as [datas ->].
    rewrite foldl_app. cbn [foldl]. apply merge_row_updates.
Qed.

(** ** The row mapper *)

Lemma assoc_elem_NoDup {A} name (l : list (string * A)) a :
  NoDup l.*1 → (name, a) ∈ l → assoc name l = Some a.
Proof.
  induction l as [|[n b] l IH]; intros Hnd Hin; [by apply elem_of_nil in Hin|].
  cbn in Hnd. apply NoDup_cons in Hnd as [Hn Hnd]. cbn.
  apply elem_of_cons in Hin as [[= <- <-]|Hin].
  - by rewrite String.eqb_refl.
  - destruct (String.eqb_spec n name) as [->|Hne]; [|by apply IH].
    exfalso. apply Hn. apply list_elem_of_fmap. by exists (name, a).
Qed.

Lemma assoc_None {A} name (l : list (string * A)) :
  name ∉ l.*1 → assoc name l = None.
Proof.
  induction l as [|[n b] l IH]; intros Hnot; [done|].
  cbn in Hnot. apply not_elem_of_cons in Hnot as [Hne Hnot]. cbn.
  destruct (String.eqb_spec n name) as [->|_]; [done|by apply IH].
Qed.

Lemma attributes_names NO_VERSION self :
  (attributes NO_VERSION self).*1 ≡ₚ
  (row_procedures NO_VERSION self).*1 ++ data_attributes (import_class self)
  ++ other_methods (import_class self).
Proof.
  unfold attributes, row_procedures, data_attributes, other_methods.
  destruct (import_class self); cbn.
  - apply (bool_decide_unpack _). vm_compute. exact I.
  - apply (bool_decide_unpack _). vm_compute. exact I.
Qed.

Lemma attributes_NoDup NO_VERSION self : NoDup (attributes NO_VERSION self).*1.
Proof.
  unfold attributes. destruct (import_class self); cbn.
  - apply (bool_decide_unpack _). vm_compute. exact I.
  - apply (bool_decide_unpack _). vm_compute. exact I.
Qed.

Lemma row_procedures_attributes NO_VERSION self :
  row_procedures NO_VERSION self ⊆ attributes NO_VERSION self.
Proof.
  unfold row_procedures, attributes, NoVersionChannelImport_attributes,
    ChannelImport_attributes.
  intros x Hx. destruct (import_class self); cbn [app];
    repeat (apply elem_of_cons in Hx as [->|Hx]);
    try (by apply elem_of_nil in Hx); repeat constructor.
Qed.

Lemma get_license_raises self record w e w' :
  get_license self record w = (Raise e, w') →
  e = AttributeError "license_id" ∨ e = ClassNotFoundError ∨ e = KeyError.
Proof.
  unfold get_license, getattr_strict, lift, gets, modify, mbind, M_bind, bind,
    mret, M_ret, ret, raise.
  destruct (record !! "license_id") as [license_id|]; [|intros [= <- _]; by left].
  destruct (truthy license_id); cbn [negb]; [|done].
  destruct (licenses w !! license_id) as [cached|] eqn:Hcached.
  - by rewrite Hcached.
  - unfold source_get_class. destruct (source_lookup (source self) License).
    + cbn. rewrite lookup_insert_eq. done.
    + intros [= <- _]. right. by left.
Qed.

(** C5, as the code has it.  The cases of the mapper made by
    [generate_row_mapper], for one column of one source row.  Without a
    rule the column is read from the source row, [None] standing for a
    column the row does not have, which [table_import] leaves out.  A
    rule is looked up on the source row first: an attribute of that name
    is returned verbatim.  It is looked up on the import object second: a
    computed procedure of the class is called with the row and its
    result returned, and a name that is no attribute of the object at all
    is the configuration error.  Any other attribute of the object is
    called as if it were such a procedure: a data attribute gives a
    TypeError, and no other attribute gives the configuration error. *)
Theorem row_mapper_resolution NO_VERSION self mappings record column w :
  let mapper := generate_row_mapper NO_VERSION self mappings in
  let rule := default ∅ mappings !! column in
  let c := import_class self in
  (rule = None →
     mapper record column w = (Ok (getattr_default record column), w) ∧
     (∀ v, record !! column = Some v → mapper record column w = (Ok v, w)) ∧
     (record !! column = None →
        mapper record column w = (Ok VNone, w) ∧
        ∀ data, map_row mapper record [column] data w = (Ok data, w))) ∧
  (∀ col_map v, rule = Some col_map → record !! col_map = Some v →
     mapper record column w = (Ok v, w)) ∧
  (∀ col_map procedure, rule = Some col_map → record !! col_map = None →
     (col_map, procedure) ∈ row_procedures NO_VERSION self →
     mapper record column w = procedure record w) ∧
  (∀ col_map, rule = Some col_map → record !! col_map = None →
     col_map ∉ (row_procedures NO_VERSION self).*1 →
     col_map ∉ data_attributes c → col_map ∉ other_methods c →
     String.prefix "__" col_map = false →
     mapper record column w = (Raise InvalidMappingConfiguration, w)) ∧
  (∀ col_map, rule = Some col_map → record !! col_map = None →
     col_map ∈ data_attributes c →
     ∃ msg, mapper record column w = (Raise (TypeError msg), w)) ∧
  (∀ col_map, rule = Some col_map → record !! col_map = None →
     col_map ∈ other_methods c →
     (mapper record column w).1 ≠ Raise InvalidMappingConfiguration).
Proof.
  cbn zeta. unfold generate_row_mapper. split_and!.
  - intros Hrule. rewrite Hrule. split_and!; [done| |].
    + intros v Hv. unfold getattr_default. by rewrite Hv.
    + intros Hv. unfold getattr_default. rewrite Hv. split; [done|].
      intros data. cbn [map_row]. rewrite bind_unfold, Hrule. cbn.
      unfold getattr_default. rewrite Hv. done.
  - intros col_map v Hrule Hv. by rewrite Hrule, Hv.
  - intros col_map procedure Hrule Hv Hin. rewrite Hrule, Hv.
    unfold getattr_self.
    rewrite (assoc_elem_NoDup _ _ procedure (attributes_NoDup NO_VERSION self)); [done|].
    by apply row_procedures_attributes.
  - intros col_map Hrule Hv Hp Hd Ho _. rewrite Hrule, Hv.
    unfold getattr_self. rewrite assoc_None; [done|].
    rewrite attributes_names. rewrite !elem_of_app. tauto.
  - intros col_map Hrule Hv Hin. rewrite Hrule, Hv. unfold getattr_self, attributes.
    unfold data_attributes in Hin.
    destruct (import_class self); cbn [app] in Hin |- *;
      repeat (apply elem_of_cons in Hin as [->|Hin]);
      try (by apply elem_of_nil in Hin); by eexists.
  - intros col_map Hrule Hv Hin. rewrite Hrule, Hv. unfold getattr_self, attributes.
    unfold other_methods in Hin.
    destruct (import_class self); cbn [app] in Hin |- *;
      repeat (apply elem_of_cons in Hin as [->|Hin]);
      try (by apply elem_of_nil in Hin); try done.
    cbn. rewrite bind_unfold.
    destruct (get_license self record w) as [[[l|]|e] w1] eqn:Hl; try done.
    apply get_license_raises in Hl as [->|[->| ->]]; done.
Qed.

(** ** What an import respects before it commits *)

Section ImportRespects.
Variable NO_VERSION : string.
Context (R : relation World) (HR : PreOrder R).
Hypothesis R_get_license : ∀ self record, respects R (get_license self record).
Hypothesis R_log_call : ∀ c w, is_write_call c → R w (log_call c w).
Hypothesis R_set_working : ∀ db w, R w (set_working db w).

Lemma respects_session_merge cols m data : respects R (session_merge cols m data).
Proof.
  intros w. unfold session_merge. cbn.
  etrans; [apply (R_log_call (CMerge m data)); exact I|apply R_set_working].
Qed.

Lemma respects_bulk_insert_mappings cols m rows :
  respects R (bulk_insert_mappings cols m rows).
Proof.
  intros w. unfold bulk_insert_mappings.
  destruct (insert_rows _ _ _ _); cbn;
    [|apply (R_log_call (CBulkInsert m rows)); exact I].
  etrans; [apply (R_log_call (CBulkInsert m rows)); exact I|apply R_set_working].
Qed.

Lemma respects_session_flush : respects R session_flush.
Proof. intros w. apply (R_log_call CFlush). exact I. Qed.

Lemma respects_table_import_rows cols model merge rm columns s buf u :
  (∀ record column, respects R (rm record column)) →
  respects R (table_import_rows cols model merge rm columns s buf u).
Proof.
  intros Hrm. revert buf u.
  induction s as [|record rest IH|e]; intros buf u; cbn [table_import_rows];
    [auto with respects| |auto with respects].
  apply respects_bind; [apply _|by apply respects_map_row|]. intros data.
  apply respects_bind; [apply _| |].
  { destruct merge; [|auto with respects].
    apply respects_bind; [apply _|apply respects_session_merge|auto with respects]. }
  intros buf1. destruct (u + 1 =? 10000); [|apply IH].
  apply respects_bind; [apply _| |].
  { destruct (negb merge); [|auto with respects].
    apply respects_bind; [apply _|apply respects_bulk_insert_mappings|auto with respects]. }
  intros buf2. apply respects_bind; [apply _|apply respects_session_flush|].
  intros _. apply IH.
Qed.

Lemma respects_table_import self model rm tm u :
  (∀ record column, respects R (rm record column)) →
  respects R (table_import self model rm tm u).
Proof.
  intros Hrm. unfold table_import. cbv zeta.
  apply respects_bind; [apply _|respects_tac|]. intros sr.
  apply respects_bind; [apply _|by apply respects_table_import_rows|]. intros [buf1 u1].
  destruct (_ && _); [|auto with respects].
  apply respects_bind; [apply _|apply respects_bulk_insert_mappings|auto with respects].
Qed.

Lemma respects_generate_table_mapper self table_map :
  respects R (generate_table_mapper self table_map).
Proof. unfold generate_table_mapper. respects_tac. Qed.

Lemma respects_import_models self models u :
  respects R (import_models NO_VERSION self models u).
Proof.
  revert u. induction models as [|model rest IH]; intros u; cbn [import_models];
    [auto with respects|]. cbv zeta.
  apply respects_bind; [apply _|apply respects_generate_table_mapper|]. intros tm.
  apply respects_bind; [apply _| |intros u1; apply IH].
  apply respects_table_import. intros record column. by apply respects_row_mapper.
Qed.

Hypothesis R_log_end : ∀ c w, ¬ is_write_call c → R w (log_call c w).
Hypothesis R_set_committed : ∀ db w, R w (set_committed db w).

Lemma respects_session_rollback : respects R session_rollback.
Proof.
  intros w. unfold session_rollback. cbn.
  etrans; [apply (R_log_end CRollback); by intros []|apply R_set_working].
Qed.

Lemma respects_session_commit : respects R session_commit.
Proof.
  intros w. unfold session_commit. cbn.
  destruct (commit_error w); cbn.
  - apply (R_log_end CCommit). by intros [].
  - etrans; [apply (R_log_end CCommit); by intros []|apply R_set_committed].
Qed.

Lemma respects_import_channel_data self :
  respects R (import_channel_data NO_VERSION self).
Proof.
  unfold import_channel_data, import_channel_data_try.
  apply respects_try_except; [apply _| |].
  - apply respects_bind; [apply _|apply respects_import_models|].
    intros _. apply respects_session_commit.
  - intros e. apply respects_bind; [apply _|apply respects_session_rollback|].
    intros _. auto with respects.
Qed.

End ImportRespects.

Lemma import_models_committed NO_VERSION self models u w :
  committed (import_models NO_VERSION self models u w).2 = committed w.
Proof.
  apply (respects_import_models NO_VERSION (same committed)); try done; [apply _|].
  intros self' record. by apply preserves_get_license.
Qed.

(** ** Failure of an import *)

(** What [import_channel_data] makes of a failure of its [try] block:
    the exception is raised again, unchanged, and nothing has been
    committed.  The session is rolled back when the exception is an
    SQLAlchemyError, and then sees the committed database again; any other
    exception leaves the world as the [try] block left it. *)
Lemma import_failure_reraised NO_VERSION self w e w1 :
  import_channel_data_try NO_VERSION self w = (Raise e, w1) →
  committed w1 = committed w ∧
  import_channel_data NO_VERSION self w
  = (Raise e,
     if is_SQLAlchemyError e then set_working (committed w1) (log_call CRollback w1)
     else w1).
Proof.
  intros Htry.
  assert (committed w1 = committed w) as Hc.
  { unfold import_channel_data_try in Htry.
    pose proof (import_models_committed NO_VERSION self (content_models self) 0 w) as H.
    apply bind_inv in Htry as [(u & w0 & Hm & Hcommit)|(e0 & Hm & _)].
    - rewrite Hm in H. cbn in H. rewrite <- H.
      unfold session_commit in Hcommit. cbn in Hcommit.
      destruct (commit_error w0); [|done]. by injection Hcommit as _ <-.
    - by rewrite Hm in H. }
  split; [done|].
  unfold import_channel_data, try_except. rewrite Htry.
  destruct (is_SQLAlchemyError e); [|done].
  rewrite bind_unfold. reflexivity.
Qed.

(** ** The generator of LocalFile rows *)

Lemma local_file_records_spec records (seen : gset value) :
  Forall (λ r : Row, is_Some (r !! "checksum")) records →
  let s := local_file_records records seen in
  let out := stream_rows s in
  stream_error s = None ∧
  sublist out records ∧
  NoDup ((.!! "checksum") <$> out) ∧
  (∀ r v, r ∈ out → r !! "checksum" = Some v → v ∉ seen) ∧
  (∀ r v, r ∈ records → r !! "checksum" = Some v →
     v ∈ seen ∨ Some v ∈ (.!! "checksum") <$> out) ∧
  (∀ r, r ∈ out → ∃ pre post, records = pre ++ r :: post ∧
     r !! "checksum" ∉ (.!! "checksum") <$> pre).
Proof.
  intros Hall. revert seen. induction Hall as [|record rest [c Hc] _ IH]; intros seen.
  - cbn. split_and!; try done.
    + constructor.
    + intros r v Hin. by apply elem_of_nil in Hin.
    + intros r v Hin. by apply elem_of_nil in Hin.
    + intros r Hin. by apply elem_of_nil in Hin.
  - cbn [local_file_records]. rewrite Hc.
    destruct (decide (c ∉ seen)) as [Hnew|Hold].
    + destruct (IH ({[c]} ∪ seen)) as (Herr & Hsub & Hnd & Hfresh & Hcov & Hfirst).
      cbn [stream_rows stream_error]. split_and!.
      * done.
      * by apply sublist_skip.
      * rewrite fmap_cons, Hc. apply NoDup_cons. split; [|done].
        intros (r & Hr & Hin)%list_elem_of_fmap.
        apply (Hfresh r c Hin); [done|]. apply elem_of_union. left. by apply elem_of_singleton.
      * intros r v [->|Hin]%elem_of_cons Hv.
        -- congruence.
        -- specialize (Hfresh r v Hin Hv). intros Hs. apply Hfresh.
           apply elem_of_union. by right.
      * intros r v [->|Hin]%elem_of_cons Hv.
        -- right. rewrite fmap_cons, <- Hv. left.
        -- destruct (Hcov r v Hin Hv) as [Hs|Ho].
           ++ apply elem_of_union in Hs as [->%elem_of_singleton|Hs]; [|by left].
              right. rewrite fmap_cons, Hc. left.
           ++ right. rewrite fmap_cons. by right.
      * intros r [->|Hin]%elem_of_cons.
        -- exists [], rest. split; [done|]. cbn. apply not_elem_of_nil.
        -- destruct (Hfirst r Hin) as (pre & post & -> & Hpre).
           exists (record :: pre), post. split; [done|].
           rewrite fmap_cons, Hc. intros [Heq|Hin']%elem_of_cons; [|done].
           apply (Hfresh r c Hin Heq). apply elem_of_union. left. by apply elem_of_singleton.
    + apply dec_stable in Hold.
      destruct (IH seen) as (Herr & Hsub & Hnd & Hfresh & Hcov & Hfirst).
      split_and!; try done.
      * by apply sublist_cons.
      * intros r v [->|Hin]%elem_of_cons Hv; [|by eapply Hcov].
        left. congruence.
      * intros r Hin. destruct (Hfirst r Hin) as (pre & post & -> & Hpre).
        exists (record :: pre), post. split; [done|].
        rewrite fmap_cons, Hc. intros [Heq|Hin']%elem_of_cons; [|done].
        by apply (Hfresh r c Hin Heq).
Qed.

(** C8. Whatever class it is handed, the generator reads the File
    table of the source.  When every File row has a checksum the stream
    ends without raising, and the rows it yields are a subsequence of
    the File rows (their order is kept), no two with the same checksum;
    every checksum of the File table is the checksum of a yielded row;
    and a yielded row is the first File row with its checksum. *)
Theorem local_file_generator_dedup self SourceRecord files :
  source_lookup (source self) File = Some files →
  Forall (λ r : Row, is_Some (r !! "checksum")) files →
  let s := generate_local_file_from_file self SourceRecord in
  let out := stream_rows s in
  s = generate_local_file_from_file self None ∧
  stream_error s = None ∧
  sublist out files ∧
  NoDup ((.!! "checksum") <$> out) ∧
  (∀ r, r ∈ files → r !! "checksum" ∈ (.!! "checksum") <$> out) ∧
  (∀ r, r ∈ out → ∃ pre post, files = pre ++ r :: post ∧
     r !! "checksum" ∉ (.!! "checksum") <$> pre).
Proof.
  intros Hsrc Hall. cbn zeta.
  assert (∀ sr, generate_local_file_from_file self sr = local_file_records files ∅) as Hgen.
  { intros sr. unfold generate_local_file_from_file, source_get_class, source_query_all.
    by rewrite !Hsrc. }
  rewrite !Hgen.
  destruct (local_file_records_spec files ∅ Hall)
    as (Herr & Hsub & Hnd & _ & Hcov & Hfirst).
  split_and!; try done.
  intros r Hin. rewrite Forall_forall in Hall. destruct (Hall r Hin) as [v Hv].
  rewrite Hv. destruct (Hcov r v Hin Hv) as [Hs|Ho]; [|done].
  by apply elem_of_empty in Hs.
Qed.

(** ** The allocated tree id *)

Lemma get_all_destination_tree_ids_spec w :
  ∃ ids, get_all_destination_tree_ids w = (Ok ids, w) ∧
    StronglySorted Z.lt ids ∧
    ∀ z, z ∈ ids ↔ ∃ row, row ∈ table (working w) ContentNode ∧ row_tree_id row = Some z.
Proof.
  eexists. split; [reflexivity|]. split.
  - apply StronglySorted_le_NoDup_lt.
    + apply StronglySorted_merge_sort; apply _.
    + rewrite merge_sort_Permutation. apply NoDup_remove_dups.
  - intros z. rewrite merge_sort_Permutation, elem_of_remove_dups, list_elem_of_omap.
    done.
Qed.

(** The allocator returns on every strictly ascending list: no index is
    out of range and the length of the list is enough fuel. *)
Lemma find_unique_tree_id_from_returns ids :
  StronglySorted Z.lt ids → is_Some (find_unique_tree_id_from ids).
Proof.
  intros Hs. destruct ids as [|a [|b ids]]; [by eexists|cbn; case_match; by eexists|].
  assert (ascending (a :: b :: ids)) as Ha by by apply StronglySorted_ascending.
  destruct (find_hole_in_list_spec (length (a :: b :: ids)) (a :: b :: ids) Ha)
    as (r & Hr & _); [cbn; lia|].
  by exists r.
Qed.

(** [find_unique_tree_id] does not raise. *)
Lemma find_unique_tree_id_returns w :
  ∃ r, find_unique_tree_id w = (Ok r, w).
Proof.
  destruct (get_all_destination_tree_ids_spec w) as (ids & Hids & Hs & _).
  destruct (find_unique_tree_id_from_returns ids Hs) as [r Hr].
  exists r. unfold find_unique_tree_id. by rewrite bind_unfold, Hids, Hr.
Qed.

(** C10. On a strictly ascending list of positive tree ids the
    allocator returns a positive integer that is not in the list; it is
    what [find_unique_tree_id] returns whenever the list is the one the
    destination reports. *)
Theorem allocated_tree_id_unused ids :
  StronglySorted Z.lt ids → Forall (λ x, 0 < x) ids →
  ∃ r, find_unique_tree_id_from ids = Some r ∧ 0 < r ∧ (r ∉ ids) ∧
    (∀ w, get_all_destination_tree_ids w = (Ok ids, w) →
          find_unique_tree_id w = (Ok r, w)).
Proof.
  intros Hs Hpos.
  destruct (find_unique_tree_id_from_unused ids Hs Hpos) as (r & Hr & H0 & Hnot).
  exists r. split_and!; try done.
  intros w Hw. unfold find_unique_tree_id. rewrite bind_unfold, Hw, Hr. done.
Qed.


(** ** Round trip of a current-schema snapshot *)

Lemma column_not_auto_integer_pk_spec col :
  column_not_auto_integer_pk col = false ↔ auto_integer_pk col.
Proof.
  unfold column_not_auto_integer_pk, auto_integer_pk.
  destruct (autoincrement col), (primary_key col), (python_type col); cbn;
    split; try done; intros (? & ? & ?); done.
Qed.

Lemma writable_not_auto_integer_pk (cols : list (string * Column)) column col :
  (column, col) ∈ cols → ¬ auto_integer_pk col → column ∈ dest_writable_columns cols.
Proof.
  intros Hin Hn. unfold dest_writable_columns. apply list_elem_of_fmap.
  exists (column, col). split; [done|]. apply list_elem_of_filter. split; [|done].
  cbn. destruct (column_not_auto_integer_pk col) eqn:H; [done|].
  by apply column_not_auto_integer_pk_spec in H.
Qed.

Lemma writable_dest_column (cols : list (string * Column)) column :
  column ∈ dest_writable_columns cols → column ∈ cols.*1.
Proof.
  unfold dest_writable_columns.
  intros ([c col] & -> & [_ Hin]%list_elem_of_filter)%list_elem_of_fmap.
  apply list_elem_of_fmap. by exists (c, col).
Qed.

Lemma ChannelImport_init_inv c channel_id channel_version source dest_columns
    content_models w0 self w1 :
  ChannelImport_init c channel_id channel_version source dest_columns content_models w0
  = (Ok self, w1) →
  w1 = set_working (committed w0) w0 ∧
  find_unique_tree_id w1 = (Ok (tree_id self), w1) ∧
  self = {| import_class := c; channel_id := channel_id;
            channel_version := channel_version; source := source;
            dest_columns := dest_columns; content_models := content_models;
            tree_id := tree_id self |}.
Proof.
  unfold ChannelImport_init. rewrite bind_unfold. cbn [open_session].
  destruct (find_unique_tree_id_returns (set_working (committed w0) w0)) as [t Ht].
  rewrite bind_unfold, Ht. intros [= <- <-]. done.
Qed.

(** C4. An import manager made by [__init__] for the class of the
    current schema has the tree id that [find_unique_tree_id] found for
    the destination as it was committed then.  A table of [N] source rows
    reaches the destination as [N] rows, in order (appended to the table
    when the model is bulk-inserted).  Of the columns of the destination
    table, a row supplies none that is an auto-incrementing integer
    primary key, and no column the table does not have; every other
    column reads as in the source row ([None] standing for a column left
    out), except [tree_id] of a ContentNode, which is the tree id of the
    import manager on every row. *)
Theorem current_schema_round_trip NO_VERSION channel_id channel_version src cols models
    w0 self w1 model records u w u' w' :
  ChannelImport_init ChannelImport channel_id channel_version src cols models w0
  = (Ok self, w1) →
  source_lookup (source self) model = Some records →
  NoDup (dest_columns self model).*1 →
  0 ≤ u < 10000 →
  table_import self model
    (generate_row_mapper NO_VERSION self (mapping_per_row (import_class self) model))
    (base_table_mapper self) u w = (Ok u', w') →
  find_unique_tree_id (set_working (committed w0) w0)
  = (Ok (tree_id self), set_working (committed w0) w0) ∧
  source self = src ∧ dest_columns self = cols ∧
  ∃ cs, calls w' = calls w ++ cs ∧
    length (rows_received cs) = length records ∧
    (model ∉ merge_models → working w' = working w ++ ((model,.) <$> rows_received cs)) ∧
    Forall2 (λ record data : Row,
      (∀ column, column ∉ (dest_columns self model).*1 → data !! column = None) ∧
      (∀ column col, (column, col) ∈ dest_columns self model →
         (auto_integer_pk col → data !! column = None) ∧
         (¬ auto_integer_pk col →
            if decide (model = ContentNode ∧ column = "tree_id")
            then record !! "get_tree_id" = None →
                 data !! column = Some (VInt (tree_id self))
            else getattr_default data column = getattr_default record column)))
      records (rows_received cs).
Proof.
  intros Hinit Hsrc Hnd Hu Hrun.
  apply ChannelImport_init_inv in Hinit as (-> & Htree & Hself).
  split; [done|].
  assert (import_class self = ChannelImport) as Hc by by rewrite Hself.
  split; [by rewrite Hself|]. split; [by rewrite Hself|]. clear Hself.
  apply table_import_ok in Hrun
    as (cs & datas & Hcs & Herr & Hd & Hu' & Hmod & Hrest);
    [|apply row_mapper_keeps_store|done].
  rewrite (base_table_mapper_rows _ _ _ Hsrc) in Hd.
  assert (rows_received cs = datas ∧
          (model ∉ merge_models → working w' = working w ++ ((model,.) <$> datas)))
    as [Hrecv Hwk].
  { case_bool_decide as Hm.
    - destruct Hrest as (Hall & Hmg & _). split; [|done].
      by rewrite (rows_received_merged _ _ Hall).
    - destruct Hrest as (Hall & Hrows & _ & Hwk). split; [|done].
      by rewrite (rows_received_bulk _ _ Hall). }
  exists cs. rewrite Hrecv. split_and!; [done|symmetry; by eapply Forall2_length|done|].
  eapply Forall2_impl; [exact Hd|]. cbn beta.
  intros record data (wa & wb & Hmap).
  destruct (map_row_pure _ record _ (dest_writable_columns (dest_columns self model))
              (λ column w, ChannelImport_mapper NO_VERSION self model record column w Hc)
              ∅ wa) as (data' & Hmap' & Hlook).
  rewrite Hmap in Hmap'. injection Hmap' as ->.
  assert (∀ column, column ∉ dest_writable_columns (dest_columns self model) →
                    data' !! column = None) as Hout.
  { intros column Hnw. rewrite Hlook. by rewrite decide_False by (by intros [? _]). }
  split.
  - intros column Hnot. apply Hout. intros Hw. by apply Hnot, writable_dest_column.
  - intros column col Hin. split.
    + intros Hpk. apply Hout. eapply not_writable_auto_integer_pk; [done..|].
      by apply column_not_auto_integer_pk_spec.
    + intros Hpk. pose proof (writable_not_auto_integer_pk _ _ _ Hin Hpk) as Hw.
      destruct (decide (model = ContentNode ∧ column = "tree_id")) as [[-> ->]|Hne].
      * intros Hrec. rewrite Hlook, Hrec. cbn.
        rewrite decide_True by done. cbn. by rewrite decide_True.
      * unfold getattr_default at 1. rewrite Hlook.
        rewrite (decide_False (P := model = ContentNode ∧ _)) by done.
        destruct (decide (getattr_default record column = VNone)) as [Hv|Hv].
        -- rewrite decide_False by (by intros [_ ?]). by rewrite lookup_empty, Hv.
        -- by rewrite decide_True.
Qed.

(** C2, where the code departs from it: with the ids 2 and 3 in the
    destination the allocator returns 4, and the least unused positive
    integer is 1. *)
Theorem find_unique_tree_id_skips_leading_hole :
  find_unique_tree_id_from [2; 3] = Some 4 ∧ least_unused [2; 3] 1 ∧
  StronglySorted Z.lt [2; 3] ∧ Forall (λ x, 0 < x) [2; 3].
Proof.
  split_and!.
  - reflexivity.
  - split_and!; [lia| |lia].
    intros H. repeat (apply elem_of_cons in H as [H|H]; [lia|]). by apply elem_of_nil in H.
  - repeat constructor; lia.
  - repeat constructor; lia.
Qed.

(** ** Schema version dispatch *)

Section Dispatch.
Variables V020BETA1 V040BETA3 NO_VERSION VERSION_1 VERSION_2 : string.
Variable CONTENT_SCHEMA_VERSION : string.

Local Abbreviation initialize :=
  (initialize_import_manager V020BETA1 V040BETA3 NO_VERSION VERSION_1 VERSION_2
     CONTENT_SCHEMA_VERSION).
Local Abbreviation lookup_version :=
  (mappings_get V020BETA1 V040BETA3 NO_VERSION VERSION_1 VERSION_2).

(** A version that is not a key of [mappings] is not dispatched on: the
    handler of KeyError never runs, and calling [None] is a TypeError. *)
Lemma initialize_import_manager_unmapped channel_metadata channel_id source dest_columns
    content_models w inferred version :
  channel_metadata !! "inferred_schema_version" = Some inferred →
  channel_metadata !! "version" = Some version →
  lookup_version (default inferred (channel_metadata !! "min_schema_version")) = None →
  initialize channel_metadata channel_id source dest_columns content_models w
  = (Raise (TypeError "'NoneType' object is not callable"), w).
Proof.
  intros Hinf Hver Hget. unfold initialize_import_manager, getattr_strict.
  rewrite Hinf, Hver. rewrite bind_unfold. cbn [mret M_ret ret].
  rewrite bind_unfold. unfold try_except. cbn [mret M_ret ret].
  rewrite Hget. reflexivity.
Qed.

(** No input makes [initialize_import_manager] raise FutureSchemaError
    or InvalidSchemaVersionError. *)
Lemma initialize_import_manager_no_schema_error channel_metadata channel_id source
    dest_columns content_models w e w' :
  initialize channel_metadata channel_id source dest_columns content_models w
  = (Raise e, w') →
  (∀ v, e ≠ FutureSchemaError v) ∧ (∀ msg v, e ≠ InvalidSchemaVersionError msg v).
Proof.
  unfold initialize_import_manager, getattr_strict.
  destruct (channel_metadata !! "inferred_schema_version") as [inferred|];
    [|intros [= <- <-]; done].
  rewrite bind_unfold. cbn [mret M_ret ret].
  rewrite bind_unfold. unfold try_except. cbn [mret M_ret ret].
  destruct (channel_metadata !! "version") as [version|]; [|intros [= <- <-]; done].
  rewrite bind_unfold. cbn [mret M_ret ret].
  destruct (lookup_version _) as [cls|]; [|intros [= <- <-]; done].
  unfold ChannelImport_init. rewrite bind_unfold. cbn [open_session].
  rewrite bind_unfold. unfold find_unique_tree_id. rewrite bind_unfold.
  cbn [get_all_destination_tree_ids gets].
  destruct (find_unique_tree_id_from _); [done|intros [= <- <-]; done].
Qed.

End Dispatch.

(** C3, where the code departs from it: with the table of a Kolibri
    whose current schema version is 2, a snapshot that declares version
    3, or version 0, or the version [x], is answered with the TypeError
    of calling [None]. *)
Theorem initialize_import_manager_unmapped_versions :
  let initialize min_version :=
    (initialize_import_manager "v0.2.0-beta1" "v0.4.0-beta3" "unversioned" "1" "2" "2"
       (Examples.row [("min_schema_version", VStr min_version);
                      ("inferred_schema_version", VStr "unversioned");
                      ("version", VInt 1)])
       (VStr "c1") Examples.snapshot Examples.dest_schema [ContentNode]
       Examples.empty_world).1 in
  py_int (VStr "3") = Ok 3 ∧ py_int (VStr "0") = Ok 0 ∧ py_int (VStr "x") = Raise ValueError ∧
  initialize "3" = Raise (TypeError "'NoneType' object is not callable") ∧
  initialize "0" = Raise (TypeError "'NoneType' object is not callable") ∧
  initialize "x" = Raise (TypeError "'NoneType' object is not callable").
Proof. cbv zeta. split_and!; vm_compute; reflexivity. Qed.

(** ** The license cache *)

(** [__init__] does not touch the dict of the class. *)
Lemma ChannelImport_init_keeps_licenses c channel_id channel_version source dest_columns
    content_models :
  preserves licenses
    (ChannelImport_init c channel_id channel_version source dest_columns content_models).
Proof.
  unfold ChannelImport_init, find_unique_tree_id, get_all_destination_tree_ids.
  apply respects_bind; [apply _|by intros w|]. intros _. respects_tac.
Qed.

(** A License id is looked up in the source only when the cache does not
    have it, and is cached then. *)
Lemma get_license_keeps_inv self record :
  respects (keeps license_cache_inv) (get_license self record).
Proof.
  intros w [Hnd Hc].
  unfold get_license, getattr_strict, lift, gets, modify, mbind, M_bind, bind,
    mret, M_ret, ret, raise.
  destruct (record !! "license_id") as [license_id|]; [|done].
  destruct (truthy license_id); cbn [negb]; [|done].
  destruct (licenses w !! license_id) as [cached|] eqn:Hcached.
  - by rewrite Hcached.
  - destruct (source_get_class (source self) License) as [LicenseRecord|e]; [|done].
    cbn.
    assert (license_cache_inv
              (set_license license_id
                 (source_query_get (source self) LicenseRecord license_id)
                 (log_license_query license_id w))) as Hinv;
      [|by match goal with |- context [match ?x with _ => _ end] => destruct x end].
    split; cbn.
    + apply NoDup_app. split_and!; [done| |apply NoDup_singleton].
      intros x Hx Heq%list_elem_of_singleton. subst x.
      destruct (Hc _ Hx) as [? Hs]. congruence.
    + intros x [Hx|Heq%list_elem_of_singleton]%elem_of_app.
      * destruct (decide (license_id = x)) as [Hxe|Hne].
        -- subst x. rewrite lookup_insert_eq. eauto.
        -- rewrite lookup_insert_ne by done. by apply Hc.
      * subst x. rewrite lookup_insert_eq. eauto.
Qed.

Lemma license_cache_inv_same_fields w w' :
  licenses w' = licenses w → license_queries w' = license_queries w →
  keeps license_cache_inv w w'.
Proof. intros Hl Hq [Hnd Hc]. split; rewrite ?Hq, ?Hl; done. Qed.

(** Over any import, and so over any sequence of imports from an empty
    cache, no License id is queried twice. *)
Lemma import_channel_data_keeps_license_inv NO_VERSION self :
  respects (keeps license_cache_inv) (import_channel_data NO_VERSION self).
Proof.
  apply respects_import_channel_data; [apply _|..].
  - apply get_license_keeps_inv.
  - intros c w _. by apply license_cache_inv_same_fields.
  - intros db w. by apply license_cache_inv_same_fields.
  - intros c w _. by apply license_cache_inv_same_fields.
  - intros db w. by apply license_cache_inv_same_fields.
Qed.

Lemma license_queried_at_most_once NO_VERSION self w :
  license_cache_inv w →
  NoDup (license_queries (import_channel_data NO_VERSION self w).2).
Proof. intros Hinv. by apply (import_channel_data_keeps_license_inv NO_VERSION self w). Qed.

(** C9, where the code departs from it: two old snapshots imported one
    after the other by two instances.  The second instance starts with
    the license the first one cached under id 1, never queries the
    License table of its own snapshot, where id 1 is another license, and
    gives its node the license name of the first snapshot. *)
Theorem license_cache_shared_between_imports :
  let first :=
    Examples.run_import "unversioned" NoVersionChannelImport Examples.old_snapshot_a
      [ContentNode] Examples.empty_world in
  let second :=
    Examples.run_import "unversioned" NoVersionChannelImport Examples.old_snapshot_b
      [ContentNode] first.2 in
  first.1 = Ok () ∧ second.1 = Ok () ∧
  licenses first.2 !! VInt 1
    = Some (Some (Examples.row [("id", VInt 1); ("license_name", VStr "CC BY")])) ∧
  license_queries first.2 = [VInt 1] ∧
  license_queries second.2 = [VInt 1] ∧
  source_query_get Examples.old_snapshot_b License (VInt 1)
    = Some (Examples.row [("id", VInt 1); ("license_name", VStr "All Rights Reserved")]) ∧
  table (committed second.2) ContentNode
    = [Examples.row [("id", VStr "a1"); ("title", VStr "A"); ("tree_id", VInt 1);
                     ("license_name", VStr "CC BY")];
       Examples.row [("id", VStr "b1"); ("title", VStr "B"); ("tree_id", VInt 2);
                     ("license_name", VStr "CC BY")]].
Proof. cbv zeta. split_and!; vm_decide. Qed.

(** ** Concrete imports *)

(** C1, where the code departs from it: an old snapshot whose File
    table has no checksum column makes the row mapper raise its
    AttributeError after the Language row has been merged.  The handler
    catches SQLAlchemyError only: the exception reaches the caller, but
    no rollback is issued, and the session is left with the merged row
    pending, not in the state it had before the import.  Nothing has been
    committed. *)
Theorem import_failure_without_rollback :
  let self :=
    Examples.manager NoVersionChannelImport Examples.snapshot_without_checksum
      [Language; File] 1 in
  let w := Examples.empty_world in
  let r := import_channel_data "unversioned" self w in
  working w = committed w ∧
  r.1 = Raise (AttributeError
                 "Column mapping specified but no valid column name or method found") ∧
  (import_channel_data_try "unversioned" self w).1 = r.1 ∧
  calls r.2 = [CMerge Language
                 (Examples.row [("id", VStr "en"); ("lang_name", VStr "English")])] ∧
  (CRollback ∉ calls r.2) ∧
  working r.2 = [(Language, Examples.row [("id", VStr "en"); ("lang_name", VStr "English")])] ∧
  working r.2 ≠ working w ∧
  committed r.2 = committed w.
Proof. cbv zeta. split_and!; vm_decide. Qed.

Lemma pair_eq_fst {A B} (p : A * B) (a : A) : p.1 = a → p = (a, p.2).
Proof. destruct p. cbn. by intros ->. Qed.

(** The allocator on the ids 1, 2 and 4. *)
Lemma allocated_tree_id_unused_witness :
  ∃ r, find_unique_tree_id_from [1; 2; 4] = Some r ∧ 0 < r ∧ (r ∉ [1; 2; 4]) ∧
    (∀ w, get_all_destination_tree_ids w = (Ok [1; 2; 4], w) →
          find_unique_tree_id w = (Ok r, w)).
Proof.
  apply (allocated_tree_id_unused [1; 2; 4]).
  - repeat constructor; lia.
  - repeat constructor; lia.
Defined.

(** A second import of the language [en] into a destination that has
    it: one row of that identity before, one after, with the new name. *)
Lemma merge_models_upserted_witness :
  let self := Examples.manager ChannelImport Examples.snapshot [Language] 2 in
  let w := Examples.world_of Examples.db_with_n1 in
  let r := table_import self Language
             (generate_row_mapper "unversioned" self (mapping_per_row ChannelImport Language))
             (base_table_mapper self) 0 w in
  identity_count (Examples.dest_schema Language) Language [VStr "en"] (working w) = 1%nat ∧
  identity_count (Examples.dest_schema Language) Language [VStr "en"] (working r.2) = 1%nat ∧
  table (working r.2) Language
    = [Examples.row [("id", VStr "en"); ("lang_name", VStr "English")]] ∧
  ∃ cs, calls r.2 = calls w ++ cs ∧ bulk_rows cs = [].
Proof.
  cbv zeta.
  destruct (merge_models_upserted "unversioned"
              (Examples.manager ChannelImport Examples.snapshot [Language] 2) Language
              (base_table_mapper (Examples.manager ChannelImport Examples.snapshot [Language] 2))
              0 (Examples.world_of Examples.db_with_n1) (Ok 1)
              (table_import (Examples.manager ChannelImport Examples.snapshot [Language] 2)
                 Language
                 (generate_row_mapper "unversioned"
                    (Examples.manager ChannelImport Examples.snapshot [Language] 2)
                    (mapping_per_row ChannelImport Language))
                 (base_table_mapper
                    (Examples.manager ChannelImport Examples.snapshot [Language] 2))
                 0 (Examples.world_of Examples.db_with_n1)).2)
    as (cs & Hcs & _ & Hbulk & _ & _ & Hcount & _).
  - vm_decide.
  - apply pair_eq_fst. vm_decide.
  - assert (identity_count (Examples.dest_schema Language) Language [VStr "en"]
              (working (Examples.world_of Examples.db_with_n1)) = 1%nat) as H1
      by vm_decide.
    specialize (Hcount [VStr "en"]). cbn [dest_columns Examples.manager] in Hcount.
    rewrite H1 in Hcount.
    split_and!; [exact H1|lia|vm_decide|by exists cs].
Defined.

(** The old snapshot with three File rows, two of one checksum. *)
Lemma local_file_generator_dedup_witness :
  let self := Examples.manager NoVersionChannelImport Examples.old_snapshot_files [LocalFile] 1 in
  let out := stream_rows (generate_local_file_from_file self (Some LocalFile)) in
  sublist out Examples.file_rows ∧
  NoDup ((.!! "checksum") <$> out) ∧
  (.!! "id") <$> out = [Some (VStr "f1"); Some (VStr "f2")].
Proof.
  cbv zeta.
  destruct (local_file_generator_dedup
              (Examples.manager NoVersionChannelImport Examples.old_snapshot_files
                 [LocalFile] 1)
              (Some LocalFile) Examples.file_rows)
    as (_ & _ & Hsub & Hnd & _).
  - reflexivity.
  - repeat constructor; eexists; vm_compute; reflexivity.
  - split_and!; [exact Hsub|exact Hnd|vm_decide].
Defined.

(** A many-to-many table of 10,001 rows, imported from a counter at zero:
    at least two bulk inserts, of 10,001 rows together. *)
Example ten_thousand_and_one_rows :
  let model := OtherModel "content_contentnode_tags" in
  let self := Examples.manager ChannelImport Examples.many_tags [model] 1 in
  ∃ u' w' cs,
    table_import self model
      (generate_row_mapper "unversioned" self (mapping_per_row ChannelImport model))
      (base_table_mapper self) 0 Examples.empty_world = (Ok u', w') ∧
    calls w' = calls Examples.empty_world ++ cs ∧
    Forall (λ n, 1 ≤ Z.of_nat n ≤ 10000) (bulk_sizes cs) ∧
    sum_list (bulk_sizes cs) = Z.to_nat 10001 ∧
    (2 ≤ length (bulk_sizes cs))%nat.
Proof.
  cbv zeta.
  destruct (many_rows_bulk_inserted "unversioned"
              (Examples.manager ChannelImport Examples.many_tags
                 [OtherModel "content_contentnode_tags"] 1)
              (OtherModel "content_contentnode_tags") Examples.tag_rows 0
              Examples.empty_world)
    as (u' & w' & cs & Hrun & Hcs & Hsz & Hsum & Hlen).
  - reflexivity.
  - vm_decide.
  - reflexivity.
  - exists "id". split; vm_decide.
  - lia.
  - unfold Examples.tag_rows. rewrite length_replicate. lia.
  - exists u', w', cs. split_and!; [exact Hrun|exact Hcs|exact Hsz| |exact Hlen].
    rewrite Hsum. unfold Examples.tag_rows. apply length_replicate.
Qed.

(** * Further properties of the import *)

(** ** The calls of an import, and how it ends *)

Global Instance writes_only_preorder : PreOrder writes_only.
Proof.
  split.
  - intros w. exists []. by rewrite app_nil_r.
  - intros w1 w2 w3 (cs1 & H1 & Hf1) (cs2 & H2 & Hf2). exists (cs1 ++ cs2). split.
    + by rewrite H2, H1, app_assoc.
    + by apply Forall_app.
Qed.

Lemma same_calls_writes_only w w' : same calls w w' → writes_only w w'.
Proof. intros H. exists []. by rewrite app_nil_r. Qed.

(** Until it commits or rolls back, an import sends the session calls
    that write, and no other. *)
Lemma import_models_writes_only NO_VERSION self models u :
  respects writes_only (import_models NO_VERSION self models u).
Proof.
  apply respects_import_models; [apply _|..].
  - intros self' record w. apply same_calls_writes_only.
    by apply (preserves_get_license calls).
  - intros c w Hc. exists [c]. split; [done|]. by constructor.
  - intros db w. by apply same_calls_writes_only.
Qed.

Lemma import_channel_data_outcome NO_VERSION self w :
  let rw := import_channel_data NO_VERSION self w in
  ∃ cs, Forall is_write_call cs ∧
    match rw.1 with
    | Ok _ => calls rw.2 = calls w ++ cs ++ [CCommit] ∧ committed rw.2 = working rw.2
    | Raise e =>
      committed rw.2 = committed w ∧
      (if is_SQLAlchemyError e
       then (calls rw.2 = calls w ++ cs ++ [CRollback] ∨
             calls rw.2 = calls w ++ cs ++ [CCommit; CRollback]) ∧
            working rw.2 = committed w
       else calls rw.2 = calls w ++ cs)
    end.
Proof.
  cbn zeta. unfold import_channel_data, try_except, import_channel_data_try.
  rewrite bind_unfold.
  pose proof (import_models_writes_only NO_VERSION self (content_models self) 0 w)
    as (cs & Hcs & Hall).
  pose proof (import_models_committed NO_VERSION self (content_models self) 0 w) as Hc.
  destruct (import_models NO_VERSION self (content_models self) 0 w) as [[u|e] w1];
    cbn in Hcs, Hc; exists cs; (split; [done|]).
  - unfold session_commit. cbn. destruct (commit_error w1) as [msg|]; cbn.
    + rewrite bind_unfold. cbn. rewrite Hc. split; [done|]. split; [|done].
      right. by rewrite Hcs, <- !app_assoc.
    + by rewrite Hcs, <- app_assoc.
  - destruct (is_SQLAlchemyError e) eqn:He.
    + rewrite bind_unfold. cbn. rewrite He. rewrite Hc. split; [done|]. split; [|done].
      left. by rewrite Hcs, <- app_assoc.
    + cbn. by rewrite He.
Qed.

Lemma import_models_commit_error NO_VERSION self models u w :
  commit_error (import_models NO_VERSION self models u w).2 = commit_error w.
Proof.
  apply (respects_import_models NO_VERSION (same commit_error)); try done; [apply _|].
  intros self' record. by apply preserves_get_license.
Qed.

(** X1. How [import_channel_data] ends.  The calls it sends the session
    are writes followed by exactly one commit when it returns, which it
    does only when the store accepts the commit.  When it raises an
    SQLAlchemyError they are writes and exactly one rollback, with the
    commit between them exactly when it is the commit that the store
    refused; when it raises anything else they are writes and nothing
    more.  When it returns, what the session saw is committed; when it
    raises, what was committed before still is, and after an
    SQLAlchemyError the session sees it again. *)
Theorem import_channel_data_protocol NO_VERSION self w :
  let rw := import_channel_data NO_VERSION self w in
  ∃ cs, Forall is_write_call cs ∧
    match rw.1 with
    | Ok _ =>
      commit_error w = None ∧
      calls rw.2 = calls w ++ cs ++ [CCommit] ∧ committed rw.2 = working rw.2
    | Raise e =>
      committed rw.2 = committed w ∧
      (if is_SQLAlchemyError e
       then working rw.2 = committed w ∧
            (calls rw.2 = calls w ++ cs ++ [CRollback] ∨
             ∃ msg, e = SQLAlchemyError msg ∧ commit_error w = Some msg ∧
                    calls rw.2 = calls w ++ cs ++ [CCommit; CRollback])
       else calls rw.2 = calls w ++ cs)
    end.
Proof.
  cbn zeta. unfold import_channel_data, try_except, import_channel_data_try.
  rewrite bind_unfold.
  pose proof (import_models_writes_only NO_VERSION self (content_models self) 0 w)
    as (cs & Hcs & Hall).
  pose proof (import_models_committed NO_VERSION self (content_models self) 0 w) as Hc.
  pose proof (import_models_commit_error NO_VERSION self (content_models self) 0 w) as He.
  destruct (import_models NO_VERSION self (content_models self) 0 w) as [[u|e] w1];
    cbn in Hcs, Hc, He; exists cs; (split; [done|]).
  - unfold session_commit. cbn. rewrite He. destruct (commit_error w) as [msg|]; cbn.
    + rewrite bind_unfold. cbn. rewrite Hc. split_and!; [done|done|].
      right. exists msg. split_and!; [done|done|]. by rewrite Hcs, <- !app_assoc.
    + split; [done|]. by rewrite Hcs, <- app_assoc.
  - destruct (is_SQLAlchemyError e) eqn:Hsql.
    + rewrite bind_unfold. cbn. rewrite Hsql. rewrite Hc. split_and!; [done|done|].
      left. by rewrite Hcs, <- app_assoc.
    + cbn. by rewrite Hsql.
Qed.

(** ** What the class of the current schema can raise *)

Lemma raises_only_bind {A B} (P : exn → Prop) (c : M A) (k : A → M B) :
  raises_only P c → (∀ a, raises_only P (k a)) → raises_only P (c ≫= k).
Proof.
  intros Hc Hk w e w' [(a & w1 & _ & Hrun)|(e' & Hrun & [= ->])]%bind_inv.
  - by eapply Hk.
  - by eapply Hc.
Qed.

Lemma raises_only_ret {A} (P : exn → Prop) (a : A) : raises_only P (mret a).
Proof. by intros w e w'. Qed.

Lemma raises_only_bulk_insert_mappings cols m rows :
  raises_only (λ e, is_SQLAlchemyError e = true) (bulk_insert_mappings cols m rows).
Proof.
  intros w e w'. unfold bulk_insert_mappings.
  destruct (insert_rows _ _ _ _) as [db|e'] eqn:Hins; [done|]. intros [= <- _].
  clear w'. revert Hins. generalize (working (log_call (CBulkInsert m rows) w)).
  induction rows as [|row rest IH]; intros db; cbn; [done|].
  unfold insert_row. destruct (identity cols row) as [k|].
  - destruct (existsb _ db); [by intros [= <-]|apply IH].
  - apply IH.
Qed.

Lemma raises_only_session_merge cols m data P :
  raises_only P (session_merge cols m data).
Proof. by intros w e w'. Qed.

Lemma raises_only_session_flush P : raises_only P session_flush.
Proof. by intros w e w'. Qed.

(** With a mapper that cannot raise, the loop over the rows of a list
    raises what a bulk insert raises. *)
Lemma raises_only_table_import_rows cols model merge rm columns rows :
  (∀ record w, ∃ data w', map_row rm record columns ∅ w = (Ok data, w')) →
  ∀ buf u,
  raises_only (λ e, is_SQLAlchemyError e = true)
    (table_import_rows cols model merge rm columns (stream_of_list rows) buf u).
Proof.
  intros Hrm. induction rows as [|record rest IH]; intros buf u.
  - apply raises_only_ret.
  - cbn [stream_of_list table_import_rows].
    apply raises_only_bind.
    { intros w e w' Hrun. destruct (Hrm record w) as (data & w1 & Hok). congruence. }
    intros data. apply raises_only_bind.
    { destruct merge; [|apply raises_only_ret].
      apply raises_only_bind; [apply raises_only_session_merge|intros; apply raises_only_ret]. }
    intros buf1. destruct (u + 1 =? 10000); [|apply IH].
    apply raises_only_bind.
    { destruct (negb merge); [|apply raises_only_ret].
      apply raises_only_bind;
        [apply raises_only_bulk_insert_mappings|intros; apply raises_only_ret]. }
    intros buf2. apply raises_only_bind; [apply raises_only_session_flush|].
    intros _. apply IH.
Qed.

Lemma ChannelImport_map_row NO_VERSION self model record w :
  import_class self = ChannelImport →
  ∃ data w',
    map_row (generate_row_mapper NO_VERSION self (mapping_per_row (import_class self) model))
      record (dest_writable_columns (dest_columns self model)) ∅ w = (Ok data, w').
Proof.
  intros Hc.
  destruct (map_row_pure _ record _ (dest_writable_columns (dest_columns self model))
              (λ column w, ChannelImport_mapper NO_VERSION self model record column w Hc)
              ∅ w) as (data & Hmap & _).
  eauto.
Qed.

Lemma base_table_mapper_is_list self SourceRecord :
  ∃ rows, base_table_mapper self SourceRecord = stream_of_list rows.
Proof. destruct SourceRecord; [by eexists|by exists []]. Qed.

Lemma ChannelImport_table_import_raises NO_VERSION self model u :
  import_class self = ChannelImport →
  raises_only (λ e, is_SQLAlchemyError e = true)
    (table_import self model
       (generate_row_mapper NO_VERSION self (mapping_per_row (import_class self) model))
       (base_table_mapper self) u).
Proof.
  intros Hc w e w' Hrun. unfold table_import in Hrun. cbv zeta in Hrun.
  rewrite bind_unfold, table_import_source_record in Hrun.
  destruct (base_table_mapper_is_list self (source_record (source self) model))
    as [rows Hrows].
  rewrite Hrows in Hrun.
  apply bind_inv in Hrun as [([buf1 u1] & w1 & _ & Hrun)|(e' & Hrun & [= ->])].
  - destruct (_ && _); [|done].
    apply bind_inv in Hrun as [(? & ? & _ & [=])|(e' & Hrun & [= ->])].
    by eapply raises_only_bulk_insert_mappings.
  - eapply raises_only_table_import_rows; [|exact Hrun].
    intros record w0. by apply ChannelImport_map_row.
Qed.

Lemma ChannelImport_import_models_raises NO_VERSION self models u :
  import_class self = ChannelImport →
  raises_only (λ e, is_SQLAlchemyError e = true) (import_models NO_VERSION self models u).
Proof.
  intros Hc. revert u. induction models as [|model rest IH]; intros u.
  - apply raises_only_ret.
  - intros w e w' Hrun. cbn [import_models] in Hrun. cbv zeta in Hrun.
    assert (mapping_per_table (import_class self) model = None) as Hpt.
    { rewrite Hc. unfold mapping_per_table. by destruct model. }
    rewrite Hpt in Hrun. cbn [generate_table_mapper] in Hrun.
    rewrite bind_unfold in Hrun. cbn [mret M_ret ret] in Hrun.
    apply bind_inv in Hrun as [(u1 & w1 & _ & Hrun)|(e' & Hrun & [= ->])].
    + by eapply IH.
    + by eapply ChannelImport_table_import_raises.
Qed.

(** X2. An import with the class of the current schema raises nothing
    but an SQLAlchemyError: its mappers and table mappers cannot fail.  So
    whenever such an import fails it has been rolled back, and the session
    and the committed database are what was committed before. *)
Theorem current_schema_import_failure_rolled_back NO_VERSION self w e w' :
  import_class self = ChannelImport →
  import_channel_data NO_VERSION self w = (Raise e, w') →
  is_SQLAlchemyError e = true ∧
  working w' = committed w ∧ committed w' = committed w ∧
  last (calls w') = Some CRollback.
Proof.
  intros Hc Hrun.
  assert (is_SQLAlchemyError e = true) as He.
  { unfold import_channel_data, try_except, import_channel_data_try in Hrun.
    rewrite bind_unfold in Hrun.
    destruct (import_models NO_VERSION self (content_models self) 0 w)
      as [[u|e1] w1] eqn:Hm.
    - unfold session_commit in Hrun. cbn in Hrun.
      destruct (commit_error w1) as [msg|]; [|done].
      cbn in Hrun. rewrite bind_unfold in Hrun. cbn in Hrun. by injection Hrun as <- _.
    - pose proof (ChannelImport_import_models_raises NO_VERSION self _ 0 Hc _ _ _ Hm) as He1.
      rewrite He1 in Hrun. rewrite bind_unfold in Hrun. cbn in Hrun.
      injection Hrun as <- _. exact He1. }
  pose proof (import_channel_data_outcome NO_VERSION self w) as (cs & _ & Hout).
  rewrite Hrun in Hout. cbn in Hout. rewrite He in Hout.
  destruct Hout as (Hcm & Hcalls & Hwk).
  split_and!; try done.
  destruct Hcalls as [->| ->].
  - by rewrite !app_assoc, last_snoc.
  - change [CCommit; CRollback] with ([CCommit] ++ [CRollback]).
    by rewrite !app_assoc, last_snoc.
Qed.

(** ** Tables the source does not have *)

(** X3. A model whose table the source does not have is no error for the
    default table mapper: [table_import] returns the counter it was
    given and leaves the world as it is, whatever the row mapper. *)
Theorem table_import_missing_source_table self model rm u w :
  source_lookup (source self) model = None →
  table_import self model rm (base_table_mapper self) u w = (Ok u, w).
Proof.
  intros Hsrc. unfold table_import. cbv zeta.
  rewrite bind_unfold, table_import_source_record.
  unfold source_record. rewrite Hsrc. cbn [base_table_mapper table_import_rows].
  rewrite bind_unfold. cbn [mret M_ret ret].
  rewrite (bool_decide_eq_true_2 ([] = [])) by done. cbn [negb].
  by rewrite andb_false_r.
Qed.

(** X14. The generator of LocalFile rows reads the File table when the
    loop asks for its first row: when the source has no File table,
    importing LocalFile with the old-schema class raises
    ClassNotFoundError before anything is written, and the world is left
    as it is. *)
Theorem local_file_import_without_file_table self rm u w :
  source_lookup (source self) File = None →
  table_import self LocalFile rm (generate_local_file_from_file self) u w
  = (Raise ClassNotFoundError, w).
Proof.
  intros Hsrc. unfold table_import. cbv zeta.
  rewrite bind_unfold, table_import_source_record.
  unfold generate_local_file_from_file, source_get_class. rewrite Hsrc.
  rewrite bind_unfold. done.
Qed.

(** ** The calls of an import, model by model *)

Lemma table_import_calls_of self model rm tm u w u' w' :
  mapper_keeps_store rm →
  table_import self model rm tm u w = (Ok u', w') →
  0 ≤ u < 10000 →
  ∃ cs, calls w' = calls w ++ cs ∧
    Forall (is_call_of model) cs ∧
    length (rows_received cs) = length (stream_rows (tm (source_record (source self) model))) ∧
    0 ≤ u' < 10000.
Proof.
  intros Hrm Hrun Hu.
  apply table_import_ok in Hrun
    as (cs & datas & Hcs & _ & Hd & Hu' & _ & Hrest); [|done|done].
  apply Forall2_length in Hd.
  exists cs. split; [done|]. case_bool_decide.
  - destruct Hrest as (Hall & Hmg & _). split_and!; [|by rewrite (rows_received_merged _ _ Hall), Hmg|lia|lia].
    eapply Forall_impl; [exact Hall|]. intros c Hcall. by left.
  - destruct Hrest as (Hall & Hrows & _). split_and!; [|by rewrite (rows_received_bulk _ _ Hall), Hrows|lia|lia].
    eapply Forall_impl; [exact Hall|]. intros c Hcall. by right.
Qed.

Lemma generate_table_mapper_model_stream self model tm w w1 :
  generate_table_mapper self (mapping_per_table (import_class self) model) w = (Ok tm, w1) →
  w1 = w ∧ model_stream self model = Some (tm (source_record (source self) model)).
Proof.
  unfold model_stream, generate_table_mapper.
  destruct (mapping_per_table _ _) as [table_map|]; [|by intros [= <- <-]].
  destruct (getattr_self_table self table_map); [by intros [= <- <-]|done].
Qed.

(** X4. A successful import processes the models in the order of
    [content_models], each to its end before the next: the calls the
    session receives are one block per model, in that order; the block of
    a model holds calls about that model only, and as many rows as the
    model's stream yields.  No row of a model is still buffered when the
    next model begins. *)
Theorem import_models_calls_by_model NO_VERSION self models u w u' w' :
  import_models NO_VERSION self models u w = (Ok u', w') →
  0 ≤ u < 10000 →
  ∃ blocks, calls w' = calls w ++ concat blocks ∧
    Forall2 (λ model cs,
      Forall (is_call_of model) cs ∧
      length (rows_received cs)
      = length (stream_rows (default SNil (model_stream self model))))
      models blocks.
Proof.
  revert u w. induction models as [|model rest IH]; intros u w Hrun Hu.
  - cbn in Hrun. injection Hrun as <- <-. exists []. split; [by rewrite app_nil_r|constructor].
  - cbn [import_models] in Hrun. cbv zeta in Hrun.
    apply bind_inv_ok in Hrun as (tm & w1 & Htm & Hrun).
    apply generate_table_mapper_model_stream in Htm as [-> Hms].
    apply bind_inv_ok in Hrun as (u1 & w2 & Hti & Hrun).
    apply table_import_calls_of in Hti as (cs & Hcs & Hall & Hlen & Hu1);
      [|apply row_mapper_keeps_store|done].
    apply IH in Hrun as (blocks & Hblocks & Hf2); [|done].
    exists (cs :: blocks). split.
    + cbn [concat]. by rewrite Hblocks, Hcs, <- app_assoc.
    + constructor; [|done]. split; [done|]. by rewrite Hms.
Qed.

(** ** Flush batching *)

Lemma table_import_rows_batches cols model (merge : bool) rm columns s :
  mapper_keeps_store rm →
  ∀ buf pre u w buf' u' w',
  table_import_rows cols model merge rm columns s buf u w = (Ok (buf', u'), w') →
  0 ≤ u < 10000 →
  (if merge then buf = [] else buf = pre) →
  ∃ cs datas full rest,
    calls w' = calls w ++ cs ∧
    Forall2 (λ record data, ∃ w1 w2, map_row rm record columns ∅ w1 = (Ok data, w2))
      (stream_rows s) datas ∧
    pre ++ datas = concat full ++ rest ∧
    match full with
    | [] => u' = u + Z.of_nat (length datas)
    | first :: others =>
      Z.of_nat (length first) - Z.of_nat (length pre) = 10000 - u ∧
      Forall (λ batch, Z.of_nat (length batch) = 10000) others ∧
      u' = Z.of_nat (length rest)
    end ∧
    0 ≤ u' < 10000 ∧
    (if merge then
       buf' = [] ∧
       (CMerge model <$> pre) ++ cs
       = concat ((λ batch, (CMerge model <$> batch) ++ [CFlush]) <$> full)
         ++ (CMerge model <$> rest)
     else
       buf' = rest ∧
       cs = concat ((λ batch, [CBulkInsert model batch; CFlush]) <$> full)).
Proof.
  intros Hrm. induction s as [|record s IH|e]; intros buf pre u w buf' u' w' Hrun Hu Hbuf.
  - cbn in Hrun. injection Hrun as <- <- <-. exists [], [], [], pre.
    cbn. rewrite !app_nil_r. split_and!; try done; try lia.
    destruct merge; [done|]. by subst.
  - cbn [table_import_rows] in Hrun.
    apply bind_inv_ok in Hrun as (data & w1 & Hmr & Hrun).
    pose proof (map_row_keeps_store rm record columns ∅ w Hrm) as Hk.
    rewrite Hmr in Hk. cbn in Hk. destruct Hk as (Hc1 & _ & _).
    cbn [stream_rows].
    assert (∀ datas, Forall2 (λ record data, ∃ w1 w2,
                        map_row rm record columns ∅ w1 = (Ok data, w2)) (stream_rows s) datas →
              Forall2 (λ record data, ∃ w1 w2,
                        map_row rm record columns ∅ w1 = (Ok data, w2))
                (record :: stream_rows s) (data :: datas)) as Hcons.
    { intros datas Hd. constructor; [eauto|done]. }
    destruct merge.
    + subst buf.
      apply bind_inv_ok in Hrun as (buf1 & w2 & Hmerge & Hrun).
      apply bind_inv_ok in Hmerge as ([] & w2' & Hmerge & [= <- <-]).
      destruct (session_merge_spec cols model data w1) as (w2'' & Hm & Hc2 & _).
      rewrite Hm in Hmerge. injection Hmerge as <-.
      destruct (Z.eqb_spec (u + 1) 10000) as [Hth|Hth].
      * apply bind_inv_ok in Hrun as (buf2 & w3 & [= <- <-] & Hrun).
        apply bind_inv_ok in Hrun as ([] & w4 & [= <-] & Hrun).
        apply (IH _ []) in Hrun
          as (cs & datas & full & rest & Hcs & Hd & Hsplit & Hfull & Hu' & -> & Hcalls);
          [|lia|done].
        exists (CMerge model data :: CFlush :: cs), (data :: datas),
          ((pre ++ [data]) :: full), rest.
        refine (conj _ (conj (Hcons _ Hd) (conj _ (conj _ (conj Hu' (conj eq_refl _)))))).
        -- rewrite Hcs. cbn. rewrite Hc2, Hc1, <- !app_assoc. done.
        -- cbn [concat]. rewrite <- !app_assoc, <- Hsplit. done.
        -- split; [rewrite length_app; cbn [length]; lia|].
           destruct full as [|first others].
           ++ split; [done|]. cbn in Hsplit. subst rest. lia.
           ++ destruct Hfull as (Hf & Ho & Hr). split; [|done].
              constructor; [|done]. cbn in Hf. lia.
        -- cbn in Hcalls. rewrite Hcalls, fmap_cons. cbn [concat].
           rewrite fmap_app, <- !app_assoc. done.
      * apply (IH _ (pre ++ [data])) in Hrun
          as (cs & datas & full & rest & Hcs & Hd & Hsplit & Hfull & Hu' & -> & Hcalls);
          [|lia|done].
        exists (CMerge model data :: cs), (data :: datas), full, rest.
        refine (conj _ (conj (Hcons _ Hd) (conj _ (conj _ (conj Hu' (conj eq_refl _)))))).
        -- rewrite Hcs, Hc2, Hc1, <- !app_assoc. done.
        -- rewrite <- Hsplit, <- !app_assoc. done.
        -- destruct full as [|first others]; cbn [length].
           ++ lia.
           ++ rewrite length_app in Hfull. cbn [length] in Hfull.
              destruct Hfull as (Hf & Ho & Hr). split_and!; [lia|done|done].
        -- rewrite <- Hcalls, fmap_app, <- !app_assoc. done.
    + subst buf.
      apply bind_inv_ok in Hrun as (buf1 & w2 & [= <- <-] & Hrun).
      destruct (Z.eqb_spec (u + 1) 10000) as [Hth|Hth].
      * apply bind_inv_ok in Hrun as (buf2 & w3 & Hbulk & Hrun).
        apply bind_inv_ok in Hbulk as ([] & w3' & Hbulk & [= <- <-]).
        apply bind_inv_ok in Hrun as ([] & w4 & [= <-] & Hrun).
        pose proof (bulk_insert_mappings_spec _ _ _ _ _ _ Hbulk) as (Hc3 & _).
        apply (IH _ []) in Hrun
          as (cs & datas & full & rest & Hcs & Hd & Hsplit & Hfull & Hu' & -> & ->);
          [|lia|done].
        exists (CBulkInsert model (pre ++ [data]) :: CFlush
                  :: concat ((λ batch, [CBulkInsert model batch; CFlush]) <$> full)),
          (data :: datas), ((pre ++ [data]) :: full), rest.
        refine (conj _ (conj (Hcons _ Hd) (conj _ (conj _ (conj Hu' (conj eq_refl _)))))).
        -- rewrite Hcs. cbn. rewrite Hc3, Hc1, <- !app_assoc. done.
        -- cbn [concat]. rewrite <- !app_assoc, <- Hsplit. done.
        -- split; [rewrite length_app; cbn [length]; lia|].
           destruct full as [|first others].
           ++ split; [done|]. cbn in Hsplit. subst rest. lia.
           ++ destruct Hfull as (Hf & Ho & Hr). split; [|done].
              constructor; [|done]. cbn in Hf. lia.
        -- done.
      * apply (IH _ (pre ++ [data])) in Hrun
          as (cs & datas & full & rest & Hcs & Hd & Hsplit & Hfull & Hu' & -> & ->);
          [|lia|done].
        exists (concat ((λ batch, [CBulkInsert model batch; CFlush]) <$> full)),
          (data :: datas), full, rest.
        refine (conj _ (conj (Hcons _ Hd) (conj _ (conj _ (conj Hu' (conj eq_refl _)))))).
        -- by rewrite Hcs, Hc1.
        -- rewrite <- Hsplit, <- !app_assoc. done.
        -- destruct full as [|first others]; cbn [length].
           ++ lia.
           ++ rewrite length_app in Hfull. cbn [length] in Hfull.
              destruct Hfull as (Hf & Ho & Hr). split_and!; [lia|done|done].
        -- done.
  - cbn in Hrun. discriminate.
Qed.

Lemma table_import_batches self model rm tm u w u' w' :
  mapper_keeps_store rm →
  table_import self model rm tm u w = (Ok u', w') →
  0 ≤ u < 10000 →
  let s := tm (source_record (source self) model) in
  let columns := dest_writable_columns (dest_columns self model) in
  ∃ cs datas,
    calls w' = calls w ++ cs ∧
    Forall2 (λ record data, ∃ w1 w2, map_row rm record columns ∅ w1 = (Ok data, w2))
      (stream_rows s) datas ∧
    0 ≤ u' ∧
    flushed_in_batches model (bool_decide (model ∈ merge_models)) u datas cs u'.
Proof.
  intros Hrm Hrun Hu s columns. unfold table_import in Hrun. cbv zeta in Hrun.
  apply bind_inv_ok in Hrun as (sr & w0 & Hsr & Hrun).
  rewrite table_import_source_record in Hsr. injection Hsr as <- <-.
  apply bind_inv_ok in Hrun. destruct Hrun as ([buf1 u1] & w1 & Hloop & Hrun).
  apply (table_import_rows_batches _ _ _ _ _ _ Hrm _ []) in Hloop
    as (cs & datas & full & rest & Hcs & Hd & Hsplit & Hfull & Hu1 & Hrest);
    [|done|by destruct (bool_decide _)].
  fold s columns in Hd. cbn [app] in Hsplit.
  assert (match full with
          | [] => u1 = u + Z.of_nat (length rest)
          | first :: others =>
            Z.of_nat (length first) = 10000 - u ∧
            Forall (λ batch, Z.of_nat (length batch) = 10000) others ∧
            u1 = Z.of_nat (length rest)
          end) as Hfull'.
  { destruct full as [|first others].
    - cbn in Hsplit. by subst.
    - destruct Hfull as (Hf & Ho & Hr). cbn in Hf. split_and!; [lia|done|done]. }
  clear Hfull.
  assert (Forall (λ batch : list Row, batch ≠ []) full) as Hne.
  { destruct full as [|first others]; [done|]. destruct Hfull' as (Hf & Ho & _).
    constructor.
    - intros ->. cbn in Hf. lia.
    - eapply Forall_impl; [exact Ho|]. intros batch Hb ->. cbn in Hb. lia. }
  destruct (bool_decide (model ∈ merge_models)); cbn [negb andb] in Hrun.
  - destruct Hrest as (-> & Hcalls). injection Hrun as <- <-.
    exists cs, datas. split_and!; [done|done|lia|].
    exists full, rest. split_and!; [done|done|lia|]. exact Hcalls.
  - destruct Hrest as (-> & ->).
    assert (concat ((λ batch, [CBulkInsert model batch; CFlush]) <$> full)
            = concat ((λ batch, write_calls model false batch ++ [CFlush]) <$> full)) as Heq.
    { f_equal. apply Forall_fmap_ext_1. eapply Forall_impl; [exact Hne|].
      intros batch Hb. by destruct batch. }
    destruct rest as [|d rest].
    + cbn in Hrun. injection Hrun as <- <-.
      exists (concat ((λ batch, [CBulkInsert model batch; CFlush]) <$> full)), datas.
      split_and!; [done|done|lia|].
      exists full, []. split_and!; [done|done|lia|]. cbn [write_calls].
      by rewrite app_nil_r.
    + cbn [bool_decide negb] in Hrun.
      rewrite bool_decide_eq_false_2 in Hrun by done. cbn [negb] in Hrun.
      apply bind_inv_ok in Hrun as ([] & w2 & Hbulk & [= <- <-]).
      pose proof (bulk_insert_mappings_spec _ _ _ _ _ _ Hbulk) as (Hc2 & _).
      exists (concat ((λ batch, [CBulkInsert model batch; CFlush]) <$> full)
              ++ [CBulkInsert model (d :: rest)]), datas.
      split_and!; [by rewrite Hc2, Hcs, <- app_assoc|done|lia|].
      exists full, (d :: rest). split_and!; [done|done|lia|]. by rewrite Heq.
Qed.

(** C7. One counter of processed rows runs through the entity types of
    an import, in their order: the counter a type leaves is the one the
    next type starts from.  Within a type the rows are applied in
    batches: a batch ends, and is followed by a flush and a reset of the
    counter, exactly when the counter reaches 10,000; the rows left when
    the stream ends are applied then, without a flush.  A batch of a
    type that is not merge-designated is one bulk insert of its buffered
    rows; so for such a type the bulk inserts have 1 to 10,000 rows each,
    their sizes add up to the number of source rows, and with more than
    10,000 rows there are at least two. *)
Theorem flush_batching NO_VERSION self models u w u' w' :
  import_models NO_VERSION self models u w = (Ok u', w') →
  0 ≤ u < 10000 →
  ∃ blocks,
    calls w' = calls w ++ concat blocks ∧
    imported_in_batches NO_VERSION self models u blocks u' ∧
    Forall2 (λ model cs,
      model ∉ merge_models →
      let N := length (stream_rows (default SNil (model_stream self model))) in
      Forall (λ n, 1 ≤ Z.of_nat n ≤ 10000) (bulk_sizes cs) ∧
      sum_list (bulk_sizes cs) = N ∧
      (10000 < Z.of_nat N → (2 ≤ length (bulk_sizes cs))%nat))
      models blocks.
Proof.
  revert u w. induction models as [|model rest IH]; intros u w Hrun Hu.
  - cbn in Hrun. injection Hrun as <- <-. exists [].
    split_and!; [by rewrite app_nil_r|done|constructor].
  - cbn [import_models] in Hrun. cbv zeta in Hrun.
    apply bind_inv_ok in Hrun as (tm & w1 & Htm & Hrun).
    apply generate_table_mapper_model_stream in Htm as [-> Hms].
    apply bind_inv_ok in Hrun as (u1 & w2 & Hti & Hrun).
    pose proof (table_import_batches _ _ _ _ _ _ _ _
                  (row_mapper_keeps_store NO_VERSION self _) Hti Hu)
      as (cs & datas & Hcs & Hd & Hu1 & Hbatch).
    pose proof (table_import_ok _ _ _ _ _ _ _ _
                  (row_mapper_keeps_store NO_VERSION self _) Hti Hu)
      as (cs' & datas' & Hcs' & _ & Hd' & _ & _ & Hrest).
    assert (cs' = cs) as -> by (rewrite Hcs in Hcs'; by apply app_inv_head in Hcs').
    assert (u1 < 10000) as Hu1' by (by destruct Hbatch as (? & ? & _ & _ & ? & _)).
    apply IH in Hrun as (blocks & Hcalls & Himp & Hsizes); [|lia].
    exists (cs :: blocks). split_and!.
    + by rewrite Hcalls, Hcs, <- app_assoc.
    + cbn [imported_in_batches]. exists datas, u1. split_and!; [|done|done].
      unfold mapped_rows. rewrite Hms. exact Hd.
    + constructor; [|done]. intros Hnm. cbn zeta.
      rewrite bool_decide_eq_false_2 in Hrest by done.
      destruct Hrest as (_ & Hrows & Hsz & _).
      rewrite Hms. cbn [default].
      assert (sum_list (bulk_sizes cs)
              = length (stream_rows (tm (source_record (source self) model)))) as Hsum.
      { rewrite <- bulk_rows_length, Hrows. symmetry. by eapply Forall2_length. }
      split_and!; [done|done|].
      intros HN. unfold id in HN.
      pose proof (sum_list_bounded _ Hsz) as Hb. rewrite Hsum in Hb. lia.
Qed.

(** ** More on the tree id allocator *)

(** X8. With two ids or more, the allocator returns the first integer
    after [ids[0]] that is not an id: it is above the first id, it is
    unused, and every integer from the first id up to it is an id.  A
    hole below the first id is never returned. *)
Theorem find_unique_tree_id_first_gap a b ids :
  StronglySorted Z.lt (a :: b :: ids) →
  ∃ r, find_unique_tree_id_from (a :: b :: ids) = Some r ∧
    a < r ∧ (r ∉ a :: b :: ids) ∧ (∀ z, a ≤ z ∧ z < r → z ∈ a :: b :: ids).
Proof.
  intros Hs.
  assert (ascending (a :: b :: ids)) as Ha by by apply StronglySorted_ascending.
  destruct (find_hole_in_list_spec (length (a :: b :: ids)) (a :: b :: ids) Ha)
    as (r & Hr & Hhole); [cbn; lia|].
  destruct (first_hole_after_head_unused _ _ Ha Hhole) as (h & Hh & Hlt & Hnot & Hall).
  cbn in Hh. injection Hh as <-. by exists r.
Qed.


(** ** Dispatch on a version the table has *)

Section DispatchMapped.
Variables V020BETA1 V040BETA3 NO_VERSION VERSION_1 VERSION_2 : string.
Variable CONTENT_SCHEMA_VERSION : string.

Local Abbreviation initialize' :=
  (initialize_import_manager V020BETA1 V040BETA3 NO_VERSION VERSION_1 VERSION_2
     CONTENT_SCHEMA_VERSION).
Local Abbreviation lookup_version' :=
  (mappings_get V020BETA1 V040BETA3 NO_VERSION VERSION_1 VERSION_2).

(** X10. The two current versions are imported by [ChannelImport]; the
    three old ones by [NoVersionChannelImport], as long as they are not
    also names of a current version, whose entries come later in the
    table.  A snapshot whose version the table has is handed to
    [__init__] of the class found, with the version of the channel
    metadata; its declared minimum schema version is looked up when it
    has one, its inferred version otherwise. *)
Theorem initialize_import_manager_dispatch :
  (∀ v, v = VERSION_1 ∨ v = VERSION_2 → lookup_version' (VStr v) = Some ChannelImport) ∧
  (∀ v, v = V020BETA1 ∨ v = V040BETA3 ∨ v = NO_VERSION →
        v ≠ VERSION_1 → v ≠ VERSION_2 →
        lookup_version' (VStr v) = Some NoVersionChannelImport) ∧
  (∀ channel_metadata channel_id source dest_columns content_models w inferred version cls,
     channel_metadata !! "inferred_schema_version" = Some inferred →
     channel_metadata !! "version" = Some version →
     lookup_version' (default inferred (channel_metadata !! "min_schema_version")) = Some cls →
     initialize' channel_metadata channel_id source dest_columns content_models w
     = ChannelImport_init cls channel_id version source dest_columns content_models w).
Proof.
  split_and!.
  - intros v Hv. unfold mappings_get, mappings.
    destruct (decide (v = VERSION_2)) as [Heq|Hne2].
    { rewrite Heq. by rewrite lookup_insert_eq. }
    destruct Hv as [Heq|Heq]; [|done].
    rewrite lookup_insert_ne by done. rewrite Heq. by rewrite lookup_insert_eq.
  - intros v Hv H1 H2. unfold mappings_get, mappings.
    do 2 (rewrite lookup_insert_ne by done).
    destruct (decide (v = NO_VERSION)) as [Heq|Hn].
    { rewrite Heq. by rewrite lookup_insert_eq. }
    rewrite lookup_insert_ne by done.
    destruct (decide (v = V040BETA3)) as [Heq|Hb3].
    { rewrite Heq. by rewrite lookup_insert_eq. }
    rewrite lookup_insert_ne by done.
    destruct Hv as [Heq|[Heq|Heq]]; [|done|done].
    rewrite Heq. by rewrite lookup_insert_eq.
  - intros channel_metadata channel_id source dest_columns content_models w inferred
      version cls Hinf Hver Hget.
    unfold initialize_import_manager, getattr_strict.
    rewrite Hinf, Hver. rewrite bind_unfold. cbn [mret M_ret ret].
    rewrite bind_unfold. unfold try_except. cbn [mret M_ret ret].
    rewrite Hget. reflexivity.
Qed.

End DispatchMapped.

(** ** The memoized license lookup *)

(** X11. [get_license] is memoized: after a call that returned, the same
    call returns the same license again and changes nothing, so the
    second one does not query the source. *)
Theorem get_license_memoized self record w license w1 :
  get_license self record w = (Ok license, w1) →
  get_license self record w1 = (Ok license, w1).
Proof.
  unfold get_license, getattr_strict, lift, gets, modify, mbind, M_bind, bind,
    mret, M_ret, ret, raise.
  destruct (record !! "license_id") as [license_id|]; [|done].
  destruct (truthy license_id); cbn [negb]; [|by intros [= <- <-]].
  destruct (licenses w !! license_id) as [cached|] eqn:Hcached.
  - rewrite Hcached. intros [= <- <-]. rewrite Hcached. cbn. by rewrite Hcached.
  - destruct (source_get_class (source self) License) as [LicenseRecord|e]; [|done].
    cbn.
    destruct (<[license_id:=source_query_get (source self) LicenseRecord license_id]>
                (licenses w) !! license_id) as [l|] eqn:Hl; [|done].
    intros [= <- <-]. cbn. rewrite Hl. cbn. by rewrite Hl.
Qed.

Lemma license_lookups_same_fields w w' :
  licenses w' = licenses w → license_queries w' = license_queries w →
  license_lookups w w'.
Proof.
  intros Hl Hq. split; [by rewrite Hl|].
  exists []. rewrite Hq, app_nil_r. split_and!; [done|constructor|].
  by intros x ?%elem_of_nil.
Qed.

Global Instance license_lookups_preorder : PreOrder license_lookups.
Proof.
  split.
  - intros w. by apply license_lookups_same_fields.
  - intros w1 w2 w3 [Hk1 (q1 & Hq1 & Hnd1 & Hnew1)] [Hk2 (q2 & Hq2 & Hnd2 & Hnew2)].
    split; [by auto|].
    exists (q1 ++ q2). split_and!.
    + by rewrite Hq2, Hq1, (assoc_L (++)).
    + apply NoDup_app. split_and!; [done| |done].
      intros x [_ [l Hx1]]%Hnew1 [Hx2 _]%Hnew2. congruence.
    + intros x [Hx|Hx]%elem_of_app.
      * apply Hnew1 in Hx as [Hn [l Hs]]. split; [done|]. exists l. by apply Hk2.
      * apply Hnew2 in Hx as [Hn Hs]. split; [|done].
        destruct (licenses w1 !! x) as [l|] eqn:Hl; [|done].
        apply Hk1 in Hl. congruence.
Qed.

Lemma get_license_lookups self record :
  respects license_lookups (get_license self record).
Proof.
  intros w.
  unfold get_license, getattr_strict, lift, gets, modify, mbind, M_bind, bind,
    mret, M_ret, ret, raise.
  destruct (record !! "license_id") as [license_id|]; [|reflexivity].
  destruct (truthy license_id); cbn [negb]; [|reflexivity].
  destruct (licenses w !! license_id) as [cached|] eqn:Hcached.
  - rewrite Hcached. reflexivity.
  - destruct (source_get_class (source self) License) as [LicenseRecord|e]; [|reflexivity].
    cbn.
    assert (license_lookups w
              (set_license license_id
                 (source_query_get (source self) LicenseRecord license_id)
                 (log_license_query license_id w))) as Hinv;
      [|by match goal with |- context [match ?x with _ => _ end] => destruct x end].
    split; cbn.
    + intros x l Hx. rewrite lookup_insert_ne; [done|]. intros ->. congruence.
    + exists [license_id]. split_and!; [done|apply NoDup_singleton|].
      intros x ->%list_elem_of_singleton. split; [done|].
      rewrite lookup_insert_eq. eauto.
Qed.

(** X12. Whatever the cache holds when an import begins and however the
    import ends: the licenses that were cached are still cached, unchanged;
    the ids the import queries in the License table of its source are
    pairwise distinct, none of them was cached when it began, and each is
    cached when it ends. *)
Theorem import_queries_uncached_licenses_once NO_VERSION self w :
  license_lookups w (import_channel_data NO_VERSION self w).2.
Proof.
  apply respects_import_channel_data; [apply _|..].
  - apply get_license_lookups.
  - intros c w0 _. by apply license_lookups_same_fields.
  - intros db w0. by apply license_lookups_same_fields.
  - intros c w0 _. by apply license_lookups_same_fields.
  - intros db w0. by apply license_lookups_same_fields.
Qed.

(** ** The rows of an old snapshot *)

(** The dict comprehension supplies the columns it is given and no
    other. *)
Lemma map_row_other rm record column columns :
  column ∉ columns →
  ∀ data0 w data w', map_row rm record columns data0 w = (Ok data, w') →
  data !! column = data0 !! column.
Proof.
  induction columns as [|c rest IH]; intros Hnot data0 w data w' Hrun.
  - cbn in Hrun. by injection Hrun as <- _.
  - apply not_elem_of_cons in Hnot as [Hne Hnot].
    cbn [map_row] in Hrun.
    apply bind_inv_ok in Hrun as (v & w1 & _ & Hrun).
    destruct (decide (v = VNone)); [by eapply IH|].
    apply bind_inv_ok in Hrun as (v' & w2 & _ & Hrun).
    rewrite (IH Hnot _ _ _ _ Hrun). by rewrite lookup_insert_ne.
Qed.

(** What the comprehension makes of one column: the mapper is called
    for the condition, and when that is not [None] once more for the
    value, which is what the row gets. *)
Section MapRowAt.
Context (R : relation World) (HR : PreOrder R).
Variable rm : Row → string → M value.
Hypothesis R_rm : ∀ record column, respects R (rm record column).

Lemma map_row_at record columns :
  NoDup columns →
  ∀ data0 w data w', map_row rm record columns data0 w = (Ok data, w') →
  ∀ column, column ∈ columns →
  ∃ v w1 w2, R w w1 ∧ rm record column w1 = (Ok v, w2) ∧
    ((v = VNone ∧ R w2 w' ∧ data !! column = data0 !! column) ∨
     (v ≠ VNone ∧ ∃ v' w3, rm record column w2 = (Ok v', w3) ∧ R w3 w' ∧
                           data !! column = Some v')).
Proof.
  induction columns as [|c rest IH]; intros Hnd data0 w data w' Hrun column Hin.
  { by apply elem_of_nil in Hin. }
  apply NoDup_cons in Hnd as [Hc Hnd].
  cbn [map_row] in Hrun.
  apply bind_inv_ok in Hrun as (v & w1 & Hv & Hrun).
  assert (R w w1) as HR1.
  { pose proof (R_rm record c w) as H. by rewrite Hv in H. }
  destruct (decide (column = c)) as [->|Hne].
  - exists v, w, w1. split_and!; [reflexivity|done|].
    destruct (decide (v = VNone)) as [Hn|Hn].
    + left. split_and!; [done| |by eapply map_row_other].
      pose proof (respects_map_row R HR rm record rest data0 R_rm w1) as H.
      by rewrite Hrun in H.
    + right. split; [done|].
      apply bind_inv_ok in Hrun as (v' & w2 & Hv' & Hrun).
      exists v', w2. split_and!; [done| |].
      * pose proof (respects_map_row R HR rm record rest (<[c:=v']> data0) R_rm w2) as H.
        by rewrite Hrun in H.
      * rewrite (map_row_other _ _ _ _ Hc _ _ _ _ Hrun). by rewrite lookup_insert_eq.
  - apply elem_of_cons in Hin as [?|Hin]; [done|].
    destruct (decide (v = VNone)) as [Hn|Hn].
    + destruct (IH Hnd _ _ _ _ Hrun column Hin) as (v0 & wa & wb & Ha & Hcall & Hcases).
      exists v0, wa, wb. split_and!; [by etrans|done|done].
    + apply bind_inv_ok in Hrun as (v' & w2 & Hv' & Hrun).
      assert (R w1 w2) as HR2.
      { pose proof (R_rm record c w1) as H. by rewrite Hv' in H. }
      destruct (IH Hnd _ _ _ _ Hrun column Hin) as (v0 & wa & wb & Ha & Hcall & Hcases).
      exists v0, wa, wb. split_and!; [by do 2 (etrans; [eassumption|])|done|].
      by rewrite lookup_insert_ne in Hcases.
Qed.

End MapRowAt.

Lemma get_license_cached self record w license w1 license_id :
  get_license self record w = (Ok license, w1) →
  record !! "license_id" = Some license_id → truthy license_id = true →
  licenses w1 !! license_id = Some license.
Proof.
  unfold get_license, getattr_strict, lift, gets, modify, mbind, M_bind, bind,
    mret, M_ret, ret, raise.
  intros Hrun Hid Ht. rewrite Hid in Hrun. rewrite Ht in Hrun. cbn [negb] in Hrun.
  destruct (licenses w !! license_id) as [cached|] eqn:Hcached.
  - rewrite Hcached in Hrun. by injection Hrun as <- <-.
  - destruct (source_get_class (source self) License) as [LicenseRecord|e]; [|done].
    cbn in Hrun.
    destruct (<[license_id:=source_query_get (source self) LicenseRecord license_id]>
                (licenses w) !! license_id) as [l|] eqn:Hl; [|done].
    injection Hrun as <- <-. exact Hl.
Qed.

Lemma get_license_falsy self record w license_id :
  record !! "license_id" = Some license_id → truthy license_id = false →
  get_license self record w = (Ok None, w).
Proof.
  unfold get_license, getattr_strict.
  intros Hid Ht. rewrite bind_unfold, Hid. cbn. by rewrite Ht.
Qed.

(** What [get_license_name] and [get_license_description] return is the
    field of the license that is then cached. *)
Lemma get_license_field_cached self record field w v w1 license_id :
  (license ← get_license self record;
   match license with
   | None => mret VNone
   | Some l => getattr_strict l field
   end) w = (Ok v, w1) →
  record !! "license_id" = Some license_id → truthy license_id = true →
  ∃ license, licenses w1 !! license_id = Some license ∧ v = license_field license field.
Proof.
  intros Hrun Hid Ht.
  apply bind_inv_ok in Hrun as (license & w2 & Hget & Hrun).
  pose proof (get_license_cached _ _ _ _ _ _ Hget Hid Ht) as Hc.
  exists license. destruct license as [l|]; cbn.
  - unfold getattr_strict in Hrun. unfold getattr_default.
    destruct (l !! field) as [x|]; [|done]. by injection Hrun as <- <-.
  - by injection Hrun as <- <-.
Qed.

Section OldSchemaContentNode.
Variable NO_VERSION : string.
Variable self : ImportManager.
Hypothesis Hclass : import_class self = NoVersionChannelImport.

Local Abbreviation rm :=
  (generate_row_mapper NO_VERSION self (mapping_per_row (import_class self) ContentNode)).

Lemma old_ContentNode_rule column col_map method record :
  (column, col_map) ∈ [("channel_id", "infer_channel_id_from_source");
                        ("tree_id", "get_tree_id");
                        ("available", "get_none");
                        ("license_name", "get_license_name");
                        ("license_description", "get_license_description")] →
  getattr_self NO_VERSION self col_map = Some method →
  record !! col_map = None →
  rm record column = method record.
Proof.
  intros Hin Hm Hrec. unfold generate_row_mapper. rewrite Hclass.
  assert (default ∅ (mapping_per_row NoVersionChannelImport ContentNode) !! column
          = Some col_map) as ->.
  { repeat (apply elem_of_cons in Hin as [[= -> ->]|Hin]); [done..|].
    by apply elem_of_nil in Hin. }
  by rewrite Hrec, Hm.
Qed.

Lemma old_ContentNode_unmapped column record :
  column ∉ ["channel_id"; "tree_id"; "available"; "license_name"; "license_description"] →
  rm record column = mret (getattr_default record column).
Proof.
  intros Hnot. unfold generate_row_mapper. rewrite Hclass.
  assert (default ∅ (mapping_per_row NoVersionChannelImport ContentNode) !! column = None)
    as ->; [|done].
  cbn. repeat (apply not_elem_of_cons in Hnot as [? Hnot]).
  by rewrite !lookup_insert_ne by done.
Qed.

End OldSchemaContentNode.

Lemma map_row_constant_column rm record columns column v w data w' :
  NoDup columns →
  map_row rm record columns ∅ w = (Ok data, w') →
  column ∈ columns →
  (∀ w, rm record column w = (Ok v, w)) →
  data !! column = if decide (v = VNone) then None else Some v.
Proof.
  intros Hnd Hrun Hin Hconst.
  assert (PreOrder (λ _ _ : World, True)) as HR by done.
  destruct (map_row_at (λ _ _, True) HR rm (λ _ _ _, I) record columns Hnd _ _ _ _ Hrun
              column Hin) as (v0 & w1 & w2 & _ & Hcall & Hcases).
  rewrite Hconst in Hcall. injection Hcall as <- <-.
  destruct Hcases as [(-> & _ & Hd)|(Hne & v' & w3 & Hcall & _ & Hd)].
  - by rewrite decide_True.
  - rewrite Hconst in Hcall. injection Hcall as <- <-. by rewrite decide_False.
Qed.

Lemma getattr_default_not_None (data : Row) column v :
  data !! column = (if decide (v = VNone) then None else Some v) →
  getattr_default data column = v.
Proof. unfold getattr_default. intros ->. by destruct (decide (v = VNone)) as [->|]. Qed.

(** X13. A ContentNode row of an old snapshot, as [table_import] maps
    it with the rules of [NoVersionChannelImport], for a source row with no
    attribute named like a procedure of the class: [available] is never
    supplied; the row gets the tree id of the import and its channel id;
    a column without a rule reads as in the source row; and for a node
    with a license id, [license_name] and [license_description] are the
    fields of the license cached under that id when the row is done (no
    value for a node whose license id is empty). *)
Theorem old_schema_content_node_row NO_VERSION self record w data w' :
  import_class self = NoVersionChannelImport →
  (∀ name, name ∈ ["infer_channel_id_from_source"; "get_tree_id"; "get_none";
                    "get_license_name"; "get_license_description"] →
           record !! name = None) →
  let columns := dest_writable_columns (dest_columns self ContentNode) in
  NoDup columns →
  map_row (generate_row_mapper NO_VERSION self
             (mapping_per_row (import_class self) ContentNode))
    record columns ∅ w = (Ok data, w') →
  data !! "available" = None ∧
  (∀ column, column ∉ columns → data !! column = None) ∧
  ("tree_id" ∈ columns → data !! "tree_id" = Some (VInt (tree_id self))) ∧
  ("channel_id" ∈ columns → getattr_default data "channel_id" = channel_id self) ∧
  (∀ column, column ∈ columns →
     column ∉ ["channel_id"; "tree_id"; "available"; "license_name"; "license_description"] →
     getattr_default data column = getattr_default record column) ∧
  (∀ field, field ∈ ["license_name"; "license_description"] → field ∈ columns →
     match record !! "license_id" with
     | None => False
     | Some license_id =>
       if truthy license_id then
         ∃ license, licenses w' !! license_id = Some license ∧
                    getattr_default data field = license_field license field
       else data !! field = None
     end).
Proof.
  intros Hclass Hrec columns Hnd Hrun.
  assert (∀ column col_map method,
            (column, col_map) ∈ [("channel_id", "infer_channel_id_from_source");
                                  ("tree_id", "get_tree_id");
                                  ("available", "get_none");
                                  ("license_name", "get_license_name");
                                  ("license_description", "get_license_description")] →
            getattr_self NO_VERSION self col_map = Some method →
            generate_row_mapper NO_VERSION self
              (mapping_per_row (import_class self) ContentNode) record column
            = method record) as Hrule.
  { intros column col_map method Hin Hm.
    apply (old_ContentNode_rule NO_VERSION self Hclass column col_map); [done..|].
    apply Hrec.
    repeat (apply elem_of_cons in Hin as [[= -> ->]|Hin]);
      [repeat constructor..|by apply elem_of_nil in Hin]. }
  assert (∀ name, getattr_self NO_VERSION self name =
                  assoc name (NoVersionChannelImport_attributes NO_VERSION self
                              ++ ChannelImport_attributes self)) as Hself.
  { intros name. unfold getattr_self, attributes. by rewrite Hclass. }
  split_and!.
  - destruct (decide ("available" ∈ columns)) as [Hin|Hnot];
      [|by rewrite (map_row_other _ _ _ _ Hnot _ _ _ _ Hrun)].
    rewrite (map_row_constant_column _ _ _ _ VNone _ _ _ Hnd Hrun Hin); [done|].
    intros w0. by rewrite (Hrule "available" "get_none" (get_none self));
      [|repeat constructor|rewrite Hself].
  - intros column Hnot. by rewrite (map_row_other _ _ _ _ Hnot _ _ _ _ Hrun).
  - intros Hin.
    rewrite (map_row_constant_column _ _ _ _ (VInt (tree_id self)) _ _ _ Hnd Hrun Hin);
      [done|].
    intros w0. by rewrite (Hrule "tree_id" "get_tree_id" (get_tree_id self));
      [|repeat constructor|rewrite Hself].
  - intros Hin. apply getattr_default_not_None.
    apply (map_row_constant_column _ _ _ _ _ _ _ _ Hnd Hrun Hin).
    intros w0. by rewrite (Hrule "channel_id" "infer_channel_id_from_source"
                            (infer_channel_id_from_source self));
      [|repeat constructor|rewrite Hself].
  - intros column Hin Hnot. apply getattr_default_not_None.
    apply (map_row_constant_column _ _ _ _ _ _ _ _ Hnd Hrun Hin).
    intros w0. by rewrite (old_ContentNode_unmapped NO_VERSION self Hclass).
  - intros field Hfield Hin.
    assert (∃ col_map,
              (field, col_map) ∈ [("channel_id", "infer_channel_id_from_source");
                                  ("tree_id", "get_tree_id");
                                  ("available", "get_none");
                                  ("license_name", "get_license_name");
                                  ("license_description", "get_license_description")] ∧
              getattr_self NO_VERSION self col_map =
              Some (λ record,
                      license ← get_license self record;
                      match license with
                      | None => mret VNone
                      | Some l => getattr_strict l field
                      end)) as (col_map & Hmap & Hm).
    { apply elem_of_cons in Hfield as [->|Hfield].
      - exists "get_license_name". split; [repeat constructor|]. by rewrite Hself.
      - apply list_elem_of_singleton in Hfield as ->.
        exists "get_license_description". split; [repeat constructor|]. by rewrite Hself. }
    pose proof (Hrule field col_map _ Hmap Hm) as Hrm.
    destruct (map_row_at license_lookups _ _
                (λ record column,
                   respects_row_mapper NO_VERSION license_lookups _ get_license_lookups
                     self _ record column)
                record columns Hnd _ _ _ _ Hrun field Hin)
      as (v & w1 & w2 & _ & Hcall & Hcases).
    rewrite Hrm in Hcall, Hcases.
    destruct (record !! "license_id") as [license_id|] eqn:Hid.
    2:{ unfold get_license, getattr_strict in Hcall.
        rewrite bind_unfold, bind_unfold, Hid in Hcall. done. }
    destruct (truthy license_id) eqn:Ht.
    + destruct (get_license_field_cached _ _ _ _ _ _ _ Hcall Hid Ht) as (license & Hc & ->).
      exists license.
      destruct Hcases as [(Hv & [Hkeep _] & Hd)|(Hne & v' & w3 & Hcall' & [Hkeep _] & Hd)].
      * split; [by apply Hkeep|]. unfold getattr_default at 1. by rewrite Hd, Hv.
      * destruct (get_license_field_cached _ _ _ _ _ _ _ Hcall' Hid Ht)
          as (license' & Hc' & ->).
        assert (license' = license) as ->.
        { pose proof (get_license_lookups self record w2) as [Hkeep2 _].
          apply bind_inv_ok in Hcall' as (l0 & w4 & Hget & Hrest).
          rewrite Hget in Hkeep2. cbn in Hkeep2.
          assert (w4 = w3) as ->.
          { destruct l0; [|by injection Hrest as _ <-].
            unfold getattr_strict in Hrest. destruct (_ !! _); by injection Hrest as _ <-. }
          apply Hkeep2 in Hc. congruence. }
        split; [by apply Hkeep|]. unfold getattr_default at 1. by rewrite Hd.
    + rewrite bind_unfold, (get_license_falsy _ _ _ _ Hid Ht) in Hcall.
      injection Hcall as <- <-.
      destruct Hcases as [(_ & _ & Hd)|(Hne & _)]; done.
Qed.

(** A column whose rule names an attribute the mapped row was read
    from: the source row has the attribute, and the column reads as the
    attribute does. *)
Lemma map_row_renamed_column NO_VERSION self mappings record columns column col_map
    w data w' :
  NoDup columns →
  map_row (generate_row_mapper NO_VERSION self mappings) record columns ∅ w = (Ok data, w') →
  column ∈ columns →
  default ∅ mappings !! column = Some col_map →
  getattr_self NO_VERSION self col_map = None →
  ∃ v, record !! col_map = Some v ∧ getattr_default data column = v.
Proof.
  intros Hnd Hrun Hin Hrule Hself.
  assert (PreOrder (λ _ _ : World, True)) as HR by done.
  destruct (map_row_at (λ _ _, True) HR _ (λ _ _ _, I) record columns Hnd _ _ _ _ Hrun
              column Hin) as (v & w1 & w2 & _ & Hcall & _).
  unfold generate_row_mapper in Hcall. rewrite Hrule, Hself in Hcall.
  destruct (record !! col_map) as [x|] eqn:Hx; [|done].
  exists x. split; [done|]. apply getattr_default_not_None.
  apply (map_row_constant_column _ _ _ _ _ _ _ _ Hnd Hrun Hin).
  intros w0. unfold generate_row_mapper. by rewrite Hrule, Hx.
Qed.

Lemma map_row_unmapped_column NO_VERSION self mappings record columns column w data w' :
  NoDup columns →
  map_row (generate_row_mapper NO_VERSION self mappings) record columns ∅ w = (Ok data, w') →
  column ∈ columns →
  default ∅ mappings !! column = None →
  getattr_default data column = getattr_default record column.
Proof.
  intros Hnd Hrun Hin Hrule. apply getattr_default_not_None.
  apply (map_row_constant_column _ _ _ _ _ _ _ _ Hnd Hrun Hin).
  intros w0. unfold generate_row_mapper. by rewrite Hrule.
Qed.

Lemma map_row_method_column NO_VERSION self mappings record columns column col_map
    method v w data w' :
  NoDup columns →
  map_row (generate_row_mapper NO_VERSION self mappings) record columns ∅ w = (Ok data, w') →
  column ∈ columns →
  default ∅ mappings !! column = Some col_map →
  record !! col_map = None →
  getattr_self NO_VERSION self col_map = Some method →
  (∀ w, method record w = (Ok v, w)) →
  data !! column = if decide (v = VNone) then None else Some v.
Proof.
  intros Hnd Hrun Hin Hrule Hrec Hself Hconst.
  apply (map_row_constant_column _ _ _ _ _ _ _ _ Hnd Hrun Hin).
  intros w0. unfold generate_row_mapper. by rewrite Hrule, Hrec, Hself.
Qed.

(** X16. The ChannelMetadata row of an old snapshot: whatever the
    source row says, its minimum schema version is written as the
    no-version constant; [root_id] is the [root_pk] of the source row,
    which the row has when the mapping returned; the other columns read
    as in the source row. *)
Theorem old_schema_channel_metadata_row NO_VERSION self record w data w' :
  import_class self = NoVersionChannelImport →
  record !! "set_version_to_no_version" = None →
  let columns := dest_writable_columns (dest_columns self ChannelMetadata) in
  NoDup columns →
  map_row (generate_row_mapper NO_VERSION self
             (mapping_per_row (import_class self) ChannelMetadata))
    record columns ∅ w = (Ok data, w') →
  ("min_schema_version" ∈ columns →
     data !! "min_schema_version" = Some (VStr NO_VERSION)) ∧
  ("root_id" ∈ columns →
     ∃ root_pk, record !! "root_pk" = Some root_pk ∧
                getattr_default data "root_id" = root_pk) ∧
  (∀ column, column ∈ columns → column ∉ ["min_schema_version"; "root_id"] →
     getattr_default data column = getattr_default record column).
Proof.
  intros Hclass Hrec columns Hnd Hrun. rewrite Hclass in Hrun.
  split_and!.
  - intros Hin.
    by rewrite (map_row_method_column _ _ _ _ _ _ "set_version_to_no_version"
                  (set_version_to_no_version NO_VERSION self) (VStr NO_VERSION)
                  _ _ _ Hnd Hrun Hin);
      [| |done|unfold getattr_self, attributes; rewrite Hclass|].
  - intros Hin.
    apply (map_row_renamed_column _ _ _ _ _ _ "root_pk" _ _ _ Hnd Hrun Hin); [done|].
    unfold getattr_self, attributes. by rewrite Hclass.
  - intros column Hin Hnot.
    apply (map_row_unmapped_column _ _ _ _ _ _ _ _ _ Hnd Hrun Hin).
    cbn. repeat (apply not_elem_of_cons in Hnot as [? Hnot]).
    by rewrite !lookup_insert_ne by done.
Qed.

(** X17. A File row of an old snapshot: [available] is never supplied;
    [local_file_id] is the checksum of the source row, which is the id
    the LocalFile rows are given; the other columns read as in the source
    row. *)
Theorem old_schema_file_row NO_VERSION self record w data w' :
  import_class self = NoVersionChannelImport →
  record !! "get_none" = None →
  let columns := dest_writable_columns (dest_columns self File) in
  NoDup columns →
  map_row (generate_row_mapper NO_VERSION self (mapping_per_row (import_class self) File))
    record columns ∅ w = (Ok data, w') →
  data !! "available" = None ∧
  ("local_file_id" ∈ columns →
     ∃ checksum, record !! "checksum" = Some checksum ∧
                 getattr_default data "local_file_id" = checksum) ∧
  (∀ column, column ∈ columns → column ∉ ["local_file_id"; "available"] →
     getattr_default data column = getattr_default record column).
Proof.
  intros Hclass Hrec columns Hnd Hrun. rewrite Hclass in Hrun.
  split_and!.
  - destruct (decide ("available" ∈ columns)) as [Hin|Hnot];
      [|by rewrite (map_row_other _ _ _ _ Hnot _ _ _ _ Hrun)].
    by rewrite (map_row_method_column _ _ _ _ _ _ "get_none" (get_none self) VNone
                  _ _ _ Hnd Hrun Hin);
      [| |done|unfold getattr_self, attributes; rewrite Hclass|].
  - intros Hin.
    apply (map_row_renamed_column _ _ _ _ _ _ "checksum" _ _ _ Hnd Hrun Hin); [done|].
    unfold getattr_self, attributes. by rewrite Hclass.
  - intros column Hin Hnot.
    apply (map_row_unmapped_column _ _ _ _ _ _ _ _ _ Hnd Hrun Hin).
    cbn. repeat (apply not_elem_of_cons in Hnot as [? Hnot]).
    by rewrite !lookup_insert_ne by done.
Qed.

Lemma local_file_records_no_error records (seen : gset value) :
  stream_error (local_file_records records seen) = None →
  Forall (λ r : Row, is_Some (r !! "checksum")) records.
Proof.
  revert seen. induction records as [|record rest IH]; intros seen Herr; [constructor|].
  cbn [local_file_records] in Herr.
  destruct (record !! "checksum") as [c|] eqn:Hc; [|done].
  constructor; [by rewrite Hc|].
  destruct (decide (c ∉ seen)); by eapply IH.
Qed.

(** X15. The LocalFile table of an old snapshot is made from its File
    table.  When the import of the model returns, every File row had a
    checksum, the rows were merged (none bulk-inserted), and the ids of
    the merged rows are the checksums of the File table, each once. *)
Theorem old_schema_local_file_import NO_VERSION self files u w u' w' :
  import_class self = NoVersionChannelImport →
  source_lookup (source self) File = Some files →
  let columns := dest_writable_columns (dest_columns self LocalFile) in
  NoDup columns → "id" ∈ columns →
  table_import self LocalFile
    (generate_row_mapper NO_VERSION self (mapping_per_row (import_class self) LocalFile))
    (generate_local_file_from_file self) u w = (Ok u', w') →
  0 ≤ u < 10000 →
  ∃ cs, calls w' = calls w ++ cs ∧
    Forall (is_merge_or_flush LocalFile) cs ∧
    Forall (λ file : Row, is_Some (file !! "checksum")) files ∧
    let ids := (λ data, getattr_default data "id") <$> merged_rows cs in
    NoDup ids ∧
    ∀ id, id ∈ ids ↔ ∃ file, file ∈ files ∧ file !! "checksum" = Some id.
Proof.
  intros Hclass Hsrc columns Hnd Hid Hrun Hu.
  apply table_import_ok in Hrun as (cs & datas & Hcalls & Herr & Hrows & _ & _ & Hcs);
    [|apply row_mapper_keeps_store|done].
  rewrite bool_decide_eq_true_2 in Hcs by (unfold merge_models; repeat constructor).
  destruct Hcs as (Hall & Hmerged & _).
  assert (generate_local_file_from_file self (source_record (source self) LocalFile)
          = local_file_records files ∅) as Hgen.
  { unfold generate_local_file_from_file, source_get_class, source_query_all.
    by rewrite !Hsrc. }
  rewrite Hgen in Herr, Hrows.
  pose proof (local_file_records_no_error _ _ Herr) as Hsums.
  destruct (local_file_records_spec files ∅ Hsums)
    as (_ & Hsub & Hdistinct & _ & Hcov & _).
  set (out := stream_rows (local_file_records files ∅)) in *.
  assert (Forall (λ r : Row, is_Some (r !! "checksum")) out) as Hout.
  { rewrite Forall_forall in Hsums |- *. intros r Hr. apply Hsums.
    by eapply elem_of_sublist. }
  assert ((λ data, getattr_default data "id") <$> datas
          = (λ record, getattr_default record "checksum") <$> out) as Hids.
  { clear -Hrows Hnd Hid Hclass Hout.
    induction Hrows as [|record data out' datas' Hrow _ IH]; [done|].
    apply Forall_cons in Hout as [[c Hc] Hout].
    rewrite !fmap_cons, IH by done. f_equal.
    destruct Hrow as (w1 & w2 & Hrow).
    apply getattr_default_not_None.
    apply (map_row_constant_column _ _ _ _ _ _ _ _ Hnd Hrow Hid).
    intros w0. unfold generate_row_mapper, getattr_default. rewrite Hclass.
    change (default ∅ (mapping_per_row NoVersionChannelImport LocalFile) !! "id")
      with (Some "checksum").
    cbn. by rewrite Hc. }
  assert ((.!! "checksum") <$> out
          = Some <$> ((λ record, getattr_default record "checksum") <$> out)) as Hsome.
  { clear -Hout. induction Hout as [|r out' [c Hc] _ IH]; [done|].
    rewrite !fmap_cons, IH. f_equal. unfold getattr_default. by rewrite Hc. }
  exists cs. rewrite Hmerged. cbv zeta. rewrite Hids. split_and!; [done|done|done|..].
  - rewrite Hsome in Hdistinct. by apply NoDup_fmap_1 in Hdistinct.
  - intros id. rewrite list_elem_of_fmap. split.
    + intros (r & -> & Hr). exists r. split; [by eapply elem_of_sublist|].
      rewrite Forall_forall in Hout. destruct (Hout r Hr) as [c Hc].
      unfold getattr_default. by rewrite Hc.
    + intros (file & Hfile & Hc). destruct (Hcov file id Hfile Hc) as [Hs|Ho].
      { by apply elem_of_empty in Hs. }
      rewrite Hsome in Ho. apply list_elem_of_fmap in Ho as (x & [= ->] & Hx).
      by apply list_elem_of_fmap in Hx.
Qed.

(** ** Concrete imports, continued *)

(** The failing import of the current-schema snapshot into a
    destination that has the node [n1]. *)
Lemma current_schema_import_failure_rolled_back_witness :
  let self := Examples.manager ChannelImport Examples.snapshot [Language; ContentNode] 2 in
  let w := Examples.world_of Examples.db_with_n1 in
  let r := import_channel_data "unversioned" self w in
  is_SQLAlchemyError (SQLAlchemyError "IntegrityError") = true ∧
  working r.2 = committed w ∧ committed r.2 = committed w ∧
  last (calls r.2) = Some CRollback.
Proof.
  cbv zeta.
  apply (current_schema_import_failure_rolled_back "unversioned"
           (Examples.manager ChannelImport Examples.snapshot [Language; ContentNode] 2)
           (Examples.world_of Examples.db_with_n1)).
  - reflexivity.
  - apply pair_eq_fst. vm_decide.
Defined.

(** The snapshot has no ContentTag table. *)
Lemma table_import_missing_source_table_witness :
  let self := Examples.manager ChannelImport Examples.snapshot [ContentTag] 2 in
  table_import self ContentTag
    (generate_row_mapper "unversioned" self (mapping_per_row ChannelImport ContentTag))
    (base_table_mapper self) 5 Examples.empty_world
  = (Ok 5, Examples.empty_world).
Proof.
  cbv zeta. apply table_import_missing_source_table. reflexivity.
Defined.

(** An old snapshot with a Language table only. *)
Lemma local_file_import_without_file_table_witness :
  let self := Examples.manager NoVersionChannelImport
                [(Language, [Examples.row [("id", VStr "en")]])] [LocalFile] 1 in
  table_import self LocalFile
    (generate_row_mapper "unversioned" self (mapping_per_row NoVersionChannelImport LocalFile))
    (generate_local_file_from_file self) 0 Examples.empty_world
  = (Raise ClassNotFoundError, Examples.empty_world).
Proof.
  cbv zeta. apply local_file_import_without_file_table. reflexivity.
Defined.

(** The language and the two files of the snapshot: a block of one row
    and a block of two. *)
Lemma import_models_calls_by_model_witness :
  let self := Examples.manager ChannelImport Examples.snapshot [Language; File] 2 in
  let w := Examples.empty_world in
  let r := import_models "unversioned" self [Language; File] 0 w in
  r.1 = Ok 3 ∧
  ∃ blocks, calls r.2 = calls w ++ concat blocks ∧
    Forall2 (λ model cs,
      Forall (is_call_of model) cs ∧
      length (rows_received cs)
      = length (stream_rows (default SNil (model_stream self model))))
      [Language; File] blocks.
Proof.
  cbv zeta. split; [vm_decide|].
  apply (import_models_calls_by_model "unversioned" _ _ 0 _ 3).
  - apply pair_eq_fst. vm_decide.
  - lia.
Defined.

(** The five rows of the snapshot from a counter that stands at 9,998. *)
Lemma import_models_shared_counter_witness :
  let self := Examples.manager ChannelImport Examples.snapshot [Language; ContentNode; File] 2 in
  let r := import_models "unversioned" self [Language; ContentNode; File] 9998
             Examples.empty_world in
  r.1 = Ok 3 ∧
  3 = (9998 + Z.of_nat (total_rows self [Language; ContentNode; File])) `mod` 10000.
Proof.
  cbv zeta. split; [vm_decide|].
  apply (import_models_shared_counter "unversioned"
           (Examples.manager ChannelImport Examples.snapshot [Language; ContentNode; File] 2)
           [Language; ContentNode; File] 9998 Examples.empty_world 3
           (import_models "unversioned"
              (Examples.manager ChannelImport Examples.snapshot
                 [Language; ContentNode; File] 2)
              [Language; ContentNode; File] 9998 Examples.empty_world).2).
  - apply pair_eq_fst. vm_decide.
  - lia.
Defined.

(** The ids 1 and 3. *)
Lemma find_unique_tree_id_from_least_witness :
  ∃ r, find_unique_tree_id_from [1; 3] = Some r ∧ least_unused [1; 3] r.
Proof.
  apply find_unique_tree_id_from_least.
  - repeat constructor; lia.
  - repeat constructor; lia.
  - right. reflexivity.
Defined.

(** The ids 2, 3 and 5: the result is 4, not 1. *)
Lemma find_unique_tree_id_first_gap_witness :
  ∃ r, find_unique_tree_id_from [2; 3; 5] = Some r ∧
    2 < r ∧ (r ∉ [2; 3; 5]) ∧ (∀ z, 2 ≤ z ∧ z < r → z ∈ [2; 3; 5]).
Proof.
  apply find_unique_tree_id_first_gap. repeat constructor; lia.
Defined.


(** The table of Kolibri's constants, and a snapshot that declares the
    minimum schema version 1. *)
Lemma initialize_import_manager_dispatch_witness :
  let metadata := Examples.row [("inferred_schema_version", VStr "2");
                                ("min_schema_version", VStr "1");
                                ("version", VInt 3)] in
  mappings_get "v0.2.0-beta1" "v0.4.0-beta3" "unversioned" "1" "2" (VStr "unversioned")
  = Some NoVersionChannelImport ∧
  ∀ w,
    initialize_import_manager "v0.2.0-beta1" "v0.4.0-beta3" "unversioned" "1" "2" "2"
      metadata (VStr "c1") Examples.snapshot Examples.dest_schema [Language] w
    = ChannelImport_init ChannelImport (VStr "c1") (VInt 3) Examples.snapshot
        Examples.dest_schema [Language] w.
Proof.
  cbv zeta.
  destruct (initialize_import_manager_dispatch
              "v0.2.0-beta1" "v0.4.0-beta3" "unversioned" "1" "2" "2")
    as (Hcurrent & Hold & Hrun).
  split.
  - apply Hold; [by right; right|done|done].
  - intros w. apply (Hrun _ _ _ _ _ _ (VStr "2")); [reflexivity|reflexivity|].
    apply Hcurrent. by left.
Defined.

(** The node of the old snapshot, asked twice for its license. *)
Lemma get_license_memoized_witness :
  let self := Examples.manager NoVersionChannelImport Examples.old_snapshot_a [ContentNode] 1 in
  let record := Examples.row [("id", VStr "a1"); ("title", VStr "A"); ("license_id", VInt 1)] in
  let license := Some (Examples.row [("id", VInt 1); ("license_name", VStr "CC BY")]) in
  let r := get_license self record Examples.empty_world in
  get_license self record r.2 = (Ok license, r.2).
Proof.
  cbv zeta. apply (get_license_memoized _ _ Examples.empty_world).
  apply pair_eq_fst. vm_decide.
Defined.

(** The node of the old snapshot, mapped by an import with tree id 7. *)
Lemma old_schema_content_node_row_witness :
  let self := Examples.manager NoVersionChannelImport Examples.old_snapshot_a [ContentNode] 7 in
  let record := Examples.row [("id", VStr "a1"); ("title", VStr "A"); ("license_id", VInt 1)] in
  let data := Examples.row [("id", VStr "a1"); ("title", VStr "A"); ("tree_id", VInt 7);
                            ("license_name", VStr "CC BY")] in
  let columns := dest_writable_columns (dest_columns self ContentNode) in
  let r := map_row (generate_row_mapper "unversioned" self
                      (mapping_per_row (import_class self) ContentNode))
             record columns ∅ Examples.empty_world in
  r.1 = Ok data ∧
  data !! "tree_id" = Some (VInt 7) ∧
  ∃ license, licenses r.2 !! VInt 1 = Some license ∧
             getattr_default data "license_name" = license_field license "license_name".
Proof.
  cbv zeta.
  destruct (old_schema_content_node_row "unversioned"
              (Examples.manager NoVersionChannelImport Examples.old_snapshot_a [ContentNode] 7)
              (Examples.row [("id", VStr "a1"); ("title", VStr "A"); ("license_id", VInt 1)])
              Examples.empty_world
              (Examples.row [("id", VStr "a1"); ("title", VStr "A"); ("tree_id", VInt 7);
                             ("license_name", VStr "CC BY")])
              (map_row (generate_row_mapper "unversioned"
                          (Examples.manager NoVersionChannelImport Examples.old_snapshot_a
                             [ContentNode] 7)
                          (mapping_per_row NoVersionChannelImport ContentNode))
                 (Examples.row [("id", VStr "a1"); ("title", VStr "A");
                                ("license_id", VInt 1)])
                 (dest_writable_columns (Examples.dest_schema ContentNode)) ∅
                 Examples.empty_world).2)
    as (_ & _ & Htree & _ & _ & Hlicense).
  - reflexivity.
  - intros name Hin.
    repeat (apply elem_of_cons in Hin as [->|Hin]); [vm_decide..|by apply elem_of_nil in Hin].
  - vm_decide.
  - apply pair_eq_fst. vm_decide.
  - split_and!; [vm_decide|apply Htree; vm_decide|].
    apply (Hlicense "license_name"); [left|vm_decide].
Defined.

(** Three File rows, two of one checksum: two LocalFile rows. *)
Lemma old_schema_local_file_import_witness :
  let files :=
    [Examples.row [("id", VStr "f1"); ("checksum", VStr "abc"); ("extension", VStr "mp4");
                   ("file_size", VInt 10)];
     Examples.row [("id", VStr "f2"); ("checksum", VStr "def"); ("extension", VStr "pdf");
                   ("file_size", VInt 20)];
     Examples.row [("id", VStr "f3"); ("checksum", VStr "abc"); ("extension", VStr "mp4");
                   ("file_size", VInt 10)]] in
  let self := Examples.manager NoVersionChannelImport [(File, files)] [LocalFile] 1 in
  let w := Examples.empty_world in
  let r := table_import self LocalFile
             (generate_row_mapper "unversioned" self
                (mapping_per_row (import_class self) LocalFile))
             (generate_local_file_from_file self) 0 w in
  r.1 = Ok 2 ∧
  ∃ cs, calls r.2 = calls w ++ cs ∧
    Forall (is_merge_or_flush LocalFile) cs ∧
    Forall (λ file : Row, is_Some (file !! "checksum")) files ∧
    let ids := (λ data, getattr_default data "id") <$> merged_rows cs in
    NoDup ids ∧
    ∀ id, id ∈ ids ↔ ∃ file, file ∈ files ∧ file !! "checksum" = Some id.
Proof.
  cbv zeta. split; [vm_decide|].
  apply (old_schema_local_file_import "unversioned"
           (Examples.manager NoVersionChannelImport
              [(File,
                [Examples.row [("id", VStr "f1"); ("checksum", VStr "abc");
                               ("extension", VStr "mp4"); ("file_size", VInt 10)];
                 Examples.row [("id", VStr "f2"); ("checksum", VStr "def");
                               ("extension", VStr "pdf"); ("file_size", VInt 20)];
                 Examples.row [("id", VStr "f3"); ("checksum", VStr "abc");
                               ("extension", VStr "mp4"); ("file_size", VInt 10)]])]
              [LocalFile] 1)
           _ 0 Examples.empty_world 2).
  - reflexivity.
  - reflexivity.
  - vm_decide.
  - vm_decide.
  - apply pair_eq_fst. vm_decide.
  - lia.
Defined.

(** The metadata row of an old snapshot that calls itself version 9. *)
Lemma old_schema_channel_metadata_row_witness :
  let schema := λ _ : Model,
    [("id", Examples.column true PyStr); ("min_schema_version", Examples.column false PyStr);
     ("root_id", Examples.column false PyStr)] in
  let self := {| import_class := NoVersionChannelImport; channel_id := VStr "c1";
                 channel_version := VInt 1; source := []; dest_columns := schema;
                 content_models := [ChannelMetadata]; tree_id := 1 |} in
  let record := Examples.row [("id", VStr "c1"); ("root_pk", VStr "r1");
                              ("min_schema_version", VStr "9")] in
  let data := Examples.row [("id", VStr "c1"); ("min_schema_version", VStr "unversioned");
                            ("root_id", VStr "r1")] in
  let r := map_row (generate_row_mapper "unversioned" self
                      (mapping_per_row (import_class self) ChannelMetadata))
             record (dest_writable_columns (schema ChannelMetadata)) ∅ Examples.empty_world in
  r.1 = Ok data ∧
  data !! "min_schema_version" = Some (VStr "unversioned") ∧
  ∃ root_pk, record !! "root_pk" = Some root_pk ∧ getattr_default data "root_id" = root_pk.
Proof.
  cbv zeta.
  set (schema := λ _ : Model,
    [("id", Examples.column true PyStr); ("min_schema_version", Examples.column false PyStr);
     ("root_id", Examples.column false PyStr)]).
  set (self := {| import_class := NoVersionChannelImport; channel_id := VStr "c1";
                  channel_version := VInt 1; source := []; dest_columns := schema;
                  content_models := [ChannelMetadata]; tree_id := 1 |}).
  set (record := Examples.row [("id", VStr "c1"); ("root_pk", VStr "r1");
                               ("min_schema_version", VStr "9")]).
  set (data := Examples.row [("id", VStr "c1"); ("min_schema_version", VStr "unversioned");
                             ("root_id", VStr "r1")]).
  destruct (old_schema_channel_metadata_row "unversioned" self record Examples.empty_world
              data
              (map_row (generate_row_mapper "unversioned" self
                          (mapping_per_row (import_class self) ChannelMetadata))
                 record (dest_writable_columns (schema ChannelMetadata)) ∅
                 Examples.empty_world).2)
    as (Hversion & Hroot & _).
  - reflexivity.
  - vm_decide.
  - vm_decide.
  - apply pair_eq_fst. vm_decide.
  - split_and!; [vm_decide|apply Hversion; vm_decide|apply Hroot; vm_decide].
Defined.

(** A File row of an old snapshot. *)
Lemma old_schema_file_row_witness :
  let self := Examples.manager NoVersionChannelImport Examples.old_snapshot_files [File] 1 in
  let record := Examples.row [("id", VStr "f1"); ("checksum", VStr "abc");
                              ("extension", VStr "mp4")] in
  let data := Examples.row [("id", VStr "f1"); ("local_file_id", VStr "abc")] in
  let r := map_row (generate_row_mapper "unversioned" self
                      (mapping_per_row (import_class self) File))
             record (dest_writable_columns (dest_columns self File)) ∅ Examples.empty_world in
  r.1 = Ok data ∧
  data !! "available" = None ∧
  ∃ checksum, record !! "checksum" = Some checksum ∧
              getattr_default data "local_file_id" = checksum.
Proof.
  cbv zeta.
  destruct (old_schema_file_row "unversioned"
              (Examples.manager NoVersionChannelImport Examples.old_snapshot_files [File] 1)
              (Examples.row [("id", VStr "f1"); ("checksum", VStr "abc");
                             ("extension", VStr "mp4")])
              Examples.empty_world
              (Examples.row [("id", VStr "f1"); ("local_file_id", VStr "abc")])
              (map_row (generate_row_mapper "unversioned"
                          (Examples.manager NoVersionChannelImport
                             Examples.old_snapshot_files [File] 1)
                          (mapping_per_row NoVersionChannelImport File))
                 (Examples.row [("id", VStr "f1"); ("checksum", VStr "abc");
                                ("extension", VStr "mp4")])
                 (dest_writable_columns (Examples.dest_schema File)) ∅
                 Examples.empty_world).2)
    as (Havailable & Hchecksum & _).
  - reflexivity.
  - vm_decide.
  - vm_decide.
  - apply pair_eq_fst. vm_decide.
  - split_and!; [vm_decide|exact Havailable|apply Hchecksum; vm_decide].
Defined.

(** ** The claims on concrete inputs *)

(** C5 fails as stated: a rule that names [tree_id], for a row of a
    table without that column.  [tree_id] is no column of the row and no
    procedure of the class, but it is an attribute of the import object:
    the mapper calls the integer, which is a TypeError and not the
    configuration error. *)
Lemma row_mapper_calls_data_attribute :
  let self := Examples.manager ChannelImport Examples.snapshot [File] 2 in
  let mapper := generate_row_mapper "unversioned" self (Some {[ "tree" := "tree_id" ]}) in
  let record := Examples.row [("id", VStr "f1"); ("local_file_id", VStr "abc")] in
  let w := Examples.empty_world in
  record !! "tree_id" = None ∧
  ("tree_id" ∉ (row_procedures "unversioned" self).*1) ∧
  mapper record "tree" w = (Raise (TypeError "'int' object is not callable"), w) ∧
  mapper record "tree" w ≠ (Raise InvalidMappingConfiguration, w).
Proof.
  cbv zeta. split_and!; [vm_decide|vm_decide|reflexivity|done].
Qed.


(** The mapper of the old File table, on a row with a checksum and on
    one without. *)
Lemma row_mapper_resolution_witness :
  let self := Examples.manager NoVersionChannelImport Examples.old_snapshot_files [File] 1 in
  let mapper :=
    generate_row_mapper "unversioned" self (mapping_per_row NoVersionChannelImport File) in
  let record := Examples.row [("id", VStr "f1"); ("checksum", VStr "abc")] in
  let bare := Examples.row [("id", VStr "f1")] in
  let w := Examples.empty_world in
  mapper record "id" w = (Ok (VStr "f1"), w) ∧
  mapper record "extension" w = (Ok VNone, w) ∧
  mapper record "local_file_id" w = (Ok (VStr "abc"), w) ∧
  mapper record "available" w = get_none self record w ∧
  mapper bare "local_file_id" w = (Raise InvalidMappingConfiguration, w).
Proof.
  cbv zeta. split_and!.
  - eapply (proj1 (row_mapper_resolution "unversioned" _ _ _ "id" _)); reflexivity.
  - eapply (proj1 (row_mapper_resolution "unversioned" _ _ _ "extension" _)); reflexivity.
  - eapply (proj1 (proj2 (row_mapper_resolution "unversioned" _ _ _ "local_file_id" _)));
      reflexivity.
  - eapply (proj1 (proj2 (proj2 (row_mapper_resolution "unversioned" _ _ _ "available" _))));
      [reflexivity|reflexivity|].
    cbn. repeat constructor.
  - eapply (proj1 (proj2 (proj2 (proj2
              (row_mapper_resolution "unversioned" _ _ _ "local_file_id" _)))));
      [reflexivity|reflexivity|vm_decide|vm_decide|vm_decide|reflexivity].
Defined.

(** The two nodes of the current-schema snapshot, imported into a
    destination that has a node of another channel in tree 1: the import
    manager is given tree 2, and both rows carry it, where the snapshot
    says tree 1. *)
Lemma current_schema_round_trip_witness :
  let w0 := Examples.world_of
              [(ContentNode, Examples.row [("id", VStr "x1"); ("tree_id", VInt 1)])] in
  let self := Examples.manager ChannelImport Examples.snapshot [ContentNode] 2 in
  let r := table_import self ContentNode
             (generate_row_mapper "unversioned" self (mapping_per_row ChannelImport ContentNode))
             (base_table_mapper self) 0 w0 in
  ChannelImport_init ChannelImport (VStr "c1") (VInt 1) Examples.snapshot
    Examples.dest_schema [ContentNode] w0 = (Ok self, w0) ∧
  r.1 = Ok 2 ∧
  ∃ cs, calls r.2 = calls w0 ++ cs ∧
    length (rows_received cs) = 2%nat ∧
    rows_received cs
    = [Examples.row [("id", VStr "n1"); ("title", VStr "A"); ("tree_id", VInt 2)];
       Examples.row [("id", VStr "n2"); ("tree_id", VInt 2)]] ∧
    working r.2 = working w0 ++ ((ContentNode,.) <$> rows_received cs).
Proof.
  cbv zeta.
  assert (ChannelImport_init ChannelImport (VStr "c1") (VInt 1) Examples.snapshot
            Examples.dest_schema [ContentNode]
            (Examples.world_of
               [(ContentNode, Examples.row [("id", VStr "x1"); ("tree_id", VInt 1)])])
          = (Ok (Examples.manager ChannelImport Examples.snapshot [ContentNode] 2),
             Examples.world_of
               [(ContentNode, Examples.row [("id", VStr "x1"); ("tree_id", VInt 1)])]))
    as Hinit by (vm_compute; reflexivity).
  destruct (current_schema_round_trip "unversioned" _ _ _ _ _ _ _ _ ContentNode
              [Examples.row [("id", VStr "n1"); ("title", VStr "A"); ("tree_id", VInt 1)];
               Examples.row [("id", VStr "n2"); ("title", VNone); ("tree_id", VInt 1)]]
              0
              (Examples.world_of
                 [(ContentNode, Examples.row [("id", VStr "x1"); ("tree_id", VInt 1)])])
              2
              (table_import
                 (Examples.manager ChannelImport Examples.snapshot [ContentNode] 2)
                 ContentNode
                 (generate_row_mapper "unversioned"
                    (Examples.manager ChannelImport Examples.snapshot [ContentNode] 2)
                    (mapping_per_row ChannelImport ContentNode))
                 (base_table_mapper
                    (Examples.manager ChannelImport Examples.snapshot [ContentNode] 2))
                 0
                 (Examples.world_of
                    [(ContentNode, Examples.row [("id", VStr "x1"); ("tree_id", VInt 1)])])).2
              Hinit)
    as (_ & _ & _ & cs & Hcs & Hlen & Hwk & _).
  - reflexivity.
  - vm_decide.
  - lia.
  - apply pair_eq_fst. vm_decide.
  - split_and!; [exact Hinit|vm_decide|].
    exists cs. split_and!; [exact Hcs|exact Hlen| |apply Hwk; vm_decide].
    change (calls (Examples.world_of _)) with (@nil Call) in Hcs.
    rewrite app_nil_l in Hcs. rewrite <- Hcs. vm_decide.
Defined.

(** The language and the two files of the snapshot, imported from a
    counter that stands at 9,999: the language row takes it to 10,000
    and is followed by a flush; the two files are inserted together when
    their table ends, and leave the counter at 2. *)
Lemma flush_batching_witness :
  let self := Examples.manager ChannelImport Examples.snapshot [Language; File] 2 in
  let r := import_models "unversioned" self [Language; File] 9999 Examples.empty_world in
  r.1 = Ok 2 ∧
  bulk_sizes (calls r.2) = [2%nat] ∧
  ∃ blocks,
    calls r.2 = calls Examples.empty_world ++ concat blocks ∧
    imported_in_batches "unversioned" self [Language; File] 9999 blocks 2.
Proof.
  cbv zeta.
  destruct (flush_batching "unversioned"
              (Examples.manager ChannelImport Examples.snapshot [Language; File] 2)
              [Language; File] 9999 Examples.empty_world 2
              (import_models "unversioned"
                 (Examples.manager ChannelImport Examples.snapshot [Language; File] 2)
                 [Language; File] 9999 Examples.empty_world).2)
    as (blocks & Hcalls & Hbatches & _).
  - apply pair_eq_fst. vm_decide.
  - lia.
  - split_and!; [vm_decide|vm_decide|]. by exists blocks.
Defined.
